(** * S2CellUnion: normalization and set algebra of cell unions

    A shallow embedding of [src/S2CellUnion.ts].  A cell identifier is the
    raw 64-bit value of its [Long], kept as a [Z] in [0, 2^64) with the
    wrap-around of every arithmetic operation written out.  A cell union is
    the array [cellIds], kept as a [list Z] in array order. *)

From Stdlib Require Import ZArith List Bool Lia.
From Stdlib Require Import Sorting.Sorted Sorting.Permutation.
Import ListNotations.
Local Open Scope Z_scope.

(** ** 64-bit integers (the [long] package) *)

Module Long.

Definition wrap (x : Z) : Z := x mod 2 ^ 64.

Definition and (a b : Z) : Z := Z.land a b.

Definition or (a b : Z) : Z := Z.lor a b.

Definition add (a b : Z) : Z := wrap (a + b).

Definition negate (a : Z) : Z := wrap (- a).

Definition not (a : Z) : Z := wrap (Z.lnot a).

(** [shiftLeft] masks the shift count with 63, as the package does. *)
Definition shiftLeft (a n : Z) : Z := wrap (Z.shiftl a (n mod 64)).

End Long.

(** The raw values a [Long] can hold. *)
Definition u64 (x : Z) : Prop := 0 <= x < 2 ^ 64.

(** ** Cell identifiers (the collaborator [S2CellId]) *)

Module S2CellId.

Definition MAX_LEVEL : Z := 30.

Definition NUM_FACES : Z := 6.

(** Modelled from the spec: [S2CellId.lowestOnBit] is not under src/; the
    level of a cell is encoded by the position of its lowest set bit, which
    is isolated as [id & -id]. *)
Definition lowestOnBit (id : Z) : Z := Long.and id (Long.negate id).

(** Modelled from the spec: [S2CellId.lowestOnBitForLevel] is not under
    src/; the lowest set bit of a cell of the given level, two bits per
    level below the leaf bit. *)
Definition lowestOnBitForLevel (level : Z) : Z :=
  Long.shiftLeft 1 (2 * (MAX_LEVEL - level)).

(** Modelled from the spec: [S2CellId.level] is not under src/; an integer
    0..30 read off the position of the lowest set bit. *)
Definition level (id : Z) : Z := MAX_LEVEL - Z.log2 (lowestOnBit id) / 2.

(** Modelled from the spec: [S2CellId.face] is not under src/; the value
    encodes face, hierarchical position and level, the face in the top
    three bits. *)
Definition face (id : Z) : Z := Z.shiftr id 61.

(** Modelled from the spec: [S2CellId.isValid] is not under src/; one of
    six faces, and a lowest set bit at an even position, two bits per
    level. *)
Definition isValid (id : Z) : bool :=
  (face id <? NUM_FACES) && negb (Z.land (lowestOnBit id) 0x1555555555555555 =? 0).

(** Modelled from the spec: [S2CellId.rangeMin] is not under src/; the
    first leaf identifier spanned by the cell, inclusive. *)
Definition rangeMin (id : Z) : Z := Long.wrap (id - (lowestOnBit id - 1)).

(** Modelled from the spec: [S2CellId.rangeMax] is not under src/; the last
    leaf identifier spanned by the cell, inclusive. *)
Definition rangeMax (id : Z) : Z := Long.wrap (id + (lowestOnBit id - 1)).

(** Modelled from the spec: [S2CellId.contains] is not under src/;
    [contains(other)] holds when [other.rangeMin() >= this.rangeMin()] and
    [other.rangeMax() <= this.rangeMax()]. *)
Definition contains (this other : Z) : bool :=
  (rangeMin this <=? rangeMin other) && (rangeMax other <=? rangeMax this).

(** Modelled from the spec: [S2CellId.isFace] is not under src/; a whole
    top-level face has no position bit below the face's own lowest bit. *)
Definition isFace (id : Z) : bool :=
  Long.and id (lowestOnBitForLevel 0 - 1) =? 0.

(** Modelled from the spec: [S2CellId.parent] is not under src/; moving
    one level toward the root clears the trailing position bits and sets
    the lowest bit of the coarser level. *)
Definition parent (id : Z) : Z :=
  let newLsb := Long.shiftLeft (lowestOnBit id) 2 in
  Long.or (Long.and id (Long.negate newLsb)) newLsb.

(** Modelled from the spec: [S2CellId.parentL], the ancestor at a given
    level, is not under src/; the same clearing, down to the lowest bit of
    that level. *)
Definition parentL (id level : Z) : Z :=
  let newLsb := lowestOnBitForLevel level in
  Long.or (Long.and id (Long.negate newLsb)) newLsb.

(** Modelled from the spec: [S2CellId.child] is not under src/; the child at
    [position] (0..3) among the four children of a non-leaf cell. *)
Definition child (id position : Z) : Z :=
  let newLsb := Z.shiftr (lowestOnBit id) 2 in
  Long.wrap (id + (2 * position + 1 - 4) * newLsb).

(** Modelled from the spec: [S2CellId.isLeaf] is not under src/; a leaf has
    its lowest set bit at position 0. *)
Definition isLeaf (id : Z) : bool := Z.odd id.

(** Modelled from the spec: [S2CellId.fromFace] is not under src/; the
    whole-face cell of a face number. *)
Definition fromFace (f : Z) : Z :=
  Long.add (Long.shiftLeft f 61) (lowestOnBitForLevel 0).




(** Modelled from the spec: [S2CellId.compareTo] is not under src/; the
    order is the natural order of the unsigned 64-bit value. *)
Definition compareTo (a b : Z) : Z :=
  if a <? b then -1 else if a =? b then 0 else 1.

(** Modelled from the spec: the search loop shared by
    [S2CellId.binarySearch] and [S2CellId.indexedBinarySearch] is not under
    src/; on the sorted sequence it finds the insertion point of the key,
    the first index from [low] on whose entry is not below the key (the
    length when there is none). *)
Fixpoint insertionPoint (ids : list Z) (key : Z) (low : nat) : nat :=
  match ids with
  | [] => 0%nat
  | c :: rest =>
      match low with
      | S low' => S (insertionPoint rest key low')
      | O => if c <? key then S (insertionPoint rest key O) else O
      end
  end.

(** Modelled from the spec: [S2CellId.binarySearch] is not under src/; a
    non-negative result is the index of an entry equal to the key, a
    negative one encodes the insertion point [p] as [-(p + 1)], which the
    callers decode with [-pos - 1]. *)
Definition binarySearch (ids : list Z) (key : Z) : Z :=
  let p := insertionPoint ids key 0 in
  match nth_error ids p with
  | Some c => if c =? key then Z.of_nat p else - (Z.of_nat p + 1)
  | None => - (Z.of_nat p + 1)
  end.

(** Modelled from the spec: [S2CellId.indexedBinarySearch] is not under
    src/; the first entry from [low] on that is not below the key. *)
Definition indexedBinarySearch (ids : list Z) (key : Z) (low : Z) : Z :=
  Z.of_nat (insertionPoint ids key (Z.to_nat low)).

End S2CellId.

(** ** Cell unions *)

Module S2CellUnion.

Import S2CellId.

(** The outcome of an operation that reads array cells without a guard: a
    read outside the array yields [undefined], and calling a method on it
    throws. *)
Inductive outcome (A : Type) : Type :=
| Ok (a : A)
| TypeError
| OutOfFuel.

Arguments Ok {A} a.
Arguments TypeError {A}.
Arguments OutOfFuel {A}.

Definition bind {A B : Type} (m : outcome A) (k : A -> outcome B) : outcome B :=
  match m with
  | Ok a => k a
  | TypeError => TypeError
  | OutOfFuel => OutOfFuel
  end.

Notation "x <- m ;; k" := (bind m (fun x => k))
  (at level 61, m at next level, right associativity).

Definition size (cellIds : list Z) : Z := Z.of_nat (length cellIds).

(** [this.cellIds[i]] where the source guards the index by a length test. *)
Definition at_ (cellIds : list Z) (i : Z) : Z := nth (Z.to_nat i) cellIds 0.

Notation "l .[ i ]" := (at_ l i) (at level 1, format "l .[ i ]").

(** [cellId(i)]: the entry, or [undefined] outside the array; using the
    result then throws. *)
Definition cellId (cellIds : list Z) (i : Z) : outcome Z :=
  if i <? 0 then TypeError
  else match nth_error cellIds (Z.to_nat i) with
       | Some id => Ok id
       | None => TypeError
       end.

(** *** normalize *)

(** [this.cellIds.sort((a, b) => a.compareTo(b))]: the array in ascending
    order of the comparator. *)
Fixpoint insertSorted (a : Z) (l : list Z) : list Z :=
  match l with
  | [] => [a]
  | b :: rest =>
      if compareTo a b <=? 0 then a :: l else b :: insertSorted a rest
  end.

Fixpoint sort (l : list Z) : list Z :=
  match l with
  | [] => []
  | a :: rest => insertSorted a (sort rest)
  end.

(** [output.splice(output.length - 1, 1)] *)
Definition pop (output : list Z) : list Z := removelast output.

(** The loop "discard any previous cells contained by this cell".  Every
    turn pops an entry, so the length of the output is fuel enough. *)
Fixpoint discardContained (fuel : nat) (id : Z) (output : list Z) : list Z :=
  match fuel with
  | O => output
  | S fuel' =>
      if negb (size output =? 0) && S2CellId.contains id (output.[size output - 1])
      then discardContained fuel' id (pop output)
      else output
  end.

(** The loop "check whether the last 3 elements of output plus id can be
    collapsed into a single parent cell"; it yields the output and the
    candidate that is pushed after it.  Every turn removes three entries,
    so the length of the output is fuel enough. *)
Fixpoint collapse (fuel : nat) (output : list Z) (id : Z) : list Z * Z :=
  match fuel with
  | O => (output, id)
  | S fuel' =>
      if 3 <=? size output then
        let sz := size output in
        if negb (Long.and (Long.and (output.[sz - 3]) (output.[sz - 2])) (output.[sz - 1]) =? id)
        then (output, id)
        else
          let mask := Long.shiftLeft (lowestOnBit id) 1 in
          let mask := Long.not (Long.add mask (Long.shiftLeft mask 1)) in
          let idMasked := Long.and id mask in
          if negb (Long.and (output.[sz - 3]) mask =? idMasked)
             || negb (Long.and (output.[sz - 2]) mask =? idMasked)
             || negb (Long.and (output.[sz - 1]) mask =? idMasked)
             || isFace id
          then (output, id)
          else collapse fuel' (firstn (Z.to_nat (sz - 3)) output) (parent id)
      else (output, id)
  end.

(** The body of [this.cellIds.forEach(id => ...)]. *)
Definition normalizeStep (output : list Z) (id : Z) : list Z :=
  let sz := size output in
  if negb (size output =? 0) && S2CellId.contains (output.[sz - 1]) id then output
  else
    let output := discardContained (length output) id output in
    let '(output, id) := collapse (length output) output id in
    output ++ [id].

(** [normalize()] on the state [cellIds]: the returned flag and the array
    the union holds afterwards.  The sort is in place, so the array is the
    sorted one when the output is not shorter. *)
Definition normalize (cellIds : list Z) : bool * list Z :=
  let sorted := sort cellIds in
  let output := fold_left normalizeStep sorted [] in
  if size output <? size sorted then (true, output) else (false, sorted).

(** [initSwap]: [initRawSwap] then [normalize]. *)
Definition initSwap (cellIds : list Z) : list Z := snd (normalize cellIds).

(** *** contains, intersects and their union forms *)

Definition contains (cellIds : list Z) (id : Z) : bool :=
  let pos := binarySearch cellIds id in
  let pos := if pos <? 0 then - pos - 1 else pos in
  if (pos <? size cellIds) && (rangeMin (cellIds.[pos]) <=? id) then true
  else negb (pos =? 0) && (id <=? rangeMax (cellIds.[pos - 1])).

Definition intersects (cellIds : list Z) (id : Z) : bool :=
  let pos := binarySearch cellIds id in
  let pos := if pos <? 0 then - pos - 1 else pos in
  if (pos <? size cellIds) && (rangeMin (cellIds.[pos]) <=? rangeMax id) then true
  else negb (pos =? 0) && (rangeMin id <=? rangeMax (cellIds.[pos - 1])).

(** The loops of [containsUnion] and [intersectsUnion] walk [that.cellIds]
    from index 0 and return false at the first entry that fails. *)
Fixpoint containsUnion (cellIds that : list Z) : bool :=
  match that with
  | [] => true
  | id :: rest =>
      if negb (contains cellIds id) then false else containsUnion cellIds rest
  end.

Fixpoint intersectsUnion (cellIds that : list Z) : bool :=
  match that with
  | [] => true
  | id :: rest =>
      if negb (intersects cellIds id) then false else intersectsUnion cellIds rest
  end.

(** *** getIntersectionUU *)

(** The [while] loop on the cursors [i] and [j]; [out] is [this.cellIds]. *)
Fixpoint intersectionLoop (fuel : nat) (x y : list Z) (i j : Z) (out : list Z)
  : outcome (list Z) :=
  match fuel with
  | O => OutOfFuel
  | S fuel' =>
      if (i <? size x) && (j <? size y) then
        xi <- cellId x i ;;
        yj <- cellId y j ;;
        let imin := rangeMin xi in
        let jmin := rangeMin yj in
        if jmin <? imin then
          if xi <=? rangeMax yj then
            intersectionLoop fuel' x y (i + 1) j (out ++ [xi])
          else
            let j := indexedBinarySearch y imin (j + 1) in
            yp <- cellId y (j - 1) ;;
            if xi <=? rangeMax yp
            then intersectionLoop fuel' x y i (j - 1) out
            else intersectionLoop fuel' x y i j out
        else if imin <? jmin then
          if yj <=? rangeMax xi then
            intersectionLoop fuel' x y i (j + 1) (out ++ [yj])
          else
            let i := indexedBinarySearch x jmin (i + 1) in
            xp <- cellId x (i - 1) ;;
            if yj <=? rangeMax xp
            then intersectionLoop fuel' x y (i - 1) j out
            else intersectionLoop fuel' x y i j out
        else
          if xi <? yj
          then intersectionLoop fuel' x y (i + 1) j (out ++ [xi])
          else intersectionLoop fuel' x y i (j + 1) (out ++ [yj])
      else Ok out
  end.

(** Every turn of the loop moves a cursor forward, so the two lengths bound
    the number of turns. *)
Definition getIntersectionUU (x y : list Z) : outcome (list Z) :=
  intersectionLoop (length x + length y + 1) x y 0 0 [].

(** *** expand *)

Section Expand.

(** [S2CellId.getAllNeighbors(level)], the adjacency enumeration of the
    collaborator, is taken as given. *)
Variable getAllNeighbors : Z -> Z -> list Z.

(** The inner loop "skip over any cells contained by this one"; it yields
    the new value of [i]. *)
Fixpoint skipContained (fuel : nat) (cellIds : list Z) (id : Z) (i : Z) : outcome Z :=
  match fuel with
  | O => OutOfFuel
  | S fuel' =>
      if 0 <? i then
        prev <- cellId cellIds (i - 1) ;;
        if S2CellId.contains id prev
        then skipContained fuel' cellIds id (i - 1)
        else Ok i
      else Ok i
  end.

(** The [do ... while (--i >= 0)] loop. *)
Fixpoint expandLoop (fuel : nat) (cellIds : list Z) (level levelLsb : Z)
  (i : Z) (output : list Z) : outcome (list Z) :=
  match fuel with
  | O => OutOfFuel
  | S fuel' =>
      id <- cellId cellIds i ;;
      st <-
        (if lowestOnBit id <? levelLsb then
           let id := parentL id level in
           i <- skipContained (length cellIds) cellIds id i ;;
           Ok (id, i)
         else Ok (id, i)) ;;
      let '(id, i) := st in
      let output := output ++ [id] in
      let output := output ++ getAllNeighbors id level in
      let i := i - 1 in
      if 0 <=? i then expandLoop fuel' cellIds level levelLsb i output
      else Ok output
  end.

(** The array handed to [initSwap]. *)
Definition expandOutput (cellIds : list Z) (level : Z) : outcome (list Z) :=
  let levelLsb := lowestOnBitForLevel level in
  let i := size cellIds - 1 in
  expandLoop (length cellIds + 1) cellIds level levelLsb i [].

(** [expand(level)] on the state [cellIds]: the array the union holds
    afterwards. *)
Definition expand (cellIds : list Z) (level : Z) : outcome (list Z) :=
  output <- expandOutput cellIds level ;;
  Ok (initSwap output).

End Expand.

(** *** getUnion *)

(** [getUnion(x, y)] on a receiver distinct from both: the array it holds
    afterwards. *)
Definition getUnion (x y : list Z) : list Z :=
  snd (normalize (x ++ y)).

(** *** getIntersection with a cell *)

(** The loop [while (pos < size && x.cellIds[pos].lessOrEquals(idmax))]:
    [rest] is the array from [pos] on, and the entries are pushed in turn
    while they do not exceed [idmax]. *)
Fixpoint takeUpTo (idmax : Z) (rest : list Z) : list Z :=
  match rest with
  | [] => []
  | c :: rest' => if c <=? idmax then c :: takeUpTo idmax rest' else []
  end.

Definition getIntersection (x : list Z) (id : Z) : list Z :=
  if contains x id then [id]
  else
    let pos := binarySearch x (rangeMin id) in
    let pos := if pos <? 0 then - pos - 1 else pos in
    let idmax := rangeMax id in
    takeUpTo idmax (skipn (Z.to_nat pos) x).

(** *** denormalize *)


(** The level an entry is brought to; [%] is the remainder of JavaScript,
    with the sign of the dividend. *)
Definition denormalizeLevel (minLevel levelMod level : Z) : Z :=
  let newLevel := Z.max minLevel level in
  if 1 <? levelMod then
    let newLevel := newLevel + Z.rem (MAX_LEVEL - (newLevel - minLevel)) levelMod in
    Z.min MAX_LEVEL newLevel
  else newLevel.


(** *** expandA *)

Section ExpandA.

Variable getAllNeighbors : Z -> Z -> list Z.

(** [S2Projections.MIN_WIDTH.getMaxLevel(minRadius.radians)] and the test
    [minRadius.radians.gt(S2Projections.MIN_WIDTH.getValue(0))] belong to
    the projection utility; their results for the given radius are taken as
    given. *)
Variable radiusLevel : Z.

Variable widerThanFace : bool.

(** The loop that finds the coarsest level among the entries. *)
Definition coarsestLevel (cellIds : list Z) : Z :=
  fold_left (fun minLevel id => Z.min minLevel (S2CellId.level id)) cellIds MAX_LEVEL.

(** [expandA(minRadius, maxLevelDiff)] on the state [cellIds]. *)
Definition expandA (cellIds : list Z) (maxLevelDiff : Z) : outcome (list Z) :=
  let minLevel := coarsestLevel cellIds in
  cellIds' <-
    (if (radiusLevel =? 0) && widerThanFace
     then expand getAllNeighbors cellIds 0
     else Ok cellIds) ;;
  expand getAllNeighbors cellIds' (Z.min (minLevel + maxLevelDiff) radiusLevel).

End ExpandA.

(** *** leafCellsCovered *)

(** The body of the [forEach]; [invertedLevel << 1] is a 32-bit shift of a
    small number. *)
Definition addLeaves (numLeaves id : Z) : Z :=
  let invertedLevel := MAX_LEVEL - level id in
  Long.add numLeaves (Long.shiftLeft 1 (Z.shiftl invertedLevel 1)).

(** The returned [Long], as its 64-bit pattern. *)
Definition leafCellsCovered (cellIds : list Z) : Z :=
  fold_left addLeaves cellIds 0.

End S2CellUnion.

(** ** The data model: normalized unions *)

(** The values that identify a cell: the non-zero 64-bit values.  Such a
    value is an odd multiple [(2m+1) * 2^k] of its lowest set bit, and its
    leaves fill the block between [2m * 2^k] and [(2m+2) * 2^k]. *)
Definition cell (x : Z) : Prop := 0 < x < 2 ^ 64.

(** A valid identifier in the sense of [S2CellId.isValid]. *)
Definition validId (x : Z) : Prop := u64 x /\ S2CellId.isValid x = true.

Module Normal.

Import S2CellId.

(** Invariant 1: strictly ascending identifier values. *)
Fixpoint isSorted (l : list Z) : bool :=
  match l with
  | a :: (b :: _) as rest => (a <? b) && isSorted rest
  | _ => true
  end.

(** Invariant 2: no identifier is contained by another one. *)
Definition noContained (l : list Z) : bool :=
  forallb (fun a => forallb (fun b => (a =? b) || negb (contains a b)) l) l.

(** [a], [b], [c], [d] are the four children of one parent, in order. *)
Definition siblings (a b c d : Z) : bool :=
  negb (isFace a)
  && (a =? child (parent a) 0) && (b =? child (parent a) 1)
  && (c =? child (parent a) 2) && (d =? child (parent a) 3).

(** Invariant 3: no four consecutive entries are the four children of a
    common parent. *)
Fixpoint noSiblingGroup (l : list Z) : bool :=
  match l with
  | a :: rest =>
      match rest with
      | b :: c :: d :: _ => negb (siblings a b c d) && noSiblingGroup rest
      | _ => true
      end
  | [] => true
  end.

Definition isNormalized (l : list Z) : bool :=
  isSorted l && noContained l && noSiblingGroup l.

Definition normalized (l : list Z) : Prop := isNormalized l = true.

(** The cover of the whole sphere: the six face cells. *)
Definition sixFaces : list Z := map fromFace [0; 1; 2; 3; 4; 5].

(** The number of leaves under the entries, as an unbounded integer. *)
Definition leafSum (l : list Z) : Z :=
  fold_right (fun id s => 4 ^ (MAX_LEVEL - level id) + s) 0 l.

(** The region of a union: the identifiers covered by one of its cells. *)
Definition covers (l : list Z) (id : Z) : Prop :=
  exists c, In c l /\ contains c id = true.

End Normal.

(** ** expand, as the specification words it *)

Module ExpandSpec.

Import S2CellId.

Section Words.

Variable getAllNeighbors : Z -> Z -> list Z.

Variable level : Z.


End Words.





End ExpandSpec.

(** ** Invariants of the loops *)

Module Inv.

(** No entry of the list contains another one. *)
Definition antichain (l : list Z) : Prop :=
  forall a b, In a l -> In b l -> a <> b -> S2CellId.contains a b = false.

(** The state of the [forEach] of [normalize]: the output is strictly
    ascending, the entries still to come are ascending and none of them is
    below an entry of the output. *)
Definition stepPre (done rest : list Z) : Prop :=
  StronglySorted Z.lt done /\ StronglySorted Z.le rest
  /\ (forall a b, In a done -> In b rest -> a <= b)
  /\ Forall u64 done /\ Forall u64 rest.

(** A list of cells in normal order: strictly ascending and free of
    containment. *)
Definition normalCells (l : list Z) : Prop :=
  StronglySorted Z.lt l /\ antichain l /\ Forall cell l.

(** The cells of the intersection of two unions: the cells of one union
    that the other union covers. *)
Definition inter (x y : list Z) (c : Z) : Prop :=
  (In c x /\ Normal.covers y c) \/ (In c y /\ Normal.covers x c).

(** The state of the loop of [getIntersectionUU] with the cursors at [i]
    and [j]: the output is strictly ascending and made of entries before
    the cursors, its entries belong to the intersection, and every pair of
    nested entries with one of them before its cursor has its inner cell in
    the output. *)
Definition loopInv (x y : list Z) (i j : nat) (out : list Z) : Prop :=
  (i <= length x)%nat /\ (j <= length y)%nat
  /\ StronglySorted Z.lt out
  /\ (forall o, In o out ->
                (exists i', (i' < i)%nat /\ o = nth i' x 0)
                \/ (exists j', (j' < j)%nat /\ o = nth j' y 0))
  /\ (forall o, In o out -> inter x y o)
  /\ (forall i' j', (i' < length x)%nat -> (j' < length y)%nat ->
                    (i' < i \/ j' < j)%nat ->
                    S2CellId.contains (nth j' y 0) (nth i' x 0) = true ->
                    In (nth i' x 0) out)
  /\ (forall i' j', (i' < length x)%nat -> (j' < length y)%nat ->
                    (i' < i \/ j' < j)%nat ->
                    S2CellId.contains (nth i' x 0) (nth j' y 0) = true ->
                    In (nth j' y 0) out).

End Inv.

(** ** The cells that expand pushes *)

Module Region.

Import S2CellId.

(** The cell that a turn of the loop of [expand] pushes for the entry [c]:
    its ancestor at [level] when the entry is finer than [level], the entry
    itself otherwise. *)
Definition atLevel (level c : Z) : Z :=
  if lowestOnBit c <? lowestOnBitForLevel level then parentL c level else c.

(** What the turn pushes: that cell, then its neighbours. *)
Definition pushed (getAllNeighbors : Z -> Z -> list Z) (level c : Z) : list Z :=
  atLevel level c :: getAllNeighbors (atLevel level c) level.

End Region.

(** ** The shape of a cell identifier *)

Module CellFacts.

Import S2CellId.

Lemma land_opp_odd (m : Z) : Z.land (2 * m + 1) (- (2 * m + 1)) = 1.
Proof.
  apply Z.bits_inj'. intros n Hn.
  rewrite Z.land_spec.
  destruct (Z.eq_dec n 0) as [-> | Hn0].
  - rewrite Z.bits_opp by lia.
    replace (Z.pred (2 * m + 1)) with (2 * m) by lia.
    rewrite Z.testbit_odd_0, Z.testbit_even_0. reflexivity.
  - assert (En : n = Z.succ (Z.pred n)) by lia.
    assert (Hp : 0 <= Z.pred n) by lia.
    revert En Hp. generalize (Z.pred n). intros p -> Hp.
    rewrite Z.bits_opp by lia.
    replace (Z.pred (2 * m + 1)) with (2 * m) by lia.
    rewrite Z.testbit_odd_succ, Z.testbit_even_succ by lia.
    pose proof (Z.testbit_odd_succ 0 p Hp) as H1. simpl in H1.
    rewrite H1, Z.testbit_0_l.
    destruct (Z.testbit m p); reflexivity.
Qed.

Lemma land_opp_pow2 (m k : Z) :
  0 <= k -> Z.land ((2 * m + 1) * 2 ^ k) (- ((2 * m + 1) * 2 ^ k)) = 2 ^ k.
Proof.
  intros Hk.
  replace (- ((2 * m + 1) * 2 ^ k)) with ((- (2 * m + 1)) * 2 ^ k) by lia.
  rewrite <- !Z.shiftl_mul_pow2 by lia.
  rewrite <- Z.shiftl_land, land_opp_odd.
  rewrite Z.shiftl_mul_pow2 by lia. lia.
Qed.

Lemma odd_part (x : Z) :
  0 < x -> exists k m, 0 <= k /\ 0 <= m /\ x = (2 * m + 1) * 2 ^ k.
Proof.
  destruct x as [| p | p]; try lia. intros _.
  induction p as [p _ | p IH | ].
  - exists 0, (Z.pos p). repeat split; lia.
  - destruct IH as (k & m & Hk & Hm & E).
    exists (k + 1), m. repeat split; try lia.
    rewrite Z.pow_add_r by lia. lia.
  - exists 0, 0. repeat split; lia.
Qed.

Lemma lowestOnBit_land (x : Z) : u64 x -> lowestOnBit x = Z.land x (- x).
Proof.
  intros Hx. unfold lowestOnBit, Long.and, Long.negate, Long.wrap.
  apply Z.bits_inj'. intros n Hn. rewrite !Z.land_spec.
  destruct (Z.ltb_spec n 64).
  - rewrite Z.mod_pow2_bits_low by lia. reflexivity.
  - rewrite Z.mod_pow2_bits_high by lia.
    rewrite <- (Z.mod_small x (2 ^ 64)) by exact Hx.
    rewrite Z.mod_pow2_bits_high by lia. reflexivity.
Qed.

Lemma cell_shape (x : Z) :
  0 < x < 2 ^ 64 ->
  exists k m, 0 <= k < 64 /\ 0 <= m /\ x = (2 * m + 1) * 2 ^ k
              /\ (2 * m + 2) * 2 ^ k <= 2 ^ 64 /\ lowestOnBit x = 2 ^ k.
Proof.
  intros Hx.
  destruct (odd_part x) as (k & m & Hk & Hm & E); [lia|].
  assert (Hk64 : k < 64).
  { destruct (Z_lt_le_dec k 64) as [|Hge]; [assumption|exfalso].
    assert (2 ^ 64 <= 2 ^ k) by (apply Z.pow_le_mono_r; lia). nia. }
  exists k, m. repeat split; try lia.
  - assert (E64 : 2 ^ 64 = 2 ^ k * 2 ^ (64 - k)).
    { rewrite <- Z.pow_add_r by lia. f_equal. lia. }
    assert (E1 : 2 ^ (64 - k) = 2 * 2 ^ (64 - k - 1)).
    { replace (64 - k) with (Z.succ (64 - k - 1)) at 1 by lia.
      apply Z.pow_succ_r. lia. }
    assert (0 < 2 ^ k) by (apply Z.pow_pos_nonneg; lia).
    assert (0 < 2 ^ (64 - k - 1)) by (apply Z.pow_pos_nonneg; lia).
    nia.
  - rewrite lowestOnBit_land by (unfold u64; lia).
    rewrite E. apply land_opp_pow2. lia.
Qed.

Lemma cell_ranges (x : Z) :
  cell x ->
  exists k m, 0 <= k < 64 /\ 0 <= m /\ x = (2 * m + 1) * 2 ^ k
              /\ (2 * m + 2) * 2 ^ k <= 2 ^ 64
              /\ lowestOnBit x = 2 ^ k
              /\ rangeMin x = 2 * m * 2 ^ k + 1
              /\ rangeMax x = (2 * m + 2) * 2 ^ k - 1.
Proof.
  intros Hx. destruct (cell_shape x Hx) as (k & m & Hk & Hm & E & Hb & Hl).
  exists k, m.
  assert (0 < 2 ^ k) by (apply Z.pow_pos_nonneg; lia).
  repeat split; try assumption; try lia.
  - unfold rangeMin, Long.wrap. rewrite Hl, Z.mod_small; nia.
  - unfold rangeMax, Long.wrap. rewrite Hl, Z.mod_small; nia.
Qed.

Lemma range_bounds (x : Z) :
  cell x -> 0 < rangeMin x <= x /\ x <= rangeMax x < 2 ^ 64.
Proof.
  intros Hx. destruct (cell_ranges x Hx) as (k & m & Hk & Hm & E & Hb & _ & -> & ->).
  assert (0 < 2 ^ k) by (apply Z.pow_pos_nonneg; lia). nia.
Qed.

Lemma pow2_split (j k : Z) : 0 <= j <= k -> 2 ^ k = 2 ^ (k - j) * 2 ^ j.
Proof.
  intros H. rewrite <- Z.pow_add_r by lia. f_equal. lia.
Qed.

(** Blocks of cells are nested or disjoint. *)
Lemma blocks_laminar (x y : Z) :
  cell x -> cell y -> lowestOnBit y <= lowestOnBit x ->
  (rangeMin x <= rangeMin y /\ rangeMax y <= rangeMax x)
  \/ rangeMax y < rangeMin x \/ rangeMax x < rangeMin y.
Proof.
  intros Hx Hy Hl.
  destruct (cell_ranges x Hx) as (k & m & Hk & Hm & Ex & _ & Lx & -> & ->).
  destruct (cell_ranges y Hy) as (j & n & Hj & Hn & Ey & _ & Ly & -> & ->).
  rewrite Lx, Ly in Hl.
  assert (Hjk : j <= k).
  { destruct (Z_le_gt_dec j k); [assumption|].
    assert (2 ^ k < 2 ^ j) by (apply Z.pow_lt_mono_r; lia). lia. }
  rewrite (pow2_split j k) by lia.
  assert (Hd : 0 < 2 ^ j) by (apply Z.pow_pos_nonneg; lia).
  assert (Ht : 0 < 2 ^ (k - j)) by (apply Z.pow_pos_nonneg; lia).
  set (d := 2 ^ j) in *. set (t := 2 ^ (k - j)) in *.
  destruct (Z_le_gt_dec (n + 1) (m * t)) as [H1 | H1].
  - right; left.
    assert ((n + 1) * d <= m * t * d) by (apply Z.mul_le_mono_nonneg_r; lia). lia.
  - destruct (Z_le_gt_dec ((m + 1) * t) n) as [H2 | H2].
    + right; right.
      assert ((m + 1) * t * d <= n * d) by (apply Z.mul_le_mono_nonneg_r; lia). lia.
    + left.
      assert (m * t * d <= n * d) by (apply Z.mul_le_mono_nonneg_r; lia).
      assert ((n + 1) * d <= (m + 1) * t * d) by (apply Z.mul_le_mono_nonneg_r; lia).
      lia.
Qed.

(** An identifier inside the range of a cell is not coarser than the cell. *)
Lemma in_range_lowestOnBit (x y : Z) :
  cell x -> cell y -> rangeMin x <= y <= rangeMax x ->
  lowestOnBit y <= lowestOnBit x.
Proof.
  intros Hx Hy Hr.
  destruct (cell_ranges x Hx) as (k & m & Hk & Hm & Ex & _ & Lx & Rx1 & Rx2).
  destruct (cell_ranges y Hy) as (j & n & Hj & Hn & Ey & _ & Ly & _ & _).
  rewrite Lx, Ly. rewrite Rx1, Rx2 in Hr.
  destruct (Z_le_gt_dec j k) as [Hjk | Hjk].
  - apply Z.pow_le_mono_r; lia.
  - exfalso.
    assert (E : 2 ^ j = 2 ^ (j - (k + 1)) * 2 ^ (k + 1)) by (apply pow2_split; lia).
    assert (E1 : 2 ^ (k + 1) = 2 * 2 ^ k) by (rewrite Z.pow_add_r by lia; lia).
    assert (Hd : 0 < 2 ^ k) by (apply Z.pow_pos_nonneg; lia).
    assert (Ht : 0 < 2 ^ (j - (k + 1))) by (apply Z.pow_pos_nonneg; lia).
    set (d := 2 ^ k) in *. set (t := 2 ^ (j - (k + 1))) in *.
    set (q := (2 * n + 1) * t).
    assert (Ey' : y = q * (2 * d)) by (unfold q; rewrite Ey, E, E1; ring).
    assert (m < q) by nia.
    assert (q < m + 1) by nia.
    lia.
Qed.

Lemma in_range_contains (x y : Z) :
  cell x -> cell y -> rangeMin x <= y <= rangeMax x -> contains x y = true.
Proof.
  intros Hx Hy Hr.
  pose proof (in_range_lowestOnBit x y Hx Hy Hr) as Hl.
  pose proof (range_bounds y Hy) as Hb.
  unfold contains. apply andb_true_iff. rewrite !Z.leb_le.
  destruct (blocks_laminar x y Hx Hy Hl) as [H | [H | H]]; lia.
Qed.

Lemma contains_in_range (x y : Z) :
  cell y -> contains x y = true -> rangeMin x <= y <= rangeMax x.
Proof.
  intros Hy Hc. pose proof (range_bounds y Hy).
  unfold contains in Hc. apply andb_true_iff in Hc. rewrite !Z.leb_le in Hc. lia.
Qed.

Lemma contains_refl (x : Z) : contains x x = true.
Proof.
  unfold contains. apply andb_true_iff. rewrite !Z.leb_le. lia.
Qed.

Lemma contains_trans (x y z : Z) :
  contains x y = true -> contains y z = true -> contains x z = true.
Proof.
  unfold contains. rewrite !andb_true_iff, !Z.leb_le. lia.
Qed.

(** Two cells are nested or their ranges are apart. *)
Lemma laminar (x y : Z) :
  cell x -> cell y ->
  contains x y = true \/ contains y x = true
  \/ rangeMax x < rangeMin y \/ rangeMax y < rangeMin x.
Proof.
  intros Hx Hy. unfold contains. rewrite !andb_true_iff, !Z.leb_le.
  destruct (Z_le_gt_dec (lowestOnBit y) (lowestOnBit x)) as [H | H].
  - destruct (blocks_laminar x y Hx Hy H) as [? | [? | ?]]; auto.
  - destruct (blocks_laminar y x Hy Hx) as [? | [? | ?]]; auto. lia.
Qed.

End CellFacts.

(** ** Lists as arrays *)

Module ArrayFacts.

Import S2CellUnion.

Lemma snoc_cases (o : list Z) : o = [] \/ exists p t, o = p ++ [t].
Proof.
  destruct o as [| a o]; [left; reflexivity | right].
  destruct (exists_last (l := a :: o)) as (p & t & E); [discriminate|].
  exists p, t. exact E.
Qed.

Lemma size_snoc (p : list Z) (t : Z) : size (p ++ [t]) = size p + 1.
Proof.
  unfold size. rewrite length_app. simpl. lia.
Qed.

Lemma size_nonneg (o : list Z) : 0 <= size o.
Proof.
  unfold size. lia.
Qed.

Lemma at_last (p : list Z) (t : Z) : (p ++ [t]).[size (p ++ [t]) - 1] = t.
Proof.
  rewrite size_snoc. unfold at_, size.
  replace (Z.to_nat (Z.of_nat (length p) + 1 - 1)) with (length p) by lia.
  apply nth_middle.
Qed.

Lemma at_In (o : list Z) (i : Z) : 0 <= i < size o -> In (o.[i]) o.
Proof.
  unfold size, at_. intros H. apply nth_In. lia.
Qed.

Lemma pop_snoc (p : list Z) (t : Z) : pop (p ++ [t]) = p.
Proof.
  apply removelast_last.
Qed.

Lemma ss_app {R : Z -> Z -> Prop} (l1 l2 : list Z) :
  StronglySorted R (l1 ++ l2) <->
  StronglySorted R l1 /\ StronglySorted R l2
  /\ (forall a b, In a l1 -> In b l2 -> R a b).
Proof.
  induction l1 as [| x l1 IH]; simpl.
  - split.
    + intros H. repeat split; [constructor | exact H | contradiction].
    + intros (_ & H & _). exact H.
  - split.
    + intros H. apply StronglySorted_inv in H. destruct H as [H1 H2].
      apply IH in H1. destruct H1 as (S1 & S2 & S3).
      rewrite Forall_app in H2. destruct H2 as [F1 F2].
      repeat split; [constructor; assumption | assumption |].
      intros a b [-> | Ha] Hb.
      * rewrite Forall_forall in F2. auto.
      * auto.
    + intros (S1 & S2 & S3).
      apply StronglySorted_inv in S1. destruct S1 as [S1 F1].
      constructor.
      * apply IH. repeat split; auto.
      * apply Forall_app. split; [assumption|].
        apply Forall_forall. intros b Hb. apply S3; auto.
Qed.

Lemma ss_snoc {R : Z -> Z -> Prop} (p : list Z) (t : Z) :
  StronglySorted R (p ++ [t]) <->
  StronglySorted R p /\ (forall a, In a p -> R a t).
Proof.
  rewrite ss_app. split.
  - intros (S1 & _ & S3). split; [assumption|].
    intros a Ha. apply S3; simpl; auto.
  - intros (S1 & S3). repeat split; [assumption | repeat constructor |].
    intros a b Ha [<- | []]. auto.
Qed.

End ArrayFacts.

(** ** Sorting *)

Module SortFacts.

Import S2CellId S2CellUnion.

Lemma compareTo_le (a b : Z) : (compareTo a b <=? 0) = (a <=? b).
Proof.
  unfold compareTo.
  destruct (Z.ltb_spec a b), (Z.eqb_spec a b), (Z.leb_spec a b); simpl; lia.
Qed.

Lemma insertSorted_perm (a : Z) (l : list Z) :
  Permutation (a :: l) (insertSorted a l).
Proof.
  induction l as [| b l IH]; simpl; [reflexivity|].
  destruct (compareTo a b <=? 0); [reflexivity|].
  rewrite perm_swap. constructor. exact IH.
Qed.

Lemma sort_perm (l : list Z) : Permutation l (sort l).
Proof.
  induction l as [| a l IH]; simpl; [constructor|].
  rewrite <- insertSorted_perm. constructor. exact IH.
Qed.

Lemma sort_length (l : list Z) : length (sort l) = length l.
Proof.
  symmetry. apply Permutation_length, sort_perm.
Qed.

Lemma insertSorted_sorted (a : Z) (l : list Z) :
  StronglySorted Z.le l -> StronglySorted Z.le (insertSorted a l).
Proof.
  induction 1 as [| b l Hs IH Hb]; simpl.
  - repeat constructor.
  - rewrite compareTo_le. destruct (Z.leb_spec a b) as [Hab | Hab].
    + constructor; [constructor; assumption|].
      constructor; [assumption|].
      eapply Forall_impl; [|exact Hb]. simpl. intros; lia.
    + constructor; [assumption|].
      eapply Permutation_Forall; [apply insertSorted_perm|].
      constructor; [lia | assumption].
Qed.

Lemma sort_sorted (l : list Z) : StronglySorted Z.le (sort l).
Proof.
  induction l as [| a l IH]; simpl; [constructor | apply insertSorted_sorted, IH].
Qed.

Lemma sort_of_sorted (l : list Z) : StronglySorted Z.le l -> sort l = l.
Proof.
  induction 1 as [| a l Hs IH Ha]; simpl; [reflexivity|].
  rewrite IH. destruct l as [| b l]; simpl; [reflexivity|].
  rewrite compareTo_le. inversion Ha; subst.
  destruct (Z.leb_spec a b); [reflexivity | lia].
Qed.

Lemma lt_sorted_le (l : list Z) : StronglySorted Z.lt l -> StronglySorted Z.le l.
Proof.
  induction 1; constructor; [assumption|].
  eapply Forall_impl; [|eassumption]. simpl. intros; lia.
Qed.

End SortFacts.

(** ** One step of normalize *)

Module StepFacts.

Import S2CellId S2CellUnion ArrayFacts CellFacts.

Lemma land_le_l (a b : Z) : 0 <= a -> Z.land a b <= a.
Proof.
  intros Ha.
  pose proof (Z.add_lor_land (Z.ldiff a b) (Z.land a b)) as H.
  rewrite Z.lor_ldiff_and in H.
  replace (Z.land (Z.ldiff a b) (Z.land a b)) with 0 in H.
  - assert (0 <= Z.ldiff a b) by (apply Z.ldiff_nonneg; lia). lia.
  - symmetry. apply Z.bits_inj'. intros n Hn.
    rewrite !Z.land_spec, Z.ldiff_spec, Z.bits_0.
    destruct (Z.testbit a n), (Z.testbit b n); reflexivity.
Qed.

Lemma discard_nil (f : nat) (id : Z) : discardContained f id [] = [].
Proof.
  destruct f; reflexivity.
Qed.

Lemma discard_snoc (f : nat) (id : Z) (p : list Z) (t : Z) :
  discardContained (S f) id (p ++ [t]) =
  if S2CellId.contains id t then discardContained f id p else p ++ [t].
Proof.
  simpl. rewrite at_last, pop_snoc.
  replace (size (p ++ [t]) =? 0) with false.
  - reflexivity.
  - symmetry. apply Z.eqb_neq. rewrite size_snoc. pose proof (size_nonneg p). lia.
Qed.

(** The discarding loop removes the longest tail of entries that the
    candidate contains. *)
Lemma discard_spec (id : Z) (o : list Z) :
  forall f, (length o <= f)%nat ->
  exists keep drop,
    o = keep ++ drop /\ discardContained f id o = keep
    /\ Forall (fun t => S2CellId.contains id t = true) drop
    /\ (forall k t, keep = k ++ [t] -> S2CellId.contains id t = false).
Proof.
  induction o as [| t p IH] using rev_ind; intros f Hf.
  - exists [], []. rewrite discard_nil. repeat split; auto.
    intros k t E. destruct k; discriminate.
  - rewrite length_app in Hf. simpl in Hf.
    destruct f as [| f]; [lia|].
    rewrite discard_snoc. destruct (S2CellId.contains id t) eqn:Ec.
    + destruct (IH f) as (keep & drop & E & Ed & Hd & Hk); [lia|].
      exists keep, (drop ++ [t]). repeat split; auto.
      * rewrite E at 1. rewrite app_assoc. reflexivity.
      * apply Forall_app. split; [assumption | repeat constructor; assumption].
    + exists (p ++ [t]), []. rewrite app_nil_r. repeat split; auto.
      intros k t' E. apply app_inj_tail in E. destruct E as [_ <-]. exact Ec.
Qed.

(** The two inner loops stop by themselves before the fuel of the model
    runs out: each turn shortens the output, so more fuel than its length
    changes nothing. *)
Lemma discard_fuel (id : Z) (o : list Z) :
  forall f1 f2, (length o <= f1)%nat -> (length o <= f2)%nat ->
  discardContained f1 id o = discardContained f2 id o.
Proof.
  induction o as [| t p IH] using rev_ind; intros f1 f2 H1 H2.
  - rewrite !discard_nil. reflexivity.
  - rewrite length_app in H1, H2. simpl in H1, H2.
    destruct f1 as [| f1]; [lia|]. destruct f2 as [| f2]; [lia|].
    rewrite !discard_snoc. destruct (S2CellId.contains id t); [|reflexivity].
    apply IH; lia.
Qed.

Lemma collapse_fuel (f1 : nat) :
  forall f2 o id, (length o <= f1)%nat -> (length o <= f2)%nat ->
  collapse f1 o id = collapse f2 o id.
Proof.
  induction f1 as [| f1 IH]; intros f2 o id H1 H2.
  - destruct o; [|simpl in H1; lia]. destruct f2; reflexivity.
  - destruct f2 as [| f2].
    + destruct o; [reflexivity | simpl in H2; lia].
    + cbn [collapse].
      destruct (Z.leb_spec 3 (size o)) as [H3 | H3]; [|reflexivity].
      destruct (negb _); [reflexivity|].
      destruct (_ || _); [reflexivity|].
      unfold size in *.
      apply IH; rewrite length_firstn; lia.
Qed.

(** On a sorted output the cheap test of the collapsing loop never passes:
    the AND of three entries below the candidate is below the candidate. *)
Lemma collapse_none (f : nat) (o : list Z) (id : Z) :
  Forall (fun a => 0 <= a < id) o -> collapse f o id = (o, id).
Proof.
  intros Ho. destruct f as [| f]; [reflexivity|]. simpl.
  destruct (Z.leb_spec 3 (size o)) as [H3 | H3]; [|reflexivity].
  rewrite Forall_forall in Ho.
  assert (Ha : 0 <= o.[size o - 3] < id) by (apply Ho, at_In; lia).
  unfold Long.and at 1 2.
  pose proof (land_le_l (o.[size o - 3]) (o.[size o - 2]) (proj1 Ha)) as H1.
  assert (H0 : 0 <= Z.land (o.[size o - 3]) (o.[size o - 2])).
  { apply Z.land_nonneg. left. lia. }
  pose proof (land_le_l _ (o.[size o - 1]) H0) as H2.
  destruct (Z.eqb_spec (Z.land (Z.land o.[size o - 3] o.[size o - 2]) o.[size o - 1]) id);
    [lia | reflexivity].
Qed.

(** What a step does on a sorted output whose entries do not exceed the
    candidate. *)
Lemma normalizeStep_spec (o : list Z) (id : Z) :
  StronglySorted Z.lt o -> Forall (fun a => 0 <= a <= id) o ->
  normalizeStep o id =
  if negb (size o =? 0) && S2CellId.contains (o.[size o - 1]) id then o
  else discardContained (length o) id o ++ [id].
Proof.
  intros Hs Ho. unfold normalizeStep.
  destruct (negb (size o =? 0) && S2CellId.contains o.[size o - 1] id) eqn:Et; [reflexivity|].
  destruct (discard_spec id o (length o)) as (keep & drop & E & Ed & _ & _); [lia|].
  rewrite Ed.
  rewrite collapse_none; [reflexivity|].
  rewrite Forall_forall in *. intros a Ha.
  assert (Hao : In a o) by (rewrite E; apply in_or_app; auto).
  pose proof (Ho a Hao) as Hb. split; [lia|].
  destruct (Z.eq_dec a id) as [-> | Hne]; [exfalso | lia].
  destruct (snoc_cases o) as [-> | (p & t & ->)]; [contradiction|].
  rewrite at_last in Et.
  replace (size (p ++ [t]) =? 0) with false in Et
    by (symmetry; apply Z.eqb_neq; rewrite size_snoc; pose proof (size_nonneg p); lia).
  simpl in Et.
  apply ss_snoc in Hs. destruct Hs as [_ Hlt].
  apply in_app_or in Hao. destruct Hao as [Hp | [<- | []]].
  - specialize (Hlt id Hp).
    assert (0 <= t <= id) by (apply Ho, in_or_app; simpl; auto).
    lia.
  - rewrite contains_refl in Et. discriminate.
Qed.

End StepFacts.

(** ** The loop of normalize *)

Module NormalizeFacts.

Import S2CellId S2CellUnion ArrayFacts CellFacts SortFacts StepFacts Inv.

(** The two ways a step can go: the candidate is dropped because the top
    contains it, or the tail it contains is dropped and it is pushed. *)
Lemma step_cases (o : list Z) (id : Z) :
  StronglySorted Z.lt o -> Forall (fun a => 0 <= a <= id) o ->
  (normalizeStep o id = o
   /\ exists p t, o = p ++ [t] /\ S2CellId.contains t id = true)
  \/ (exists keep drop,
        o = keep ++ drop /\ normalizeStep o id = keep ++ [id]
        /\ Forall (fun t => S2CellId.contains id t = true) drop
        /\ (forall k t, keep = k ++ [t] -> S2CellId.contains id t = false)
        /\ Forall (fun a => a < id) o
        /\ (forall p t, o = p ++ [t] -> S2CellId.contains t id = false)).
Proof.
  intros Hs Ho. rewrite normalizeStep_spec by assumption.
  destruct (snoc_cases o) as [-> | (p & t & ->)].
  - right. exists [], []. simpl. repeat split; auto.
    + intros k t E. destruct k; discriminate.
    + intros p t E. destruct p; discriminate.
  - rewrite at_last.
    replace (size (p ++ [t]) =? 0) with false
      by (symmetry; apply Z.eqb_neq; rewrite size_snoc; pose proof (size_nonneg p); lia).
    simpl. destruct (S2CellId.contains t id) eqn:Et.
    + left. split; [reflexivity|]. exists p, t. auto.
    + right.
      destruct (discard_spec id (p ++ [t]) (length (p ++ [t])))
        as (keep & drop & E & Ed & Hd & Hk); [lia|].
      exists keep, drop. rewrite Ed. repeat split; auto.
      * apply ss_snoc in Hs. destruct Hs as [_ Hlt].
        rewrite Forall_forall in *. intros a Ha.
        assert (Ht : 0 <= t <= id) by (apply Ho, in_or_app; simpl; auto).
        assert (t <> id) by (intros ->; rewrite contains_refl in Et; discriminate).
        apply in_app_or in Ha. destruct Ha as [Hp | [<- | []]]; [|lia].
        specialize (Hlt a Hp). lia.
      * intros p' t' E'. apply app_inj_tail in E'. destruct E' as [_ <-]. exact Et.
Qed.

Lemma stepPre_bounds (done rest : list Z) (id : Z) :
  stepPre done (id :: rest) ->
  StronglySorted Z.lt done /\ Forall (fun a => 0 <= a <= id) done.
Proof.
  intros (S1 & S2 & H & U1 & U2). split; [assumption|].
  rewrite Forall_forall in *. intros a Ha.
  specialize (U1 a Ha). unfold u64 in U1.
  specialize (H a id Ha (or_introl eq_refl)). lia.
Qed.

Lemma stepPre_step (done rest : list Z) (id : Z) :
  stepPre done (id :: rest) -> stepPre (normalizeStep done id) rest.
Proof.
  intros Hpre. destruct (stepPre_bounds _ _ _ Hpre) as [Hs Hb].
  destruct Hpre as (S1 & S2 & H & U1 & U2).
  apply StronglySorted_inv in S2. destruct S2 as [S2 Hid].
  inversion U2 as [| ? ? Uid U2']; subst.
  rewrite Forall_forall in Hid.
  destruct (step_cases done id Hs Hb) as [[E _] | (keep & drop & E & En & _ & _ & Hlt & _)].
  - rewrite E. repeat split; auto.
    intros a b Ha Hb'. specialize (H a id Ha (or_introl eq_refl)).
    specialize (Hid b Hb'). lia.
  - rewrite En. subst done.
    apply ss_app in S1. destruct S1 as (S1 & _ & _).
    rewrite Forall_app in U1, Hlt. destruct U1 as [U1 _], Hlt as [Hlt _].
    rewrite Forall_forall in Hlt.
    repeat split; auto.
    + apply ss_snoc. split; auto.
    + intros a b Ha Hb'. apply in_app_or in Ha.
      specialize (Hid b Hb'). destruct Ha as [Ha | [<- | []]]; [|lia].
      specialize (Hlt a Ha). lia.
    + apply Forall_app. split; [assumption|].
      constructor; [assumption | constructor].
Qed.

Lemma stepPre_done (done : list Z) :
  stepPre done [] -> StronglySorted Z.lt done /\ Forall u64 done.
Proof.
  intros (S1 & _ & _ & U1 & _). auto.
Qed.

Lemma stepPre_start (l : list Z) : Forall u64 l -> stepPre [] (sort l).
Proof.
  intros Hl. repeat split.
  - constructor.
  - apply sort_sorted.
  - intros a b [].
  - constructor.
  - eapply Permutation_Forall; [apply sort_perm | exact Hl].
Qed.

(** The output of the loop is strictly ascending. *)
Lemma fold_sorted (rest : list Z) :
  forall done, stepPre done rest ->
  StronglySorted Z.lt (fold_left normalizeStep rest done)
  /\ Forall u64 (fold_left normalizeStep rest done).
Proof.
  induction rest as [| id rest IH]; intros done Hpre; simpl.
  - apply stepPre_done. exact Hpre.
  - apply IH, stepPre_step, Hpre.
Qed.

(** The output holds only entries of the input. *)
Lemma fold_incl (rest : list Z) :
  forall done, stepPre done rest ->
  incl (fold_left normalizeStep rest done) (done ++ rest).
Proof.
  induction rest as [| id rest IH]; intros done Hpre; simpl.
  - rewrite app_nil_r. apply incl_refl.
  - pose proof (IH _ (stepPre_step _ _ _ Hpre)) as Hi.
    destruct (stepPre_bounds _ _ _ Hpre) as [Hs Hb].
    intros a Ha. specialize (Hi a Ha). apply in_app_or in Hi.
    destruct (step_cases done id Hs Hb) as [[E _] | (keep & drop & E & En & _)].
    + rewrite E in Hi. apply in_or_app. simpl. tauto.
    + rewrite En in Hi. subst done. rewrite !in_app_iff in *. simpl in *.
      tauto.
Qed.

(** The output has at most one entry per input entry, and as many only
    when nothing was dropped. *)
Lemma fold_length (rest : list Z) :
  forall done, stepPre done rest ->
  (length (fold_left normalizeStep rest done) <= length done + length rest)%nat
  /\ (length (fold_left normalizeStep rest done) = (length done + length rest)%nat ->
      fold_left normalizeStep rest done = done ++ rest).
Proof.
  induction rest as [| id rest IH]; intros done Hpre; simpl.
  - rewrite app_nil_r. split; [lia | reflexivity].
  - destruct (IH _ (stepPre_step _ _ _ Hpre)) as [Hle Heq].
    destruct (stepPre_bounds _ _ _ Hpre) as [Hs Hb].
    destruct (step_cases done id Hs Hb) as [[E _] | (keep & drop & E & En & _)].
    + rewrite E in *. split; [lia|]. intros Hl. lia.
    + rewrite En in *. subst done. rewrite !length_app in *. simpl in *.
      split; [lia|]. intros Hl.
      assert (drop = []) by (destruct drop; [reflexivity | simpl in *; lia]).
      subst drop. rewrite app_nil_r in *.
      rewrite Heq by lia. rewrite <- app_assoc. reflexivity.
Qed.

(** Every input entry is contained by an entry of the output. *)
Lemma fold_covers (rest : list Z) :
  forall done, stepPre done rest ->
  forall a, In a (done ++ rest) ->
  Normal.covers (fold_left normalizeStep rest done) a.
Proof.
  induction rest as [| id rest IH]; intros done Hpre a Ha; simpl.
  - rewrite app_nil_r in Ha. exists a. split; [assumption | apply contains_refl].
  - pose proof (IH _ (stepPre_step _ _ _ Hpre)) as Hc.
    destruct (stepPre_bounds _ _ _ Hpre) as [Hs Hb].
    destruct (step_cases done id Hs Hb)
      as [[E (p & t & Ep & Et)] | (keep & drop & E & En & Hd & _)].
    + rewrite E in *. apply in_app_or in Ha. destruct Ha as [Ha | [<- | Ha]].
      * apply Hc. apply in_or_app. auto.
      * destruct (Hc t) as (c & Hin & Hct).
        { apply in_or_app. left. rewrite Ep. apply in_or_app. simpl. auto. }
        exists c. split; [assumption|]. eapply contains_trans; eassumption.
      * apply Hc. apply in_or_app. auto.
    + rewrite En in *. subst done.
      rewrite !in_app_iff in Ha. simpl in Ha.
      destruct Ha as [[Ha | Ha] | [<- | Ha]].
      * apply Hc. rewrite !in_app_iff. auto.
      * destruct (Hc id) as (c & Hin & Hct).
        { rewrite !in_app_iff. simpl. auto. }
        exists c. split; [assumption|].
        rewrite Forall_forall in Hd. eapply contains_trans; eauto.
      * apply Hc. rewrite !in_app_iff. simpl. auto.
      * apply Hc. rewrite !in_app_iff. auto.
Qed.

End NormalizeFacts.

(** ** The data model as propositions *)

Module NormalFacts.

Import S2CellId S2CellUnion ArrayFacts CellFacts SortFacts StepFacts Inv.

Lemma isSorted_iff (l : list Z) :
  Normal.isSorted l = true <-> StronglySorted Z.lt l.
Proof.
  induction l as [| a l IH]; simpl.
  - split; [constructor | reflexivity].
  - destruct l as [| b l].
    + split; [repeat constructor | reflexivity].
    + rewrite andb_true_iff, Z.ltb_lt, IH. split.
      * intros [Hab Hs]. constructor; [assumption|].
        constructor; [assumption|].
        apply StronglySorted_inv in Hs. destruct Hs as [_ Hb].
        eapply Forall_impl; [|exact Hb]. simpl. intros; lia.
      * intros Hs. apply StronglySorted_inv in Hs. destruct Hs as [Hs Ha].
        inversion Ha; subst. auto.
Qed.

Lemma noContained_iff (l : list Z) :
  Normal.noContained l = true <-> antichain l.
Proof.
  unfold Normal.noContained, antichain. rewrite forallb_forall. split.
  - intros H a b Ha Hb Hne. specialize (H a Ha).
    rewrite forallb_forall in H. specialize (H b Hb).
    apply orb_true_iff in H. destruct H as [H | H].
    + apply Z.eqb_eq in H. contradiction.
    + apply negb_true_iff in H. exact H.
  - intros H a Ha. apply forallb_forall. intros b Hb.
    destruct (Z.eqb_spec a b) as [| Hne]; [reflexivity|].
    simpl. rewrite (H a b Ha Hb Hne). reflexivity.
Qed.

Lemma normalized_inv (l : list Z) :
  Normal.normalized l ->
  StronglySorted Z.lt l /\ antichain l /\ Normal.noSiblingGroup l = true.
Proof.
  unfold Normal.normalized, Normal.isNormalized.
  rewrite !andb_true_iff, isSorted_iff, noContained_iff. tauto.
Qed.

Lemma range_center (x : Z) :
  cell x -> 2 * x = rangeMin x + rangeMax x.
Proof.
  intros Hx. destruct (cell_ranges x Hx) as (k & m & _ & _ & E & _ & _ & -> & ->).
  lia.
Qed.

Lemma contains_antisym (x y : Z) :
  cell x -> cell y ->
  S2CellId.contains x y = true -> S2CellId.contains y x = true -> x = y.
Proof.
  intros Hx Hy. unfold S2CellId.contains.
  rewrite !andb_true_iff, !Z.leb_le. intros [H1 H2] [H3 H4].
  pose proof (range_center x Hx). pose proof (range_center y Hy). lia.
Qed.

End NormalFacts.

(** ** normalize *)

Module NormalizeTheorems.

Import S2CellId S2CellUnion ArrayFacts CellFacts SortFacts StepFacts Inv.
Import NormalizeFacts NormalFacts.

(** On a strictly ascending list without containment every step pushes. *)
Lemma fold_keep (rest : list Z) :
  forall done,
    StronglySorted Z.lt (done ++ rest) -> Forall u64 (done ++ rest) ->
    antichain (done ++ rest) ->
    fold_left normalizeStep rest done = done ++ rest.
Proof.
  induction rest as [| id rest IH]; intros done Hs Hu Ha; simpl.
  - rewrite app_nil_r. reflexivity.
  - assert (Hlt : forall a, In a done -> a < id).
    { apply ss_app in Hs. destruct Hs as (_ & _ & H). intros a Hin.
      apply H; simpl; auto. }
    assert (Hstep : normalizeStep done id = done ++ [id]).
    { assert (Hd : StronglySorted Z.lt done) by (apply ss_app in Hs; tauto).
      assert (Hb : Forall (fun a => 0 <= a <= id) done).
      { rewrite Forall_forall in *. intros a Hin.
        assert (u64 a) by (apply Hu, in_or_app; auto).
        specialize (Hlt a Hin). unfold u64 in *. lia. }
      destruct (step_cases done id Hd Hb)
        as [[_ (p & t & Ep & Et)] | (keep & drop & E & En & Hdrop & _)].
      - exfalso. assert (Hin : In t done) by (rewrite Ep; apply in_or_app; simpl; auto).
        rewrite (Ha t id) in Et; [discriminate | | |].
        + apply in_or_app; auto.
        + apply in_or_app; simpl; auto.
        + specialize (Hlt t Hin). lia.
      - destruct drop as [| d drop].
        + rewrite app_nil_r in E. subst keep. exact En.
        + exfalso. inversion Hdrop as [| ? ? Hc _]; subst.
          assert (Hin : In d (keep ++ d :: drop)) by (apply in_or_app; simpl; auto).
          rewrite (Ha id d) in Hc; [discriminate | | |].
          * apply in_or_app; simpl; auto.
          * apply in_or_app; auto.
          * specialize (Hlt d Hin). lia. }
    rewrite Hstep, IH; rewrite <- ?app_assoc; simpl; auto.
Qed.

(** normalize on a strictly ascending list without containment. *)
Lemma normalize_keep (l : list Z) :
  Forall u64 l -> StronglySorted Z.lt l -> antichain l ->
  normalize l = (false, l).
Proof.
  intros Hu Hs Ha. unfold normalize.
  rewrite (sort_of_sorted l) by (apply lt_sorted_le; exact Hs).
  rewrite (fold_keep l []) by assumption. simpl.
  rewrite Z.ltb_irrefl. reflexivity.
Qed.

(** C3: normalize returns true exactly when the stored sequence got
    shorter, and on a union that is already normalized (strictly ascending,
    no identifier contained by another, no four-sibling group) it returns
    false and leaves the stored sequence as it was. *)
Theorem normalize_reports_reduction (l : list Z) :
  (fst (normalize l) = true <->
   (length (snd (normalize l)) < length l)%nat)
  /\ (Forall u64 l -> Normal.normalized l -> normalize l = (false, l)).
Proof.
  split.
  - unfold normalize, size. rewrite sort_length.
    destruct (Z.ltb_spec (Z.of_nat (length (fold_left normalizeStep (sort l) [])))
                (Z.of_nat (length l))); simpl.
    + split; [lia | reflexivity].
    + rewrite sort_length. split; [discriminate | lia].
  - intros Hu Hn. apply normalized_inv in Hn. destruct Hn as (Hs & Ha & _).
    apply normalize_keep; assumption.
Qed.

(** C9: on any array of (non-zero) cell identifiers, whatever normalize
    returns, the stored sequence is strictly ascending afterwards, holds
    only entries of the array given, and covers every one of them; after a
    false return it is the array given rearranged, which is the sort done
    in place; so a false return does not mean that the stored order is the
    one before the call. *)
Theorem normalize_stores_sorted :
  (forall l, Forall cell l ->
     StronglySorted Z.lt (snd (normalize l))
     /\ incl (snd (normalize l)) l
     /\ (forall a, In a l -> Normal.covers (snd (normalize l)) a)
     /\ (fst (normalize l) = false ->
         Permutation l (snd (normalize l)) /\ length (snd (normalize l)) = length l))
  /\ (exists l, Forall cell l /\ fst (normalize l) = false /\ snd (normalize l) <> l).
Proof.
  split.
  - intros l Hc.
    assert (Hu : Forall u64 l).
    { eapply Forall_impl; [|exact Hc]. intros a Ha. unfold cell, u64 in *. lia. }
    unfold normalize. cbv zeta.
    pose proof (stepPre_start l Hu) as Hpre.
    destruct (fold_sorted _ _ Hpre) as [Hs _].
    destruct (fold_length _ _ Hpre) as [Hle Heq].
    pose proof (fold_incl _ _ Hpre) as Hincl.
    pose proof (fold_covers _ _ Hpre) as Hcov.
    pose proof (sort_perm l) as Hperm.
    unfold size.
    destruct (Z.ltb_spec (Z.of_nat (length (fold_left normalizeStep (sort l) [])))
                (Z.of_nat (length (sort l)))) as [Hlt | Hge]; cbn [fst snd].
    + split; [exact Hs | split; [|split]].
      * intros a Ha. apply Hincl in Ha. simpl in Ha.
        eapply Permutation_in; [symmetry; exact Hperm | exact Ha].
      * intros a Ha. apply Hcov. simpl.
        eapply Permutation_in; [exact Hperm | exact Ha].
      * discriminate.
    + rewrite Heq in Hs by (simpl in *; lia). simpl in Hs.
      split; [exact Hs | split; [|split]].
      * intros a Ha. eapply Permutation_in; [symmetry; exact Hperm | exact Ha].
      * intros a Ha. exists a. split; [|apply contains_refl].
        eapply Permutation_in; [exact Hperm | exact Ha].
      * intros _. split; [exact Hperm | apply sort_length].
  - exists [3; 1]. split; [|split].
    + repeat constructor; unfold cell; lia.
    + reflexivity.
    + discriminate.
Qed.

(** [normalize_reports_reduction] at a concrete input, with its hypotheses evaluated there. *)
Lemma normalize_reports_reduction_witness :
  Forall u64 [fromFace 0; fromFace 1]
  /\ Normal.normalized [fromFace 0; fromFace 1]
  /\ normalize [fromFace 0; fromFace 1] = (false, [fromFace 0; fromFace 1]).
Proof.
  assert (Hu : Forall u64 [fromFace 0; fromFace 1]).
  { repeat constructor; vm_compute; intro H; discriminate H. }
  assert (Hn : Normal.normalized [fromFace 0; fromFace 1]).
  { vm_compute. reflexivity. }
  exact (conj Hu (conj Hn (proj2 (normalize_reports_reduction _) Hu Hn))).
Defined.

(** [normalize_stores_sorted] at a concrete input, with its hypotheses evaluated there. *)
Lemma normalize_stores_sorted_witness :
  Forall cell [3; 1]
  /\ StronglySorted Z.lt (snd (normalize [3; 1]))
  /\ incl (snd (normalize [3; 1])) [3; 1]
  /\ (forall a, In a [3; 1] -> Normal.covers (snd (normalize [3; 1])) a)
  /\ (fst (normalize [3; 1]) = false ->
      Permutation [3; 1] (snd (normalize [3; 1]))
      /\ length (snd (normalize [3; 1])) = length [3; 1]).
Proof.
  assert (Hc : Forall cell [3; 1]).
  { repeat constructor; vm_compute; reflexivity. }
  exact (conj Hc (proj1 normalize_stores_sorted _ Hc)).
Defined.

End NormalizeTheorems.

Module RedundancyTheorems.

Import S2CellId S2CellUnion ArrayFacts CellFacts SortFacts StepFacts Inv.
Import NormalizeFacts NormalFacts.

(** Once the output is the single cell [c], candidates that [c] contains
    are dropped one after the other. *)
Lemma fold_under_top (c : Z) (rest : list Z) :
  Forall (fun d => S2CellId.contains c d = true) rest ->
  fold_left normalizeStep rest [c] = [c].
Proof.
  induction 1 as [| d rest Hd _ IH]; simpl; [reflexivity|].
  replace (normalizeStep [c] d) with [c]; [exact IH|].
  unfold normalizeStep. change (size [c]) with 1.
  change ([c].[1 - 1]) with c. rewrite Hd. reflexivity.
Qed.

(** A cell that is pushed on an output made of its descendants replaces
    all of them. *)
Lemma step_over_descendants (o : list Z) (c : Z) :
  cell c -> StronglySorted Z.lt o ->
  Forall (fun d => cell d /\ S2CellId.contains c d = true /\ d < c) o ->
  normalizeStep o c = [c].
Proof.
  intros Hc Hs Ho.
  assert (Hb : Forall (fun a => 0 <= a <= c) o).
  { eapply Forall_impl; [|exact Ho]. simpl. unfold cell. intros; lia. }
  rewrite Forall_forall in Ho.
  destruct (step_cases o c Hs Hb)
    as [[_ (p & t & Ep & Et)] | (keep & drop & E & En & _ & Hk & _)].
  - exfalso.
    destruct (Ho t) as (Ht & Hct & Hlt); [rewrite Ep; apply in_or_app; simpl; auto|].
    pose proof (contains_antisym c t Hc Ht Hct Et). lia.
  - rewrite En. destruct (snoc_cases keep) as [-> | (k & t & ->)]; [reflexivity|].
    exfalso. destruct (Ho t) as (_ & Hct & _).
    + rewrite E. rewrite !in_app_iff. simpl. auto.
    + rewrite (Hk k t eq_refl) in Hct. discriminate.
Qed.

(** C4: a cell together with a non-empty collection of its proper
    descendants, in any order, normalizes to the cell alone, and the call
    reports a reduction. *)
Theorem normalize_drops_descendants (c : Z) (ds l : list Z) :
  cell c -> ds <> [] ->
  Forall (fun d => cell d /\ S2CellId.contains c d = true /\ d <> c) ds ->
  Permutation l (c :: ds) ->
  normalize l = (true, [c]).
Proof.
  intros Hc Hne Hds Hperm.
  assert (Hps : Permutation (sort l) (c :: ds)).
  { rewrite <- Hperm. symmetry. apply sort_perm. }
  assert (Hin : In c (sort l)).
  { eapply Permutation_in; [symmetry; exact Hps | simpl; auto]. }
  destruct (in_split _ _ Hin) as (s1 & s2 & Es).
  pose proof (sort_sorted l) as Hsorted. rewrite Es in Hsorted, Hps.
  apply ss_app in Hsorted. destruct Hsorted as (Hs1 & Hs2 & H12).
  apply StronglySorted_inv in Hs2. destruct Hs2 as [Hs2 Hc2].
  assert (Hrest : Permutation (s1 ++ s2) ds).
  { apply Permutation_cons_inv with (a := c).
    rewrite <- Hps. apply Permutation_middle. }
  assert (Hall : Forall (fun d => cell d /\ S2CellId.contains c d = true /\ d <> c)
                   (s1 ++ s2)).
  { eapply Permutation_Forall; [symmetry; exact Hrest | exact Hds]. }
  apply Forall_app in Hall. destruct Hall as [Hall1 Hall2].
  assert (Hu1 : Forall u64 s1).
  { eapply Forall_impl; [|exact Hall1]. simpl. unfold cell, u64. intros; lia. }
  assert (Hpre : stepPre [] s1).
  { repeat split; auto; try constructor. intros a b []. }
  destruct (fold_sorted _ _ Hpre) as [Ho1 _].
  pose proof (fold_incl _ _ Hpre) as Hi1. simpl in Hi1.
  unfold normalize. rewrite Es, fold_left_app. simpl.
  rewrite (step_over_descendants _ c Hc Ho1).
  - rewrite fold_under_top.
    + replace (size [c] <? size (s1 ++ c :: s2)) with true; [reflexivity|].
      symmetry. apply Z.ltb_lt. unfold size.
      assert (length (s1 ++ s2) = length ds) by (apply Permutation_length, Hrest).
      rewrite length_app in *. simpl.
      destruct ds; [contradiction | simpl in *; lia].
    + eapply Forall_impl; [|exact Hall2]. simpl. tauto.
  - rewrite Forall_forall in *. intros d Hd.
    specialize (Hi1 d Hd). destruct (Hall1 d Hi1) as (H1 & H2 & H3).
    repeat split; try assumption; try apply H1.
    assert (d <= c) by (apply H12; simpl; auto). lia.
Qed.

(** [normalize_drops_descendants] at a concrete input, with its hypotheses evaluated there. *)
Lemma normalize_drops_descendants_witness :
  let c := fromFace 0 in
  let ds := [child c 1; child c 3] in
  let l := [child c 3; c; child c 1] in
  cell c /\ ds <> []
  /\ Forall (fun d => cell d /\ S2CellId.contains c d = true /\ d <> c) ds
  /\ Permutation l (c :: ds)
  /\ normalize l = (true, [c]).
Proof.
  intros c ds l.
  assert (Hc : cell c) by (vm_compute; split; reflexivity).
  assert (Hne : ds <> []) by discriminate.
  assert (Hds : Forall (fun d => cell d /\ S2CellId.contains c d = true /\ d <> c) ds).
  { repeat constructor; vm_compute; try reflexivity; intro H; discriminate H. }
  assert (Hp : Permutation l (c :: ds)).
  { unfold l, ds. eapply perm_trans; [apply perm_swap|].
    apply perm_skip. apply perm_swap. }
  exact (conj Hc (conj Hne (conj Hds (conj Hp
           (normalize_drops_descendants c ds l Hc Hne Hds Hp))))).
Defined.

End RedundancyTheorems.

(** ** Levels, parents and children *)

Module HierarchyFacts.

Import S2CellId CellFacts.

Lemma pow2_pos (k : Z) : 0 <= k -> 0 < 2 ^ k.
Proof.
  intros. apply Z.pow_pos_nonneg; lia.
Qed.

(** The cell with odd part [2m+1] and lowest set bit [2^k]. *)
Lemma shape_facts (k m : Z) :
  0 <= k -> 0 <= m -> (2 * m + 2) * 2 ^ k <= 2 ^ 64 ->
  cell ((2 * m + 1) * 2 ^ k)
  /\ lowestOnBit ((2 * m + 1) * 2 ^ k) = 2 ^ k
  /\ rangeMin ((2 * m + 1) * 2 ^ k) = 2 * m * 2 ^ k + 1
  /\ rangeMax ((2 * m + 1) * 2 ^ k) = (2 * m + 2) * 2 ^ k - 1.
Proof.
  intros Hk Hm Hb. pose proof (pow2_pos k Hk) as Hp.
  assert (Hc : cell ((2 * m + 1) * 2 ^ k)) by (unfold cell; nia).
  assert (Hl : lowestOnBit ((2 * m + 1) * 2 ^ k) = 2 ^ k).
  { rewrite lowestOnBit_land by (unfold cell, u64 in *; lia).
    apply land_opp_pow2. lia. }
  repeat split; try apply Hc; try assumption.
  - unfold rangeMin, Long.wrap. rewrite Hl, Z.mod_small; nia.
  - unfold rangeMax, Long.wrap. rewrite Hl, Z.mod_small; nia.
Qed.

Lemma land_wrap (x y : Z) : u64 x -> Z.land x (Long.wrap y) = Z.land x y.
Proof.
  intros Hx. unfold Long.wrap.
  apply Z.bits_inj'. intros n Hn. rewrite !Z.land_spec.
  destruct (Z.ltb_spec n 64).
  - rewrite Z.mod_pow2_bits_low by lia. reflexivity.
  - rewrite Z.mod_pow2_bits_high by lia.
    rewrite <- (Z.mod_small x (2 ^ 64)) by exact Hx.
    rewrite Z.mod_pow2_bits_high by lia. reflexivity.
Qed.

Lemma lor_one (a : Z) : Z.lor a 1 = 2 * (a / 2) + 1.
Proof.
  apply Z.bits_inj'. intros n Hn. rewrite Z.lor_spec.
  destruct (Z.eq_dec n 0) as [-> | Hn0].
  - rewrite Z.testbit_odd_0. apply orb_true_r.
  - assert (En : n = Z.succ (Z.pred n)) by lia.
    assert (Hp : 0 <= Z.pred n) by lia.
    revert En Hp. generalize (Z.pred n). intros p -> Hp.
    rewrite Z.testbit_odd_succ by lia.
    pose proof (Z.testbit_odd_succ 0 p Hp) as H1. simpl in H1. rewrite H1.
    rewrite Z.testbit_0_l, orb_false_r.
    symmetry. apply Z.div2_bits. lia.
Qed.

(** Clearing the bits below [2^K] and setting that bit: the cell with
    lowest set bit [2^K] whose block holds [x]. *)
Lemma ancestor_at (x K : Z) :
  u64 x -> 0 <= K < 64 ->
  Long.or (Long.and x (Long.negate (2 ^ K))) (2 ^ K)
  = (2 * (x / 2 ^ (K + 1)) + 1) * 2 ^ K.
Proof.
  intros Hx HK. unfold Long.or, Long.and, Long.negate.
  rewrite land_wrap by exact Hx.
  replace (- 2 ^ K) with (Z.lnot (Z.ones K))
    by (rewrite Z.ones_equiv, Z.lnot_eq_pred_opp; lia).
  rewrite <- Z.ldiff_land, Z.ldiff_ones_r by lia.
  replace (2 ^ K) with (Z.shiftl 1 K) at 1
    by (rewrite Z.shiftl_mul_pow2 by lia; lia).
  rewrite <- Z.shiftl_lor, lor_one.
  rewrite Z.shiftl_mul_pow2, Z.shiftr_div_pow2 by lia.
  rewrite Z.div_div by (try apply pow2_pos; lia).
  rewrite Z.pow_add_r by lia. reflexivity.
Qed.

Lemma lowestOnBitForLevel_pow2 (lvl : Z) :
  0 <= lvl <= 30 -> lowestOnBitForLevel lvl = 2 ^ (2 * (30 - lvl)).
Proof.
  intros H. unfold lowestOnBitForLevel, Long.shiftLeft, Long.wrap, MAX_LEVEL.
  rewrite (Z.mod_small (2 * (30 - lvl)) 64) by lia.
  rewrite Z.shiftl_mul_pow2 by lia. rewrite Z.mul_1_l.
  apply Z.mod_small. split; [apply Z.pow_nonneg; lia|].
  apply Z.pow_lt_mono_r; lia.
Qed.

(** The lowest set bit of a valid identifier sits at an even position, at
    most 60. *)
Lemma even_position (k : Z) :
  0 <= k < 64 -> Z.land (2 ^ k) 0x1555555555555555 <> 0 ->
  exists h, k = 2 * h /\ 0 <= h <= 30.
Proof.
  intros Hk Hl.
  assert (Hall : forallb
            (fun n => (Z.land (2 ^ Z.of_nat n) 0x1555555555555555 =? 0)
                      || (Z.even (Z.of_nat n) && (Z.of_nat n <=? 60)))
            (seq 0 64) = true) by (vm_compute; reflexivity).
  rewrite forallb_forall in Hall.
  specialize (Hall (Z.to_nat k)). rewrite Z2Nat.id in Hall by lia.
  destruct (orb_prop _ _ (Hall ltac:(apply in_seq; lia))) as [H | H].
  - apply Z.eqb_eq in H. contradiction.
  - apply andb_true_iff in H. destruct H as [He Hle].
    apply Z.leb_le in Hle. apply Z.even_spec in He. destruct He as [h ->].
    exists h. lia.
Qed.

Lemma valid_cell (x : Z) : validId x -> cell x.
Proof.
  intros [Hu Hv]. unfold isValid in Hv.
  apply andb_true_iff in Hv. destruct Hv as [_ Hl].
  apply negb_true_iff, Z.eqb_neq in Hl.
  unfold cell, u64 in *. destruct (Z.eq_dec x 0) as [-> | ]; [|lia].
  exfalso. apply Hl. reflexivity.
Qed.

Lemma valid_cells (l : list Z) : Forall validId l -> Forall cell l.
Proof.
  intros H. eapply Forall_impl; [|exact H]. apply valid_cell.
Qed.

(** A valid identifier of level [30 - h]: face number below 6, lowest set
    bit [4^h]. *)
Lemma valid_shape (x : Z) :
  validId x ->
  exists h m, 0 <= h <= 30 /\ 0 <= m /\ x = (2 * m + 1) * 2 ^ (2 * h)
              /\ (2 * m + 2) * 2 ^ (2 * h) <= 6 * 2 ^ 61
              /\ lowestOnBit x = 2 ^ (2 * h) /\ level x = 30 - h.
Proof.
  intros Hv. pose proof (valid_cell x Hv) as Hc. destruct Hv as [Hu Hv].
  destruct (cell_shape x Hc) as (k & m & Hk & Hm & E & _ & Hl).
  unfold isValid in Hv. apply andb_true_iff in Hv. destruct Hv as [Hf Hb].
  apply negb_true_iff, Z.eqb_neq in Hb. rewrite Hl in Hb.
  destruct (even_position k Hk Hb) as (h & -> & Hh).
  exists h, m. repeat split; try lia; try assumption.
  - apply Z.ltb_lt in Hf. unfold face, NUM_FACES in Hf.
    rewrite Z.shiftr_div_pow2 in Hf by lia.
    pose proof (Z.div_mod x (2 ^ 61) ltac:(lia)).
    pose proof (Z.mod_pos_bound x (2 ^ 61) ltac:(lia)).
    assert (Hx : x < 6 * 2 ^ 61) by lia.
    assert (E61 : 2 ^ 61 = 2 ^ (61 - 2 * h) * 2 ^ (2 * h)) by (apply pow2_split; lia).
    pose proof (pow2_pos (2 * h) ltac:(lia)).
    pose proof (pow2_pos (61 - 2 * h) ltac:(lia)).
    rewrite E61 in *. rewrite E in Hx.
    set (d := 2 ^ (2 * h)) in *. set (t := 2 ^ (61 - 2 * h)) in *.
    assert (2 * m + 1 < 6 * t) by nia.
    assert (2 * m + 2 <= 6 * t) by lia. nia.
  - unfold level, MAX_LEVEL. rewrite Hl, Z.log2_pow2 by lia.
    replace (2 * h) with (h * 2) by lia. rewrite Z.div_mul by lia. reflexivity.
Qed.

(** The children of a cell whose lowest set bit is at least 4. *)
Lemma child_shape (k m pos : Z) :
  2 <= k -> 0 <= m -> (2 * m + 2) * 2 ^ k <= 2 ^ 64 -> 0 <= pos < 4 ->
  child ((2 * m + 1) * 2 ^ k) pos = (2 * (4 * m + pos) + 1) * 2 ^ (k - 2).
Proof.
  intros Hk Hm Hb Hpos.
  destruct (shape_facts k m) as (_ & Hl & _); try lia.
  unfold child. rewrite Hl.
  rewrite Z.shiftr_div_pow2 by lia.
  assert (E : 2 ^ k = 2 ^ (k - 2) * 2 ^ 2) by (rewrite <- Z.pow_add_r by lia; f_equal; lia).
  pose proof (pow2_pos (k - 2)) as Hp.
  rewrite E at 2. rewrite Z.div_mul by lia.
  unfold Long.wrap. rewrite Z.mod_small; [rewrite E; ring|].
  rewrite E in *. change (2 ^ 2) with 4 in *. nia.
Qed.

(** The ancestor that [parentL] computes for a cell finer than the level:
    a cell of that level that contains it. *)
Lemma parentL_ancestor (x lvl : Z) :
  cell x -> 0 <= lvl <= 30 -> lowestOnBit x < lowestOnBitForLevel lvl ->
  cell (parentL x lvl)
  /\ S2CellId.contains (parentL x lvl) x = true
  /\ lowestOnBit (parentL x lvl) = lowestOnBitForLevel lvl.
Proof.
  intros Hx Hlvl Hlt. unfold parentL.
  rewrite lowestOnBitForLevel_pow2 in * by assumption.
  set (K := 2 * (30 - lvl)) in *.
  assert (HK : 0 <= K <= 60) by (unfold K; lia).
  rewrite ancestor_at by (unfold cell, u64 in *; lia).
  set (Q := x / 2 ^ (K + 1)).
  pose proof (pow2_pos K ltac:(lia)) as HpK.
  assert (EK1 : 2 ^ (K + 1) = 2 * 2 ^ K) by (rewrite Z.pow_add_r by lia; lia).
  pose proof (Z.div_mod x (2 ^ (K + 1)) ltac:(lia)) as Hdm.
  pose proof (Z.mod_pos_bound x (2 ^ (K + 1)) ltac:(lia)) as Hmod.
  fold Q in Hdm. set (r := x mod 2 ^ (K + 1)) in *.
  assert (HQ : 0 <= Q) by (apply Z.div_pos; unfold cell in Hx; lia).
  assert (E64 : 2 ^ 64 = 2 ^ (64 - (K + 1)) * 2 ^ (K + 1)) by (apply pow2_split; lia).
  pose proof (pow2_pos (64 - (K + 1)) ltac:(lia)) as Hp64.
  assert (Hb : (2 * Q + 2) * 2 ^ K <= 2 ^ 64).
  { unfold cell in Hx. rewrite E64 in *. rewrite EK1 in *.
    set (T := 2 ^ (64 - (K + 1))) in *.
    assert (Q < T) by nia. nia. }
  destruct (shape_facts K Q) as (Hc & Hl & R1 & R2); try lia.
  split; [exact Hc | split; [|exact Hl]].
  apply in_range_contains; [exact Hc | exact Hx |].
  rewrite R1, R2.
  assert (Hr : r <> 0).
  { intros Hr0.
    destruct (cell_shape x Hx) as (k & m & Hk & Hm & E & _ & Hlx).
    rewrite Hlx in Hlt.
    assert (k < K).
    { destruct (Z_lt_le_dec k K); [assumption|].
      assert (2 ^ K <= 2 ^ k) by (apply Z.pow_le_mono_r; lia). lia. }
    assert (EKk : 2 ^ K = 2 ^ (K - k) * 2 ^ k) by (apply pow2_split; lia).
    pose proof (pow2_pos k ltac:(lia)) as Hpk.
    rewrite Hr0, EK1, EKk, E in Hdm.
    assert (2 * m + 1 = 2 * (2 ^ (K - k) * Q)) by nia.
    lia. }
  rewrite EK1 in *. lia.
Qed.

End HierarchyFacts.

(** ** Sibling groups *)

Module SiblingTheorems.

Import S2CellId S2CellUnion ArrayFacts CellFacts SortFacts StepFacts Inv.
Import NormalizeFacts NormalFacts NormalizeTheorems HierarchyFacts.

Lemma sorted_perm_unique (l1 : list Z) :
  forall l2, StronglySorted Z.le l1 -> StronglySorted Z.le l2 ->
             Permutation l1 l2 -> l1 = l2.
Proof.
  induction l1 as [| a l1 IH]; intros l2 H1 H2 Hp.
  - apply Permutation_nil in Hp. subst. reflexivity.
  - destruct l2 as [| b l2].
    + apply Permutation_sym, Permutation_nil in Hp. discriminate.
    + apply StronglySorted_inv in H1, H2.
      destruct H1 as [H1 Ha], H2 as [H2 Hb].
      rewrite Forall_forall in Ha, Hb.
      assert (a = b).
      { assert (Hin1 : In b (a :: l1)).
        { eapply Permutation_in; [symmetry; exact Hp | simpl; auto]. }
        assert (Hin2 : In a (b :: l2)).
        { eapply Permutation_in; [exact Hp | simpl; auto]. }
        destruct Hin1 as [-> | Hin1]; [reflexivity|].
        destruct Hin2 as [<- | Hin2]; [reflexivity|].
        specialize (Ha b Hin1). specialize (Hb a Hin2). lia. }
      subst b. f_equal. apply IH; auto.
      eapply Permutation_cons_inv. exact Hp.
Qed.

Lemma sort_unique (l s : list Z) :
  StronglySorted Z.lt s -> Permutation l s -> sort l = s.
Proof.
  intros Hs Hp. apply sorted_perm_unique.
  - apply sort_sorted.
  - apply lt_sorted_le, Hs.
  - rewrite <- Hp. symmetry. apply sort_perm.
Qed.

(** The four children of a non-leaf valid identifier are strictly
    ascending cells none of which contains another. *)
Lemma children_apart (p : Z) :
  validId p -> isLeaf p = false ->
  let cs := [child p 0; child p 1; child p 2; child p 3] in
  Forall u64 cs /\ StronglySorted Z.lt cs /\ antichain cs.
Proof.
  intros Hv Hleaf.
  destruct (valid_shape p Hv) as (h & m & Hh & Hm & E & Hb & _ & _).
  assert (H1 : 1 <= h).
  { destruct (Z.eq_dec h 0) as [-> | ]; [exfalso | lia].
    unfold isLeaf in Hleaf. rewrite E in Hleaf.
    change (2 ^ (2 * 0)) with 1 in Hleaf.
    rewrite Z.mul_1_r, Z.add_comm, Z.odd_add_mul_2 in Hleaf. discriminate. }
  assert (Hb64 : (2 * m + 2) * 2 ^ (2 * h) <= 2 ^ 64) by lia.
  intros cs. subst cs. rewrite E.
  rewrite !child_shape by lia.
  assert (E2 : 2 ^ (2 * h) = 4 * 2 ^ (2 * h - 2)).
  { rewrite (pow2_split (2 * h - 2) (2 * h)) by lia.
    replace (2 * h - (2 * h - 2)) with 2 by lia. reflexivity. }
  rewrite E2 in Hb64.
  pose proof (pow2_pos (2 * h - 2) ltac:(lia)) as Hd.
  set (d := 2 ^ (2 * h - 2)) in *.
  assert (Hf : forall pos, 0 <= pos < 4 ->
            cell ((2 * (4 * m + pos) + 1) * d)
            /\ rangeMin ((2 * (4 * m + pos) + 1) * d) = 2 * (4 * m + pos) * d + 1
            /\ rangeMax ((2 * (4 * m + pos) + 1) * d) = (2 * (4 * m + pos) + 2) * d - 1).
  { intros pos Hpos. destruct (shape_facts (2 * h - 2) (4 * m + pos)) as (F1 & _ & F2 & F3);
      try lia; [fold d; nia | auto]. }
  destruct (Hf 0) as (C0 & L0 & R0); [lia|].
  destruct (Hf 1) as (C1 & L1 & R1); [lia|].
  destruct (Hf 2) as (C2 & L2 & R2); [lia|].
  destruct (Hf 3) as (C3 & L3 & R3); [lia|].
  split; [|split].
  - repeat constructor; unfold cell, u64 in *; lia.
  - repeat constructor; lia.
  - intros a b Ha Hb' Hne. unfold S2CellId.contains.
    apply andb_false_iff. rewrite !Z.leb_gt.
    destruct Ha as [<- | [<- | [<- | [<- | []]]]];
      destruct Hb' as [<- | [<- | [<- | [<- | []]]]];
      try contradiction;
      rewrite ?L0, ?L1, ?L2, ?L3, ?R0, ?R1, ?R2, ?R3; lia.
Qed.

(** normalize never merges the four children of a cell: the cheap test
    compares the AND of the three stored children with the fourth, and the
    AND lacks the position bits of the fourth. *)
Lemma normalize_keeps_siblings (p : Z) (l : list Z) :
  validId p -> isLeaf p = false ->
  Permutation l [child p 0; child p 1; child p 2; child p 3] ->
  normalize l = (false, [child p 0; child p 1; child p 2; child p 3]).
Proof.
  intros Hv Hleaf Hp.
  destruct (children_apart p Hv Hleaf) as (Hu & Hs & Ha).
  unfold normalize. rewrite (sort_unique l _ Hs Hp).
  rewrite (fold_keep _ []) by assumption. reflexivity.
Qed.

(** C1: the four children of the level-4 cell [2^52], given in reverse
    order, are not merged into their parent: normalize reports no reduction
    and stores the four children in ascending order. *)
Theorem normalize_misses_sibling_collapse :
  let P := 2 ^ 52 in
  validId P /\ isLeaf P = false
  /\ normalize [child P 3; child P 2; child P 1; child P 0]
     = (false, [child P 0; child P 1; child P 2; child P 3])
  /\ normalize [child P 3; child P 2; child P 1; child P 0] <> (true, [P]).
Proof.
  cbv zeta. split; [|split; [|split]].
  - split; [unfold u64; lia | vm_compute; reflexivity].
  - vm_compute; reflexivity.
  - vm_compute; reflexivity.
  - vm_compute. discriminate.
Qed.

End SiblingTheorems.

(** ** leafCellsCovered *)

Module LeafTheorems.

Import S2CellId S2CellUnion ArrayFacts CellFacts SortFacts Inv.
Import NormalFacts HierarchyFacts.

(** The summand of an entry is its lowest set bit. *)
Lemma leaf_term (id : Z) :
  validId id ->
  Long.shiftLeft 1 (Z.shiftl (MAX_LEVEL - level id) 1) = 4 ^ (MAX_LEVEL - level id)
  /\ 4 ^ (MAX_LEVEL - level id) = lowestOnBit id.
Proof.
  intros Hv. destruct (valid_shape id Hv) as (h & m & Hh & _ & _ & _ & Hl & Hlev).
  rewrite Hlev, Hl. unfold MAX_LEVEL.
  replace (30 - (30 - h)) with h by lia.
  assert (E4 : 4 ^ h = 2 ^ (2 * h)).
  { change 4 with (2 ^ 2). rewrite <- Z.pow_mul_r by lia. reflexivity. }
  split; [|exact E4].
  unfold Long.shiftLeft, Long.wrap.
  rewrite (Z.shiftl_mul_pow2 h 1) by lia. rewrite Z.pow_1_r.
  replace (h * 2) with (2 * h) by lia.
  rewrite (Z.mod_small (2 * h) 64) by lia.
  rewrite Z.shiftl_mul_pow2, Z.mul_1_l by lia.
  rewrite E4. apply Z.mod_small.
  split; [apply Z.pow_nonneg; lia | apply Z.pow_lt_mono_r; lia].
Qed.

(** Two cells in ascending order that are not nested lie apart, with a gap
    between their ranges. *)
Lemma blocks_ordered (a b : Z) :
  cell a -> cell b -> a < b ->
  S2CellId.contains a b = false -> S2CellId.contains b a = false ->
  rangeMax a + 2 <= rangeMin b.
Proof.
  intros Ha Hb Hlt Hab Hba.
  pose proof (range_bounds a Ha). pose proof (range_bounds b Hb).
  destruct (laminar a b Ha Hb) as [H1 | [H1 | [H1 | H1]]]; try congruence; try lia.
  destruct (cell_ranges a Ha) as (k & m & _ & _ & _ & _ & _ & _ & Ra).
  destruct (cell_ranges b Hb) as (j & n & _ & _ & _ & _ & _ & Rb & _).
  destruct (Z.eq_dec (rangeMax a + 1) (rangeMin b)) as [E | ]; [exfalso | lia].
  rewrite Ra, Rb in E.
  assert (Hodd : Z.odd (2 * n * 2 ^ j + 1) = true).
  { rewrite Z.add_comm, <- Z.mul_assoc, Z.odd_add_mul_2. reflexivity. }
  rewrite <- E in Hodd.
  replace ((2 * m + 2) * 2 ^ k - 1 + 1) with (0 + 2 * ((m + 1) * 2 ^ k)) in Hodd by ring.
  rewrite Z.odd_add_mul_2 in Hodd. discriminate.
Qed.

Lemma leafSum_cons (a : Z) (l : list Z) :
  Normal.leafSum (a :: l) = 4 ^ (MAX_LEVEL - level a) + Normal.leafSum l.
Proof.
  reflexivity.
Qed.

Lemma antichain_tail (a : Z) (l : list Z) : antichain (a :: l) -> antichain l.
Proof.
  intros H x y Hx Hy. apply H; simpl; auto.
Qed.

(** The blocks of a normalized union lie side by side below the end of
    the last face, so twice the leaf count fits under any bound on the
    blocks. *)
Lemma leafSum_bound (l : list Z) :
  forall lo hi,
    StronglySorted Z.lt l -> antichain l -> Forall validId l ->
    lo <= hi ->
    (forall x, In x l -> lo <= rangeMin x - 1 /\ rangeMax x + 1 <= hi) ->
    0 <= Normal.leafSum l /\ lo + 2 * Normal.leafSum l <= hi.
Proof.
  induction l as [| a l IH]; intros lo hi Hs Ha Hv Hlh Hr.
  - simpl. lia.
  - rewrite leafSum_cons. apply StronglySorted_inv in Hs. destruct Hs as [Hs Hlt].
    inversion Hv as [| ? ? Hva Hvl]; subst.
    rewrite Forall_forall in Hlt, Hvl.
    pose proof (valid_cell a Hva) as Hca.
    destruct (leaf_term a Hva) as [_ E]. rewrite E.
    destruct (cell_ranges a Hca) as (k & m & Hk & _ & _ & _ & Hl & R1 & R2).
    pose proof (pow2_pos k ltac:(lia)) as Hp.
    destruct (Hr a (or_introl eq_refl)) as [Hlo Hhi].
    destruct (IH (rangeMax a + 1) hi) as [H0 Hsum]; auto.
    + eapply antichain_tail; eassumption.
    + apply Forall_forall. assumption.
    + intros x Hx. split; [|apply Hr; simpl; auto].
      pose proof (blocks_ordered a x Hca (valid_cell x (Hvl x Hx)) (Hlt x Hx)).
      assert (a <> x) by (specialize (Hlt x Hx); lia).
      rewrite !Ha in H by (simpl; auto). lia.
    + rewrite Hl, R1, R2 in *. lia.
Qed.

Lemma leaf_fold (l : list Z) :
  forall acc,
    0 <= acc -> Forall validId l -> acc + Normal.leafSum l < 2 ^ 64 ->
    (forall t, Forall validId t -> 0 <= Normal.leafSum t) ->
    fold_left addLeaves l acc = acc + Normal.leafSum l.
Proof.
  induction l as [| a l IH]; intros acc Hacc Hv Hb Hpos.
  - simpl. lia.
  - rewrite leafSum_cons in *. cbn [fold_left].
    inversion Hv as [| ? ? Hva Hvl]; subst.
    destruct (leaf_term a Hva) as [E1 E2]. unfold addLeaves at 2. cbv zeta. rewrite E1.
    pose proof (Hpos l Hvl) as H0.
    assert (Hterm : 0 <= 4 ^ (MAX_LEVEL - level a)) by (apply Z.pow_nonneg; lia).
    unfold Long.add, Long.wrap. rewrite Z.mod_small by lia.
    rewrite IH; try assumption; lia.
Qed.

Lemma leafSum_nonneg (l : list Z) : 0 <= Normal.leafSum l.
Proof.
  induction l as [| a l IH]; [simpl; lia|]. rewrite leafSum_cons.
  assert (0 <= 4 ^ (MAX_LEVEL - level a)) by (apply Z.pow_nonneg; lia). lia.
Qed.

Lemma face_ranges (f : Z) :
  0 <= f < 6 ->
  cell (fromFace f)
  /\ rangeMin (fromFace f) = f * 2 ^ 61 + 1
  /\ rangeMax (fromFace f) = (f + 1) * 2 ^ 61 - 1.
Proof.
  intros Hf.
  assert (Hcase : f = 0 \/ f = 1 \/ f = 2 \/ f = 3 \/ f = 4 \/ f = 5) by lia.
  destruct Hcase as [-> | [-> | [-> | [-> | [-> | ->]]]]];
    vm_compute; repeat split; reflexivity.
Qed.

(** The six face cells cover every valid identifier. *)
Lemma sixFaces_cover (id : Z) : validId id -> Normal.covers Normal.sixFaces id.
Proof.
  intros Hv. pose proof (valid_cell id Hv) as Hc.
  destruct (valid_shape id Hv) as (h & m & Hh & Hm & E & Hb & _ & _).
  assert (E61 : 2 ^ 61 = 2 * 2 ^ (60 - 2 * h) * 2 ^ (2 * h)).
  { rewrite <- Z.mul_assoc, <- Z.pow_add_r by lia.
    replace (60 - 2 * h + 2 * h) with 60 by lia. reflexivity. }
  pose proof (pow2_pos (2 * h) ltac:(lia)) as Hd.
  pose proof (pow2_pos (60 - 2 * h) ltac:(lia)) as Ht.
  set (d := 2 ^ (2 * h)) in *. set (t := 2 ^ (60 - 2 * h)) in *.
  assert (Hf : exists f, 0 <= f < 6 /\ f * 2 ^ 61 + 1 <= id <= (f + 1) * 2 ^ 61 - 1).
  { exists (m / t). rewrite E61, E.
    pose proof (Z.div_mod m t ltac:(lia)) as Hdm.
    pose proof (Z.mod_pos_bound m t ltac:(lia)) as Hmod.
    set (q := m / t) in *. set (r := m mod t) in *.
    rewrite E61 in Hb.
    assert (q < 6) by nia.
    assert (0 <= q) by (apply Z.div_pos; lia).
    split; [lia|]. rewrite Hdm. nia. }
  destruct Hf as (f & Hf & Hr).
  destruct (face_ranges f Hf) as (Hcf & R1 & R2).
  exists (fromFace f). split.
  - unfold Normal.sixFaces. apply in_map. simpl. lia.
  - apply in_range_contains; [exact Hcf | exact Hc | lia].
Qed.

(** C8: on a normalized union of valid identifiers leafCellsCovered is the
    exact sum of [4^(MAX_LEVEL - level)] over the entries, no addition
    wraps around since the sum is at most [6 * 4^30]; and for the six face
    cells, which cover every valid identifier, it is [6 * 4^30]. *)
Theorem leafCellsCovered_exact :
  (forall l, Forall validId l -> Normal.normalized l ->
             leafCellsCovered l = Normal.leafSum l
             /\ Normal.leafSum l <= 6 * 4 ^ 30)
  /\ Normal.normalized Normal.sixFaces
  /\ (forall id, validId id -> Normal.covers Normal.sixFaces id)
  /\ leafCellsCovered Normal.sixFaces = 6 * 4 ^ 30.
Proof.
  split; [|split; [|split]].
  - intros l Hv Hn. apply normalized_inv in Hn. destruct Hn as (Hs & Ha & _).
    destruct (leafSum_bound l 0 (6 * 2 ^ 61)) as [H0 Hb]; auto; [lia | |].
    + intros x Hx. rewrite Forall_forall in Hv.
      pose proof (valid_cell x (Hv x Hx)) as Hc.
      destruct (valid_shape x (Hv x Hx)) as (h & m & Hh & Hm & E & Hbd & _ & _).
      destruct (shape_facts (2 * h) m) as (_ & _ & R1 & R2); try lia.
      rewrite <- E in R1, R2. rewrite R1, R2.
      pose proof (pow2_pos (2 * h) ltac:(lia)). nia.
    + split; [|lia].
      unfold leafCellsCovered. rewrite leaf_fold; try assumption; try lia.
      intros t _. apply leafSum_nonneg.
  - vm_compute. reflexivity.
  - exact sixFaces_cover.
  - vm_compute. reflexivity.
Qed.

(** [leafCellsCovered_exact] at a concrete input, with its hypotheses evaluated there. *)
Lemma leafCellsCovered_exact_witness :
  let l := [child (fromFace 0) 1; fromFace 3] in
  Forall validId l /\ Normal.normalized l
  /\ leafCellsCovered l = Normal.leafSum l /\ Normal.leafSum l <= 6 * 4 ^ 30.
Proof.
  intros l.
  assert (Hv : Forall validId l).
  { repeat constructor; vm_compute; try reflexivity; intro H; discriminate H. }
  assert (Hn : Normal.normalized l) by (vm_compute; reflexivity).
  exact (conj Hv (conj Hn (proj1 leafCellsCovered_exact l Hv Hn))).
Defined.

End LeafTheorems.

(** ** intersectsUnion *)

Module UnionPredicateTheorems.

Import S2CellId S2CellUnion.

(** C7: intersectsUnion answers true exactly when every identifier of the
    other union intersects this union; a single identifier that does not
    makes it false, also when another identifier of the other union does
    intersect (so it is not the any-cell reading). *)
Theorem intersectsUnion_every_cell :
  (forall u v, intersectsUnion u v = true <->
               (forall id, In id v -> intersects u id = true))
  /\ (forall u v id, In id v -> intersects u id = false ->
                     intersectsUnion u v = false)
  /\ (exists u v id,
         Normal.normalized u /\ Normal.normalized v
         /\ In id v /\ intersects u id = true /\ intersectsUnion u v = false).
Proof.
  assert (Hiff : forall u v, intersectsUnion u v = true <->
                             (forall id, In id v -> intersects u id = true)).
  { intros u v. induction v as [| a v IH]; simpl.
    - split; [intros _ id [] | reflexivity].
    - destruct (intersects u a) eqn:Ea; simpl.
      + rewrite IH. split.
        * intros H id [<- | Hin]; auto.
        * intros H id Hin. apply H. auto.
      + split; [discriminate|]. intros H.
        rewrite <- Ea. apply H. auto. }
  split; [exact Hiff | split].
  - intros u v id Hin Hno.
    destruct (intersectsUnion u v) eqn:E; [|reflexivity].
    rewrite Hiff in E. rewrite (E id Hin) in Hno. discriminate.
  - exists [fromFace 0], [fromFace 0; fromFace 1], (fromFace 0).
    repeat split; try (vm_compute; reflexivity). simpl. auto.
Qed.

(** [intersectsUnion_every_cell] at a concrete input, with its hypotheses evaluated there. *)
Lemma intersectsUnion_every_cell_witness :
  let u := [fromFace 0] in
  let v := [fromFace 0; fromFace 1] in
  In (fromFace 1) v /\ intersects u (fromFace 1) = false
  /\ intersectsUnion u v = false.
Proof.
  intros u v.
  assert (Hin : In (fromFace 1) v) by (simpl; auto).
  assert (Hno : intersects u (fromFace 1) = false) by (vm_compute; reflexivity).
  exact (conj Hin (conj Hno
           (proj1 (proj2 intersectsUnion_every_cell) u v (fromFace 1) Hin Hno))).
Defined.

End UnionPredicateTheorems.

(** ** expand: failure and termination *)

Module ExpandTermination.

Import S2CellId S2CellUnion ArrayFacts.

Lemma cellId_in_range (u : list Z) (i : Z) :
  0 <= i < size u -> cellId u i = Ok (u.[i]).
Proof.
  unfold size, cellId, at_. intros H.
  destruct (Z.ltb_spec i 0); [lia|].
  destruct (nth_error u (Z.to_nat i)) eqn:E.
  - f_equal. symmetry. apply nth_error_nth. exact E.
  - apply nth_error_None in E. lia.
Qed.

Lemma cellId_outside (u : list Z) (i : Z) :
  i < 0 \/ size u <= i -> cellId u i = TypeError.
Proof.
  unfold size, cellId. intros H.
  destruct (Z.ltb_spec i 0); [reflexivity|].
  destruct (nth_error u (Z.to_nat i)) eqn:E; [|reflexivity].
  assert (nth_error u (Z.to_nat i) <> None) by congruence.
  apply nth_error_Some in H1. lia.
Qed.

(** The skipping loop yields an index between 0 and the one it starts at. *)
Lemma skipContained_total (u : list Z) (id : Z) (f : nat) :
  forall i, 0 <= i < size u -> (Z.to_nat i < f)%nat ->
  exists i', skipContained f u id i = Ok i' /\ 0 <= i' <= i.
Proof.
  induction f as [| f IH]; intros i Hi Hf; [lia|]. simpl.
  destruct (Z.ltb_spec 0 i) as [Hpos | Hpos].
  - rewrite cellId_in_range by lia. simpl.
    destruct (S2CellId.contains id (u.[i - 1])).
    + destruct (IH (i - 1)) as (i' & E & Hb); [lia | lia |].
      exists i'. split; [exact E | lia].
    + exists i. split; [reflexivity | lia].
  - exists i. split; [reflexivity | lia].
Qed.

Section Loop.

Variable getAllNeighbors : Z -> Z -> list Z.

(** With an index inside the array and fuel above it the loop of expand
    ends with an output. *)
Lemma expandLoop_total (u : list Z) (level levelLsb : Z) (f : nat) :
  forall i output, 0 <= i < size u -> (Z.to_nat i < f)%nat ->
  exists r, expandLoop getAllNeighbors f u level levelLsb i output = Ok r.
Proof.
  induction f as [| f IH]; intros i output Hi Hf; [lia|]. simpl.
  rewrite cellId_in_range by lia. simpl.
  destruct (lowestOnBit (u.[i]) <? levelLsb).
  - destruct (skipContained_total u (parentL (u.[i]) level) (length u) i)
      as (i' & E & Hb); [lia | unfold size in Hi; lia |].
    rewrite E. simpl.
    destruct (Z.leb_spec 0 (i' - 1)).
    + apply IH; lia.
    + eexists. reflexivity.
  - simpl. destruct (Z.leb_spec 0 (i - 1)).
    + apply IH; lia.
    + eexists. reflexivity.
Qed.

(** C10: on the empty union expand reads the entry at index -1, which is
    undefined, and throws instead of returning an empty union; on every
    non-empty union it returns. *)
Theorem expand_fails_on_empty :
  (forall level, expand getAllNeighbors [] level = TypeError)
  /\ (forall u level, u <> [] -> exists r, expand getAllNeighbors u level = Ok r).
Proof.
  split.
  - intros level. reflexivity.
  - intros u level Hne. unfold expand, expandOutput.
    destruct (expandLoop_total u level (lowestOnBitForLevel level)
                (length u + 1) (size u - 1) []) as (r & E).
    + unfold size. destruct u; [contradiction | simpl length; lia].
    + unfold size. lia.
    + rewrite E. simpl. eexists. reflexivity.
Qed.

End Loop.

(** [expand_fails_on_empty] at a concrete input, with its hypotheses evaluated there. *)
Lemma expand_fails_on_empty_witness :
  [fromFace 0] <> []
  /\ exists r, expand (fun _ _ => []) [fromFace 0] 1 = Ok r.
Proof.
  assert (Hne : [fromFace 0] <> []) by discriminate.
  exact (conj Hne (proj2 (expand_fails_on_empty (fun _ _ => [])) [fromFace 0] 1 Hne)).
Defined.

End ExpandTermination.

(** ** Searching a normalized union *)

Module SearchFacts.

Import S2CellId S2CellUnion ArrayFacts CellFacts SortFacts Inv NormalFacts.

Lemma insertionPoint_spec (ids : list Z) (key : Z) :
  forall low,
    (insertionPoint ids key low <= length ids)%nat
    /\ ((low <= length ids)%nat -> (low <= insertionPoint ids key low)%nat)
    /\ (forall i, (low <= i < insertionPoint ids key low)%nat -> nth i ids 0 < key)
    /\ ((insertionPoint ids key low < length ids)%nat ->
        key <= nth (insertionPoint ids key low) ids 0).
Proof.
  induction ids as [| c ids IH]; intros low; simpl.
  - repeat split; intros; lia.
  - destruct low as [| low].
    + destruct (Z.ltb_spec c key) as [Hc | Hc].
      * destruct (IH O) as (H1 & H2 & H3 & H4).
        split; [lia | split; [lia | split]].
        -- intros [| i] Hi; [exact Hc | apply H3; lia].
        -- intros Hlt. apply H4. lia.
      * repeat split; intros; lia.
    + destruct (IH low) as (H1 & H2 & H3 & H4).
      split; [lia | split; [lia | split]].
      * intros [| i] Hi; [lia | apply H3; lia].
      * intros Hlt. apply H4. lia.
Qed.

(** Both encodings of the result of the search decode to the insertion
    point. *)
Lemma binarySearch_pos (u : list Z) (id : Z) :
  (let pos := binarySearch u id in if pos <? 0 then - pos - 1 else pos)
  = Z.of_nat (insertionPoint u id 0).
Proof.
  unfold binarySearch. cbv zeta.
  set (p := insertionPoint u id 0).
  assert (Hneg : (if - (Z.of_nat p + 1) <? 0 then - - (Z.of_nat p + 1) - 1
                  else - (Z.of_nat p + 1)) = Z.of_nat p).
  { destruct (Z.ltb_spec (- (Z.of_nat p + 1)) 0); lia. }
  assert (Hpos : (if Z.of_nat p <? 0 then - Z.of_nat p - 1 else Z.of_nat p) = Z.of_nat p).
  { destruct (Z.ltb_spec (Z.of_nat p) 0); lia. }
  destruct (nth_error u p) as [c |]; [|exact Hneg].
  destruct (c =? id); assumption.
Qed.

Lemma contains_unfold (u : list Z) (id : Z) :
  S2CellUnion.contains u id =
  let p := Z.of_nat (insertionPoint u id 0) in
  if (p <? size u) && (rangeMin (u.[p]) <=? id) then true
  else negb (p =? 0) && (id <=? rangeMax (u.[p - 1])).
Proof.
  unfold S2CellUnion.contains. rewrite binarySearch_pos. reflexivity.
Qed.

Lemma sorted_nth (u : list Z) :
  StronglySorted Z.lt u ->
  forall i j, (i < j < length u)%nat -> nth i u 0 < nth j u 0.
Proof.
  induction 1 as [| a u Hs IH Ha]; intros i j Hij; simpl in *; [lia|].
  destruct j as [| j]; [lia|]. destruct i as [| i].
  - rewrite Forall_forall in Ha. apply Ha, nth_In. lia.
  - apply IH. lia.
Qed.

(** A positive answer of [contains] points at an entry that contains the
    identifier. *)
Lemma contains_sound (u : list Z) (id : Z) :
  Forall cell u -> cell id ->
  S2CellUnion.contains u id = true -> Normal.covers u id.
Proof.
  intros Hu Hid. rewrite contains_unfold. cbv zeta.
  destruct (insertionPoint_spec u id 0) as (H1 & _ & H3 & H4).
  set (p := insertionPoint u id 0) in *.
  rewrite Forall_forall in Hu.
  destruct ((Z.of_nat p <? size u) && (rangeMin (u.[Z.of_nat p]) <=? id)) eqn:E1.
  - intros _. apply andb_true_iff in E1. destruct E1 as [Hlt Hmin].
    apply Z.ltb_lt in Hlt. apply Z.leb_le in Hmin. unfold size in Hlt.
    unfold at_ in *. rewrite Nat2Z.id in *.
    assert (Hin : In (nth p u 0) u) by (apply nth_In; lia).
    exists (nth p u 0). split; [exact Hin|].
    pose proof (range_bounds _ (Hu _ Hin)).
    apply in_range_contains; auto. specialize (H4 ltac:(lia)). lia.
  - intros H. apply andb_true_iff in H. destruct H as [Hp Hmax].
    apply negb_true_iff, Z.eqb_neq in Hp. apply Z.leb_le in Hmax.
    unfold at_ in Hmax.
    replace (Z.to_nat (Z.of_nat p - 1)) with (p - 1)%nat in Hmax by lia.
    assert (Hin : In (nth (p - 1) u 0) u) by (apply nth_In; lia).
    exists (nth (p - 1) u 0). split; [exact Hin|].
    pose proof (range_bounds _ (Hu _ Hin)).
    apply in_range_contains; auto. specialize (H3 (p - 1)%nat ltac:(lia)). lia.
Qed.

(** On a strictly ascending union without containment, [contains] finds
    every identifier that an entry contains. *)
Lemma contains_complete (u : list Z) (id : Z) :
  StronglySorted Z.lt u -> antichain u -> Forall cell u -> cell id ->
  Normal.covers u id -> S2CellUnion.contains u id = true.
Proof.
  intros Hs Ha Hu Hid (c & Hc & Hcid).
  rewrite contains_unfold. cbv zeta.
  destruct (insertionPoint_spec u id 0) as (H1 & _ & H3 & H4).
  set (p := insertionPoint u id 0) in *.
  rewrite Forall_forall in Hu.
  destruct (In_nth u c 0 Hc) as (k & Hk & Ek).
  pose proof (contains_in_range c id Hid Hcid) as Hr.
  pose proof (range_bounds c (Hu c Hc)) as Hbc.
  assert (Hnest : forall j, (j < length u)%nat -> j <> k ->
                            rangeMin c <= nth j u 0 <= rangeMax c -> False).
  { intros j Hj Hjk Hrange.
    assert (Hin : In (nth j u 0) u) by (apply nth_In; lia).
    pose proof (in_range_contains c _ (Hu c Hc) (Hu _ Hin) Hrange) as Hcon.
    rewrite (Ha c (nth j u 0)) in Hcon; [discriminate | assumption | assumption |].
    rewrite <- Ek.
    destruct (Nat.lt_trichotomy j k) as [Hlt | [Heq | Hgt]]; [| contradiction |].
    - pose proof (sorted_nth u Hs j k ltac:(lia)). lia.
    - pose proof (sorted_nth u Hs k j ltac:(lia)). lia. }
  unfold at_, size. rewrite Nat2Z.id.
  destruct (Nat.lt_trichotomy k p) as [Hlt | [Heq | Hgt]].
  - (* the containing entry lies before the insertion point *)
    assert (Hpk : k = (p - 1)%nat).
    { destruct (Nat.eq_dec k (p - 1)) as [| Hne]; [assumption | exfalso].
      apply (Hnest (p - 1)%nat); [lia | lia |].
      pose proof (sorted_nth u Hs k (p - 1)%nat ltac:(lia)).
      pose proof (H3 (p - 1)%nat ltac:(lia)). lia. }
    replace (Z.to_nat (Z.of_nat p - 1)) with (p - 1)%nat by lia.
    rewrite <- Hpk, Ek.
    destruct ((Z.of_nat p <? Z.of_nat (length u)) && (rangeMin (nth p u 0) <=? id));
      [reflexivity|].
    apply andb_true_iff. split.
    + apply negb_true_iff, Z.eqb_neq. lia.
    + apply Z.leb_le. lia.
  - subst p. rewrite Heq in Ek. rewrite <- Heq.
    replace (Z.of_nat k <? Z.of_nat (length u)) with true by (symmetry; apply Z.ltb_lt; lia).
    rewrite <- Heq in Ek. rewrite Ek.
    replace (rangeMin c <=? id) with true by (symmetry; apply Z.leb_le; lia).
    reflexivity.
  - exfalso. apply (Hnest p); [lia | lia |].
    pose proof (sorted_nth u Hs p k ltac:(lia)).
    specialize (H4 ltac:(lia)). lia.
Qed.

End SearchFacts.

(** ** The canonical form produced by normalize *)

Module CanonicalFacts.

Import S2CellId S2CellUnion ArrayFacts CellFacts SortFacts StepFacts Inv.
Import NormalizeFacts NormalFacts.

Lemma snoc_le_top (p : list Z) (t a : Z) :
  StronglySorted Z.lt (p ++ [t]) -> In a (p ++ [t]) -> a <= t.
Proof.
  intros Hs Ha. apply ss_snoc in Hs. destruct Hs as [_ Hlt].
  apply in_app_or in Ha. destruct Ha as [Ha | [<- | []]]; [|lia].
  specialize (Hlt a Ha). lia.
Qed.

Lemma step_incl (o : list Z) (id a : Z) :
  StronglySorted Z.lt o -> Forall (fun a => 0 <= a <= id) o ->
  In a (normalizeStep o id) -> In a o \/ a = id.
Proof.
  intros Hs Hb Ha.
  destruct (step_cases o id Hs Hb) as [[E _] | (keep & drop & E & En & _)].
  - rewrite E in Ha. auto.
  - rewrite En in Ha. subst o. rewrite !in_app_iff in *. simpl in Ha.
    destruct Ha as [Ha | [<- | []]]; auto.
Qed.

(** A step keeps the output free of containment. *)
Lemma step_antichain (o : list Z) (id : Z) :
  StronglySorted Z.lt o -> Forall (fun a => 0 <= a <= id) o ->
  antichain o -> Forall cell o -> cell id ->
  antichain (normalizeStep o id).
Proof.
  intros Hs Hb Ha Hc Hid.
  destruct (step_cases o id Hs Hb)
    as [[E _] | (keep & drop & E & En & _ & Hk & Hlt & Htop)].
  - rewrite E. exact Ha.
  - rewrite En. rewrite Forall_forall in Hc, Hlt.
    assert (Hkeep : forall a, In a keep -> In a o).
    { intros a Hin. rewrite E. apply in_or_app. auto. }
    assert (Hnew : forall a, In a keep ->
                S2CellId.contains a id = false /\ S2CellId.contains id a = false).
    { intros a Hin. pose proof (Hkeep a Hin) as Hao.
      pose proof (range_bounds a (Hc a Hao)) as Hra.
      pose proof (range_bounds id Hid) as Hri.
      split.
      - destruct (S2CellId.contains a id) eqn:Ec; [exfalso | reflexivity].
        pose proof (contains_in_range a id Hid Ec) as Hr.
        destruct (snoc_cases o) as [Eo | (p & t & Eo)]; [rewrite Eo in Hao; contradiction|].
        assert (Hto : In t o) by (rewrite Eo; apply in_or_app; simpl; auto).
        assert (Hat : a <= t) by (rewrite Eo in Hs, Hao; eapply snoc_le_top; eauto).
        pose proof (Hlt t Hto) as Htid.
        destruct (Z.eq_dec a t) as [-> | Hne].
        + rewrite (Htop p t Eo) in Ec. discriminate.
        + assert (Hcon : S2CellId.contains a t = true).
          { apply in_range_contains; auto. lia. }
          rewrite (Ha a t Hao Hto Hne) in Hcon. discriminate.
      - destruct (S2CellId.contains id a) eqn:Ec; [exfalso | reflexivity].
        pose proof (contains_in_range id a (Hc a Hao) Ec) as Hr.
        destruct (snoc_cases keep) as [Ek | (k & t & Ek)]; [rewrite Ek in Hin; contradiction|].
        assert (Htk : In t keep) by (rewrite Ek; apply in_or_app; simpl; auto).
        assert (Hsk : StronglySorted Z.lt keep).
        { rewrite E in Hs. apply ss_app in Hs. tauto. }
        assert (Hat : a <= t) by (rewrite Ek in Hsk, Hin; eapply snoc_le_top; eauto).
        pose proof (Hlt t (Hkeep t Htk)) as Htid.
        assert (Hcon : S2CellId.contains id t = true).
        { apply in_range_contains; auto. lia. }
        rewrite (Hk k t Ek) in Hcon. discriminate. }
    intros a b Hain Hbin Hne. rewrite in_app_iff in Hain, Hbin. simpl in Hain, Hbin.
    destruct Hain as [Hain | [<- | []]]; destruct Hbin as [Hbin | [<- | []]].
    + apply Ha; auto.
    + apply Hnew; assumption.
    + apply Hnew; assumption.
    + contradiction.
Qed.

Lemma fold_antichain (rest : list Z) :
  forall done, stepPre done rest -> antichain done ->
               Forall cell done -> Forall cell rest ->
               antichain (fold_left normalizeStep rest done).
Proof.
  induction rest as [| id rest IH]; intros done Hpre Ha Hd Hr; simpl; [assumption|].
  destruct (stepPre_bounds _ _ _ Hpre) as [Hs Hb].
  inversion Hr as [| ? ? Hid Hr']; subst.
  apply IH.
  - apply stepPre_step, Hpre.
  - apply step_antichain; assumption.
  - apply Forall_forall. intros a Hin.
    destruct (step_incl done id a Hs Hb Hin) as [H | ->]; [|assumption].
    rewrite Forall_forall in Hd. auto.
  - assumption.
Qed.

Lemma cell_u64 (l : list Z) : Forall cell l -> Forall u64 l.
Proof.
  intros H. eapply Forall_impl; [|exact H]. unfold cell, u64. intros; lia.
Qed.

(** The array stored by normalize is the output of its loop, also when the
    call reports no reduction. *)
Lemma normalize_snd (l : list Z) :
  Forall u64 l -> snd (normalize l) = fold_left normalizeStep (sort l) [].
Proof.
  intros Hu. unfold normalize.
  pose proof (stepPre_start l Hu) as Hpre.
  destruct (fold_length _ _ Hpre) as [Hle Heq]. unfold size.
  destruct (Z.ltb_spec (Z.of_nat (length (fold_left normalizeStep (sort l) [])))
              (Z.of_nat (length (sort l)))); simpl; [reflexivity|].
  symmetry. apply Heq. simpl in *. lia.
Qed.

(** What normalize stores: strictly ascending cells, none containing
    another, that cover every cell of the input. *)
Lemma normalize_canonical (l : list Z) :
  Forall cell l ->
  StronglySorted Z.lt (snd (normalize l))
  /\ antichain (snd (normalize l))
  /\ Forall cell (snd (normalize l))
  /\ (forall a, In a l -> Normal.covers (snd (normalize l)) a).
Proof.
  intros Hc. pose proof (cell_u64 l Hc) as Hu.
  rewrite normalize_snd by assumption.
  pose proof (stepPre_start l Hu) as Hpre.
  assert (Hcs : Forall cell (sort l)).
  { eapply Permutation_Forall; [apply sort_perm | exact Hc]. }
  split; [apply fold_sorted; assumption | split; [|split]].
  - apply fold_antichain; auto. intros a b [].
  - pose proof (fold_incl _ _ Hpre) as Hi. simpl in Hi.
    rewrite Forall_forall in *. intros a Ha. apply Hcs, Hi, Ha.
  - intros a Ha. apply fold_covers; [assumption|]. simpl.
    eapply Permutation_in; [apply sort_perm | exact Ha].
Qed.

End CanonicalFacts.

(** ** expand covers the original union *)

Module ExpandCoverage.

Import S2CellId S2CellUnion ArrayFacts CellFacts SortFacts Inv.
Import NormalFacts HierarchyFacts ExpandTermination SearchFacts CanonicalFacts.

Lemma covers_app_l (l l' : list Z) (id : Z) :
  Normal.covers l id -> Normal.covers (l ++ l') id.
Proof.
  intros (c & Hc & H). exists c. split; [apply in_or_app; auto | exact H].
Qed.

Lemma covers_trans (l : list Z) (c id : Z) :
  Normal.covers l c -> S2CellId.contains c id = true -> Normal.covers l id.
Proof.
  intros (a & Ha & H) Hc. exists a. split; [exact Ha|].
  eapply contains_trans; eassumption.
Qed.

(** The skipping loop stops at the first entry, going backward, that the
    ancestor does not contain. *)
Lemma skipContained_spec (u : list Z) (id : Z) (f : nat) :
  forall i, 0 <= i < size u -> (Z.to_nat i < f)%nat ->
  exists i', skipContained f u id i = Ok i' /\ 0 <= i' <= i
             /\ (forall k, i' <= k < i -> S2CellId.contains id (u.[k]) = true)
             /\ (0 < i' -> S2CellId.contains id (u.[i' - 1]) = false).
Proof.
  induction f as [| f IH]; intros i Hi Hf; [lia|]. simpl.
  destruct (Z.ltb_spec 0 i) as [Hpos | Hpos].
  - rewrite cellId_in_range by lia. simpl.
    destruct (S2CellId.contains id (u.[i - 1])) eqn:Ec.
    + destruct (IH (i - 1)) as (i' & E & Hb & Hin & Hout); [lia | lia |].
      exists i'. repeat split; try assumption; try lia.
      intros k Hk. destruct (Z.eq_dec k (i - 1)) as [-> | ]; [exact Ec|].
      apply Hin. lia.
    + exists i. repeat split; try lia. intros _. exact Ec.
  - exists i. repeat split; lia.
Qed.

Section Coverage.

Variable getAllNeighbors : Z -> Z -> list Z.

Hypothesis neighbors_cells : forall c lvl, Forall cell (getAllNeighbors c lvl).

Variable u : list Z.

Variable level : Z.

Hypothesis u_cells : Forall cell u.

Hypothesis level_valid : 0 <= level <= 30.

(** Every entry of the union is inside a cell of the array that expand
    hands to initSwap. *)
Lemma expandLoop_covers (f : nat) :
  forall i out r,
    0 <= i < size u ->
    expandLoop getAllNeighbors f u level (lowestOnBitForLevel level) i out = Ok r ->
    Forall cell out ->
    (forall k, i < k < size u -> Normal.covers out (u.[k])) ->
    Forall cell r /\ (forall k, 0 <= k < size u -> Normal.covers r (u.[k])).
Proof.
  induction f as [| f IH]; intros i out r Hi Hrun Hout Hcov; [discriminate|].
  simpl in Hrun. rewrite cellId_in_range in Hrun by lia. simpl in Hrun.
  assert (Hci : cell (u.[i])).
  { rewrite Forall_forall in u_cells. apply u_cells, at_In. lia. }
  destruct (Z.ltb_spec (lowestOnBit (u.[i])) (lowestOnBitForLevel level)) as [Hfine | Hcoarse].
  - destruct (parentL_ancestor (u.[i]) level Hci level_valid Hfine) as (Hca & Hcon & _).
    destruct (skipContained_spec u (parentL (u.[i]) level) (length u) i)
      as (i' & E & Hb & Hin & _); [lia | unfold size in Hi; lia |].
    rewrite E in Hrun. simpl in Hrun.
    set (a := parentL (u.[i]) level) in *.
    assert (Hout' : Forall cell ((out ++ [a]) ++ getAllNeighbors a level)).
    { repeat (apply Forall_app; split); auto. }
    assert (Hcov' : forall k, i' - 1 < k < size u ->
                Normal.covers ((out ++ [a]) ++ getAllNeighbors a level) (u.[k])).
    { intros k Hk. destruct (Z_lt_le_dec i k) as [Hgt | Hle].
      - apply covers_app_l, covers_app_l, Hcov. lia.
      - exists a. split; [rewrite !in_app_iff; simpl; auto|].
        destruct (Z.eq_dec k i) as [-> | ]; [exact Hcon | apply Hin; lia]. }
    destruct (Z.leb_spec 0 (i' - 1)).
    + eapply IH; [| exact Hrun | exact Hout' | exact Hcov']. lia.
    + injection Hrun as <-. split; [exact Hout'|].
      intros k Hk. apply Hcov'. lia.
  - simpl in Hrun.
    assert (Hout' : Forall cell ((out ++ [u.[i]]) ++ getAllNeighbors (u.[i]) level)).
    { repeat (apply Forall_app; split); auto. }
    assert (Hcov' : forall k, i - 1 < k < size u ->
                Normal.covers ((out ++ [u.[i]]) ++ getAllNeighbors (u.[i]) level) (u.[k])).
    { intros k Hk. destruct (Z_lt_le_dec i k) as [Hgt | Hle].
      - apply covers_app_l, covers_app_l, Hcov. lia.
      - replace k with i by lia.
        exists (u.[i]). split; [rewrite !in_app_iff; simpl; auto | apply contains_refl]. }
    destruct (Z.leb_spec 0 (i - 1)).
    + eapply IH; [| exact Hrun | exact Hout' | exact Hcov']. lia.
    + injection Hrun as <-. split; [exact Hout'|].
      intros k Hk. apply Hcov'. lia.
Qed.

End Coverage.

(** C6: on a normalized union of valid identifiers, for a level between 0
    and 30 and a neighbour enumeration that yields cells, expand returns,
    and every identifier that the union contained before the call is
    contained by the union stored afterwards. *)
Theorem expand_contains_original
  (getAllNeighbors : Z -> Z -> list Z) (u : list Z) (level id : Z) :
  (forall c lvl, Forall cell (getAllNeighbors c lvl)) ->
  Forall validId u -> Normal.normalized u -> 0 <= level <= 30 ->
  cell id ->
  S2CellUnion.contains u id = true ->
  exists u', expand getAllNeighbors u level = Ok u'
             /\ S2CellUnion.contains u' id = true.
Proof.
  intros Hnb Hv _ Hlevel Hid Hcon.
  pose proof (valid_cells u Hv) as u_cells.
  destruct (contains_sound u id u_cells Hid Hcon) as (c & Hc & Hcid).
  assert (Hne : 0 < size u).
  { unfold size. destruct u; [contradiction | simpl length; lia]. }
  destruct (expandLoop_total getAllNeighbors u level (lowestOnBitForLevel level)
              (length u + 1) (size u - 1) []) as (o & Eo);
    [lia | unfold size; lia |].
  destruct (expandLoop_covers getAllNeighbors Hnb u level u_cells Hlevel
              (length u + 1) (size u - 1) [] o ltac:(lia) Eo)
    as [Hoc Hocov].
  { constructor. }
  { intros k Hk. lia. }
  unfold expand, expandOutput. rewrite Eo. simpl.
  exists (initSwap o). split; [reflexivity|].
  unfold initSwap.
  destruct (normalize_canonical o Hoc) as (Hs & Ha & Hcells & Hncov).
  apply contains_complete; auto.
  destruct (In_nth u c 0 Hc) as (k & Hk & Ek).
  destruct (Hocov (Z.of_nat k)) as (a & Hao & Hac); [unfold size; lia|].
  unfold at_ in Hac. rewrite Nat2Z.id, Ek in Hac.
  eapply covers_trans; [|exact Hcid].
  eapply covers_trans; [|exact Hac].
  apply Hncov, Hao.
Qed.


(** [expand_contains_original] at a concrete input, with its hypotheses evaluated there. *)
Lemma expand_contains_original_witness :
  let nb := fun _ _ : Z => @nil Z in
  let u := [child (fromFace 0) 1] in
  let id := rangeMin (child (fromFace 0) 1) in
  (forall c lvl, Forall cell (nb c lvl)) /\ Forall validId u
  /\ Normal.normalized u /\ 0 <= 0 <= 30
  /\ cell id /\ S2CellUnion.contains u id = true
  /\ exists u', expand nb u 0 = Ok u' /\ S2CellUnion.contains u' id = true.
Proof.
  intros nb u id.
  assert (Hnb : forall c lvl, Forall cell (nb c lvl)) by (intros; constructor).
  assert (Hu : Forall validId u).
  { repeat constructor; vm_compute; try reflexivity; intro H; discriminate H. }
  assert (Hl : 0 <= 0 <= 30) by lia.
  assert (Hn : Normal.normalized u) by (vm_compute; reflexivity).
  assert (Hid : cell id) by (vm_compute; split; reflexivity).
  assert (Hc : S2CellUnion.contains u id = true) by (vm_compute; reflexivity).
  exact (conj Hnb (conj Hu (conj Hn (conj Hl (conj Hid (conj Hc
           (expand_contains_original nb u 0 id Hnb Hu Hn Hl Hid Hc))))))).
Defined.

End ExpandCoverage.

(** ** The sweep of getIntersectionUU *)

Module SweepFacts.

Import S2CellId S2CellUnion ArrayFacts CellFacts SortFacts Inv.
Import NormalFacts ExpandTermination SearchFacts LeafTheorems.

Lemma nc_cell (x : list Z) (i : nat) :
  normalCells x -> (i < length x)%nat -> cell (nth i x 0).
Proof.
  intros (_ & _ & Hc) Hi. rewrite Forall_forall in Hc. apply Hc, nth_In, Hi.
Qed.

Lemma nc_not_nested (x : list Z) (i1 i2 : nat) :
  normalCells x -> (i1 < length x)%nat -> (i2 < length x)%nat -> i1 <> i2 ->
  S2CellId.contains (nth i1 x 0) (nth i2 x 0) = false.
Proof.
  intros (Hs & Ha & _) H1 H2 Hne. apply Ha; try (apply nth_In; assumption).
  destruct (Nat.lt_trichotomy i1 i2) as [Hlt | [Heq | Hgt]]; [| contradiction |].
  - pose proof (sorted_nth x Hs i1 i2 ltac:(lia)). lia.
  - pose proof (sorted_nth x Hs i2 i1 ltac:(lia)). lia.
Qed.

(** In a normal list the ranges follow one another. *)
Lemma nc_apart (x : list Z) (i1 i2 : nat) :
  normalCells x -> (i1 < i2 < length x)%nat ->
  rangeMax (nth i1 x 0) + 2 <= rangeMin (nth i2 x 0).
Proof.
  intros Hn Hi. pose proof Hn as (Hs & _ & _).
  apply blocks_ordered.
  - apply nc_cell; [assumption | lia].
  - apply nc_cell; [assumption | lia].
  - apply sorted_nth; assumption.
  - apply nc_not_nested; try assumption; lia.
  - apply nc_not_nested; try assumption; lia.
Qed.

Lemma nc_apart_le (x : list Z) (i1 i2 : nat) :
  normalCells x -> (i1 <= i2 < length x)%nat ->
  rangeMin (nth i1 x 0) <= rangeMin (nth i2 x 0)
  /\ rangeMax (nth i1 x 0) <= rangeMax (nth i2 x 0).
Proof.
  intros Hn Hi. destruct (Nat.eq_dec i1 i2) as [-> | Hne]; [lia|].
  pose proof (nc_apart x i1 i2 Hn ltac:(lia)).
  pose proof (range_bounds _ (nc_cell x i1 Hn ltac:(lia))).
  pose proof (range_bounds _ (nc_cell x i2 Hn ltac:(lia))). lia.
Qed.

Section Sweep.

Variables x y : list Z.

Hypothesis x_normal : normalCells x.

Hypothesis y_normal : normalCells y.

Lemma loop_exit (f : nat) (i j : nat) (out : list Z) :
  ~ ((i < length x)%nat /\ (j < length y)%nat) ->
  intersectionLoop (S f) x y (Z.of_nat i) (Z.of_nat j) out = Ok out.
Proof.
  intros H. cbn [intersectionLoop]. unfold size.
  destruct (Z.ltb_spec (Z.of_nat i) (Z.of_nat (length x)));
    destruct (Z.ltb_spec (Z.of_nat j) (Z.of_nat (length y)));
    simpl; try reflexivity. exfalso. apply H. lia.
Qed.

(** One turn of the loop, on indices inside the two arrays. *)
Lemma loop_turn (f : nat) (i j : nat) (out : list Z) :
  (i < length x)%nat -> (j < length y)%nat ->
  intersectionLoop (S f) x y (Z.of_nat i) (Z.of_nat j) out =
  let xi := nth i x 0 in
  let yj := nth j y 0 in
  if rangeMin yj <? rangeMin xi then
    if xi <=? rangeMax yj then
      intersectionLoop f x y (Z.of_nat (S i)) (Z.of_nat j) (out ++ [xi])
    else
      let p := insertionPoint y (rangeMin xi) (S j) in
      if xi <=? rangeMax (nth (p - 1) y 0)
      then intersectionLoop f x y (Z.of_nat i) (Z.of_nat (p - 1)) out
      else intersectionLoop f x y (Z.of_nat i) (Z.of_nat p) out
  else if rangeMin xi <? rangeMin yj then
    if yj <=? rangeMax xi then
      intersectionLoop f x y (Z.of_nat i) (Z.of_nat (S j)) (out ++ [yj])
    else
      let p := insertionPoint x (rangeMin yj) (S i) in
      if yj <=? rangeMax (nth (p - 1) x 0)
      then intersectionLoop f x y (Z.of_nat (p - 1)) (Z.of_nat j) out
      else intersectionLoop f x y (Z.of_nat p) (Z.of_nat j) out
  else
    if xi <? yj
    then intersectionLoop f x y (Z.of_nat (S i)) (Z.of_nat j) (out ++ [xi])
    else intersectionLoop f x y (Z.of_nat i) (Z.of_nat (S j)) (out ++ [yj]).
Proof.
  intros Hi Hj. cbn [intersectionLoop]. unfold size.
  replace (Z.of_nat i <? Z.of_nat (length x)) with true by (symmetry; apply Z.ltb_lt; lia).
  replace (Z.of_nat j <? Z.of_nat (length y)) with true by (symmetry; apply Z.ltb_lt; lia).
  cbn [andb].
  rewrite !cellId_in_range by (unfold size; lia). cbn [bind].
  unfold at_. rewrite !Nat2Z.id. cbv zeta.
  unfold indexedBinarySearch.
  replace (Z.to_nat (Z.of_nat j + 1)) with (S j) by lia.
  replace (Z.to_nat (Z.of_nat i + 1)) with (S i) by lia.
  replace (Z.of_nat i + 1) with (Z.of_nat (S i)) by lia.
  replace (Z.of_nat j + 1) with (Z.of_nat (S j)) by lia.
  destruct (insertionPoint_spec y (rangeMin (nth i x 0)) (S j)) as (Hy1 & Hy2 & _).
  destruct (insertionPoint_spec x (rangeMin (nth j y 0)) (S i)) as (Hx1 & Hx2 & _).
  set (py := insertionPoint y (rangeMin (nth i x 0)) (S j)) in *.
  set (px := insertionPoint x (rangeMin (nth j y 0)) (S i)) in *.
  specialize (Hy2 ltac:(lia)). specialize (Hx2 ltac:(lia)).
  rewrite (cellId_in_range y (Z.of_nat py - 1)) by (unfold size; lia).
  rewrite (cellId_in_range x (Z.of_nat px - 1)) by (unfold size; lia).
  cbn [bind]. unfold at_.
  replace (Z.to_nat (Z.of_nat py - 1)) with (py - 1)%nat by lia.
  replace (Z.to_nat (Z.of_nat px - 1)) with (px - 1)%nat by lia.
  replace (Z.of_nat py - 1) with (Z.of_nat (py - 1)) by lia.
  replace (Z.of_nat px - 1) with (Z.of_nat (px - 1)) by lia.
  reflexivity.
Qed.

End Sweep.

Lemma inter_sym (x y : list Z) (c : Z) : inter x y c -> inter y x c.
Proof.
  unfold inter. tauto.
Qed.

Lemma loopInv_sym (x y : list Z) (i j : nat) (out : list Z) :
  loopInv x y i j out -> loopInv y x j i out.
Proof.
  intros (H1 & H2 & H3 & H4 & H5 & H6 & H7).
  repeat split; try assumption.
  - intros o Ho. destruct (H4 o Ho); auto.
  - intros o Ho. apply inter_sym, H5, Ho.
  - intros i' j' Hi' Hj' Hor. apply H7; auto. tauto.
  - intros i' j' Hi' Hj' Hor. apply H6; auto. tauto.
Qed.

Section Moves.

Variables x y : list Z.

Hypothesis x_normal : normalCells x.

Hypothesis y_normal : normalCells y.

(** The entry under the cursor of [x] is inside the entry under the cursor
    of [y]: it is pushed and its cursor moves on. *)
Lemma inv_push (i j : nat) (out : list Z) :
  loopInv x y i j out -> (i < length x)%nat -> (j < length y)%nat ->
  S2CellId.contains (nth j y 0) (nth i x 0) = true ->
  loopInv x y (S i) j (out ++ [nth i x 0]).
Proof.
  intros (H1 & H2 & H3 & H4 & H5 & H6 & H7) Hi Hj Hcon.
  pose proof x_normal as (Hsx & _ & _).
  pose proof (nc_cell x i x_normal Hi) as Hcx.
  pose proof (nc_cell y j y_normal Hj) as Hcy.
  pose proof (range_bounds _ Hcx) as Hbx.
  assert (Hcon' := Hcon). unfold S2CellId.contains in Hcon'.
  apply andb_true_iff in Hcon'. rewrite !Z.leb_le in Hcon'.
  split; [lia | split; [assumption | split; [|split; [|split; [|split]]]]].
  - apply ss_snoc. split; [assumption|]. intros o Ho.
    destruct (H4 o Ho) as [(i' & Hi' & ->) | (j' & Hj' & ->)].
    + apply sorted_nth; [assumption | lia].
    + pose proof (nc_apart y j' j y_normal ltac:(lia)).
      pose proof (range_bounds _ (nc_cell y j' y_normal ltac:(lia))). lia.
  - intros o Ho. apply in_app_or in Ho. destruct Ho as [Ho | [<- | []]].
    + destruct (H4 o Ho) as [(i' & Hi' & ->) | (j' & Hj' & ->)].
      * left. exists i'. split; [lia | reflexivity].
      * right. exists j'. split; [lia | reflexivity].
    + left. exists i. split; [lia | reflexivity].
  - intros o Ho. apply in_app_or in Ho. destruct Ho as [Ho | [<- | []]]; [auto|].
    left. split; [apply nth_In; assumption|].
    exists (nth j y 0). split; [apply nth_In; assumption | exact Hcon].
  - intros i' j' Hi' Hj' Hor Hc. apply in_or_app.
    destruct (Nat.eq_dec i' i) as [-> | Hne]; [right; simpl; auto | left].
    apply (H6 i' j'); auto. lia.
  - intros i' j' Hi' Hj' Hor Hc. apply in_or_app.
    destruct (Nat.lt_ge_cases i' i) as [Hlt | Hge]; [left; apply (H7 i' j'); auto|].
    destruct (Nat.lt_ge_cases j' j) as [Hlt' | Hge']; [left; apply (H7 i' j'); auto|].
    assert (i' = i) by lia. subst i'.
    right. left.
    destruct (Nat.eq_dec j' j) as [-> | Hne].
    + apply contains_antisym; assumption.
    + exfalso.
      pose proof (contains_trans _ _ _ Hcon Hc) as Hyy.
      rewrite (nc_not_nested y j j') in Hyy; auto. discriminate.
Qed.

(** The entries of [y] from the cursor up to [j'] end before the range of
    the entry under the cursor of [x]: the cursor of [y] jumps to [j']. *)
Lemma inv_skip (i j j' : nat) (out : list Z) :
  loopInv x y i j out -> (i < length x)%nat ->
  (j <= j' <= length y)%nat ->
  (forall k, (j <= k < j')%nat -> rangeMax (nth k y 0) < rangeMin (nth i x 0)) ->
  loopInv x y i j' out.
Proof.
  intros (H1 & H2 & H3 & H4 & H5 & H6 & H7) Hi Hj Hbefore.
  assert (Hapart : forall i' k, (i <= i' < length x)%nat -> (j <= k < j')%nat ->
             rangeMax (nth k y 0) < rangeMin (nth i' x 0)).
  { intros i' k Hi' Hk. pose proof (Hbefore k Hk).
    pose proof (nc_apart_le x i i' x_normal ltac:(lia)). lia. }
  assert (Hnot : forall i' k, (i <= i' < length x)%nat -> (j <= k < j')%nat ->
             S2CellId.contains (nth k y 0) (nth i' x 0) = false
             /\ S2CellId.contains (nth i' x 0) (nth k y 0) = false).
  { intros i' k Hi' Hk. pose proof (Hapart i' k Hi' Hk).
    pose proof (range_bounds _ (nc_cell x i' x_normal ltac:(lia))).
    pose proof (range_bounds _ (nc_cell y k y_normal ltac:(lia))).
    unfold S2CellId.contains. rewrite !andb_false_iff, !Z.leb_gt. lia. }
  split; [lia | split; [lia | split; [assumption | split; [|split; [assumption | split]]]]].
  - intros o Ho. destruct (H4 o Ho) as [? | (k & Hk & ->)]; [left; assumption|].
    right. exists k. split; [lia | reflexivity].
  - intros i' k Hi' Hk Hor Hc.
    destruct (Nat.lt_ge_cases i' i) as [Hlt | Hge]; [apply (H6 i' k); auto|].
    destruct (Nat.lt_ge_cases k j) as [Hlt' | Hge']; [apply (H6 i' k); auto|].
    destruct (Hnot i' k) as [Hn _]; [lia | lia |]. congruence.
  - intros i' k Hi' Hk Hor Hc.
    destruct (Nat.lt_ge_cases i' i) as [Hlt | Hge]; [apply (H7 i' k); auto|].
    destruct (Nat.lt_ge_cases k j) as [Hlt' | Hge']; [apply (H7 i' k); auto|].
    destruct (Hnot i' k) as [_ Hn]; [lia | lia |]. congruence.
Qed.

(** The jump of the cursor of [y] after the search: the entries passed
    over end before the entry under the cursor of [x], and the cursor moves
    forward. *)
Lemma search_jump (i j : nat) :
  (i < length x)%nat -> (j < length y)%nat ->
  rangeMin (nth j y 0) < rangeMin (nth i x 0) ->
  rangeMax (nth j y 0) < nth i x 0 ->
  let p := insertionPoint y (rangeMin (nth i x 0)) (S j) in
  let j' := if nth i x 0 <=? rangeMax (nth (p - 1) y 0) then (p - 1)%nat else p in
  (j < j' <= length y)%nat
  /\ (forall k, (j <= k < j')%nat -> rangeMax (nth k y 0) < rangeMin (nth i x 0)).
Proof.
  intros Hi Hj Hmin Hmax p j'.
  destruct (insertionPoint_spec y (rangeMin (nth i x 0)) (S j)) as (Hp1 & Hp2 & Hp3 & _).
  fold p in Hp1, Hp2, Hp3. specialize (Hp2 ltac:(lia)).
  pose proof (nc_cell x i x_normal Hi) as Hcx.
  pose proof (range_bounds _ Hcx) as Hbx.
  assert (Hfirst : rangeMax (nth j y 0) < rangeMin (nth i x 0)).
  { pose proof (nc_cell y j y_normal Hj) as Hcy.
    pose proof (range_bounds _ Hcy) as Hby.
    destruct (laminar (nth j y 0) (nth i x 0) Hcy Hcx) as [H | [H | [H | H]]]; try lia.
    - apply (contains_in_range _ _ Hcx) in H. lia.
    - unfold S2CellId.contains in H. apply andb_true_iff in H.
      rewrite !Z.leb_le in H. lia. }
  assert (Hmid : forall k, (S j <= k < p)%nat ->
             rangeMax (nth k y 0) < rangeMin (nth i x 0)
             \/ (k = (p - 1)%nat /\ nth i x 0 <= rangeMax (nth k y 0))).
  { intros k Hk. pose proof (Hp3 k Hk) as Hlt.
    pose proof (nc_cell y k y_normal ltac:(lia)) as Hck.
    pose proof (range_bounds _ Hck) as Hbk.
    destruct (laminar (nth k y 0) (nth i x 0) Hck Hcx) as [H | [H | [H | H]]]; try lia.
    - right. apply (contains_in_range _ _ Hcx) in H. split; [|lia].
      destruct (Nat.eq_dec k (p - 1)) as [| Hne]; [assumption | exfalso].
      pose proof (nc_apart y k (p - 1) y_normal ltac:(lia)).
      pose proof (Hp3 (p - 1)%nat ltac:(lia)).
      pose proof (range_bounds _ (nc_cell y (p - 1) y_normal ltac:(lia))). lia.
    - apply (contains_in_range _ _ Hck) in H. lia. }
  unfold j'. destruct (Z.leb_spec (nth i x 0) (rangeMax (nth (p - 1) y 0))) as [Ht | Ht].
  - assert (Hpj : (p - 1)%nat <> j) by (intros E; rewrite E in Ht; lia).
    split; [lia|]. intros k Hk.
    destruct (Nat.eq_dec k j) as [-> | Hne]; [exact Hfirst|].
    destruct (Hmid k ltac:(lia)) as [H | [H _]]; [exact H | lia].
  - split; [lia|]. intros k Hk.
    destruct (Nat.eq_dec k j) as [-> | Hne]; [exact Hfirst|].
    destruct (Hmid k ltac:(lia)) as [H | [-> H]]; [exact H | lia].
Qed.

End Moves.

Section Run.

Variables x y : list Z.

Hypothesis x_normal : normalCells x.

Hypothesis y_normal : normalCells y.

(** The loop ends, with a cursor at the end of its array. *)
Lemma sweep_runs (f : nat) :
  forall i j out,
    loopInv x y i j out ->
    ((length x - i) + (length y - j) < f)%nat ->
    exists r i' j',
      intersectionLoop f x y (Z.of_nat i) (Z.of_nat j) out = Ok r
      /\ loopInv x y i' j' r
      /\ ~ ((i' < length x)%nat /\ (j' < length y)%nat).
Proof.
  induction f as [| f IH]; intros i j out Hinv Hf; [lia|].
  destruct (Nat.lt_ge_cases i (length x)) as [Hi | Hi];
    [destruct (Nat.lt_ge_cases j (length y)) as [Hj | Hj]|].
  2, 3: exists out, i, j; split; [apply loop_exit; lia | split; [assumption | lia]].
  rewrite loop_turn by assumption. cbv zeta.
  pose proof (nc_cell x i x_normal Hi) as Hcx.
  pose proof (nc_cell y j y_normal Hj) as Hcy.
  pose proof (range_bounds _ Hcx) as Hbx.
  pose proof (range_bounds _ Hcy) as Hby.
  destruct (Z.ltb_spec (rangeMin (nth j y 0)) (rangeMin (nth i x 0))) as [Hlt | Hge].
  - destruct (Z.leb_spec (nth i x 0) (rangeMax (nth j y 0))) as [Hin | Hout].
    + apply IH; [|lia]. apply inv_push; auto.
      apply in_range_contains; auto. lia.
    + destruct (search_jump x y x_normal y_normal i j Hi Hj Hlt Hout) as [Hj' Hbefore].
      set (p := insertionPoint y (rangeMin (nth i x 0)) (S j)) in *.
      destruct (nth i x 0 <=? rangeMax (nth (p - 1) y 0)).
      * apply IH; [|lia].
        apply (inv_skip x y x_normal y_normal i j (p - 1)%nat out);
          [assumption | assumption | lia | exact Hbefore].
      * apply IH; [|lia].
        apply (inv_skip x y x_normal y_normal i j p out);
          [assumption | assumption | lia | exact Hbefore].
  - destruct (Z.ltb_spec (rangeMin (nth i x 0)) (rangeMin (nth j y 0))) as [Hlt | Hge'].
    + destruct (Z.leb_spec (nth j y 0) (rangeMax (nth i x 0))) as [Hin | Hout].
      * apply IH; [|lia]. apply loopInv_sym. apply inv_push; auto.
        -- apply loopInv_sym. assumption.
        -- apply in_range_contains; auto. lia.
      * destruct (search_jump y x y_normal x_normal j i Hj Hi Hlt Hout) as [Hi' Hbefore].
        set (p := insertionPoint x (rangeMin (nth j y 0)) (S i)) in *.
        destruct (nth j y 0 <=? rangeMax (nth (p - 1) x 0)).
        -- apply IH; [|lia]. apply loopInv_sym.
           apply (inv_skip y x y_normal x_normal j i (p - 1)%nat out);
             [apply loopInv_sym; assumption | assumption | lia | exact Hbefore].
        -- apply IH; [|lia]. apply loopInv_sym.
           apply (inv_skip y x y_normal x_normal j i p out);
             [apply loopInv_sym; assumption | assumption | lia | exact Hbefore].
    + destruct (Z.ltb_spec (nth i x 0) (nth j y 0)) as [Hxy | Hyx].
      * apply IH; [|lia]. apply inv_push; auto.
        apply in_range_contains; auto. lia.
      * apply IH; [|lia]. apply loopInv_sym. apply inv_push; auto.
        -- apply loopInv_sym. assumption.
        -- apply in_range_contains; auto. lia.
Qed.

(** getIntersectionUU returns the cells of the intersection, in strictly
    ascending order. *)
Lemma sweep_result :
  exists r, getIntersectionUU x y = Ok r
            /\ StronglySorted Z.lt r
            /\ (forall c, In c r <-> inter x y c).
Proof.
  destruct (sweep_runs (length x + length y + 1) 0 0 [])
    as (r & i & j & E & (H1 & H2 & H3 & H4 & H5 & H6 & H7) & Hend).
  - unfold loopInv. split; [lia|]. split; [lia|]. split; [constructor|].
    split; [intros o []|]. split; [intros o []|].
    split; intros i' j' _ _ Hor; lia.
  - lia.
  - exists r. split; [exact E | split; [exact H3|]].
    intros c. split; [apply H5|].
    intros [(Hc & b & Hb & Hbc) | (Hc & a & Ha & Hac)].
    + destruct (In_nth x c 0 Hc) as (i' & Hi' & <-).
      destruct (In_nth y b 0 Hb) as (j' & Hj' & <-).
      apply (H6 i' j'); auto. lia.
    + destruct (In_nth y c 0 Hc) as (j' & Hj' & <-).
      destruct (In_nth x a 0 Ha) as (i' & Hi' & <-).
      apply (H7 i' j'); auto. lia.
Qed.

(** The cells of the intersection are free of containment. *)
Lemma inter_antichain (a b : Z) :
  inter x y a -> inter x y b -> a <> b -> S2CellId.contains a b = false.
Proof.
  pose proof x_normal as (_ & Hax & Hcx). pose proof y_normal as (_ & Hay & Hcy).
  rewrite Forall_forall in Hcx, Hcy.
  intros [(Ha & ya & Hya & Hca) | (Ha & xa & Hxa & Hca)]
         [(Hb & yb & Hyb & Hcb) | (Hb & xb & Hxb & Hcb)] Hne.
  - apply Hax; assumption.
  - destruct (S2CellId.contains a b) eqn:E; [exfalso | reflexivity].
    pose proof (contains_trans _ _ _ Hca E) as Hyab.
    destruct (Z.eq_dec ya b) as [-> | Hneq].
    + apply Hne. apply contains_antisym; auto.
    + rewrite (Hay ya b Hya Hb Hneq) in Hyab. discriminate.
  - destruct (S2CellId.contains a b) eqn:E; [exfalso | reflexivity].
    pose proof (contains_trans _ _ _ Hca E) as Hxab.
    destruct (Z.eq_dec xa b) as [-> | Hneq].
    + apply Hne. apply contains_antisym; auto.
    + rewrite (Hax xa b Hxa Hb Hneq) in Hxab. discriminate.
  - apply Hay; assumption.
Qed.

Lemma inter_cell (c : Z) : inter x y c -> cell c.
Proof.
  pose proof x_normal as (_ & _ & Hcx). pose proof y_normal as (_ & _ & Hcy).
  rewrite Forall_forall in Hcx, Hcy.
  intros [(Hc & _) | (Hc & _)]; auto.
Qed.

End Run.

(** Two cells that contain a common cell are nested. *)
Lemma common_nested (a b c : Z) :
  cell a -> cell b -> cell c ->
  S2CellId.contains a c = true -> S2CellId.contains b c = true ->
  S2CellId.contains a b = true \/ S2CellId.contains b a = true.
Proof.
  intros Ha Hb Hc Hac Hbc.
  apply (contains_in_range _ _ Hc) in Hac, Hbc.
  destruct (laminar a b Ha Hb) as [H | [H | [H | H]]]; auto; lia.
Qed.

End SweepFacts.

(** ** Sibling groups in a normalized union *)

Module GroupFacts.

Import S2CellId S2CellUnion ArrayFacts CellFacts Inv.
Import NormalFacts HierarchyFacts SearchFacts SweepFacts.

Lemma isFace_top (m : Z) : isFace ((2 * m + 1) * 2 ^ 60) = true.
Proof.
  unfold isFace, Long.and. rewrite lowestOnBitForLevel_pow2 by lia.
  change (2 * (30 - 0)) with 60.
  replace (2 ^ 60 - 1) with (Z.ones 60) by (rewrite Z.ones_equiv; lia).
  rewrite Z.land_ones by lia. rewrite Z.mod_mul by lia. reflexivity.
Qed.

Lemma parent_shape (a h : Z) :
  u64 a -> 0 <= h <= 29 -> lowestOnBit a = 2 ^ (2 * h) ->
  parent a = (2 * (a / 2 ^ (2 * h + 3)) + 1) * 2 ^ (2 * h + 2).
Proof.
  intros Hu Hh Hl. unfold parent. cbv zeta. rewrite Hl.
  assert (E : Long.shiftLeft (2 ^ (2 * h)) 2 = 2 ^ (2 * h + 2)).
  { unfold Long.shiftLeft, Long.wrap. change (2 mod 64) with 2.
    rewrite Z.shiftl_mul_pow2 by lia. rewrite <- Z.pow_add_r by lia.
    apply Z.mod_small. split; [apply Z.pow_nonneg; lia|].
    apply Z.pow_lt_mono_r; lia. }
  rewrite E. rewrite ancestor_at by (try assumption; lia).
  replace (2 * h + 2 + 1) with (2 * h + 3) by lia. reflexivity.
Qed.

(** Four siblings are the cells with odd parts [8Q+1], [8Q+3], [8Q+5] and
    [8Q+7] over a common lowest set bit. *)
Lemma siblings_shape (a b c d : Z) :
  validId a -> Normal.siblings a b c d = true ->
  exists h Q, 0 <= h <= 29 /\ 0 <= Q /\ (8 * Q + 8) * 2 ^ (2 * h) <= 2 ^ 64
              /\ a = (2 * (4 * Q + 0) + 1) * 2 ^ (2 * h)
              /\ b = (2 * (4 * Q + 1) + 1) * 2 ^ (2 * h)
              /\ c = (2 * (4 * Q + 2) + 1) * 2 ^ (2 * h)
              /\ d = (2 * (4 * Q + 3) + 1) * 2 ^ (2 * h).
Proof.
  intros Hv Hs. pose proof (valid_cell a Hv) as Hc.
  destruct (valid_shape a Hv) as (h & m & Hh & Hm & E & _ & Hl & _).
  unfold Normal.siblings in Hs. rewrite !andb_true_iff, !Z.eqb_eq in Hs.
  destruct Hs as ((((Hface & Ea) & Eb) & Ec) & Ed).
  apply negb_true_iff in Hface.
  assert (Hh29 : h <= 29).
  { destruct (Z.eq_dec h 30) as [-> | ]; [|lia].
    rewrite E in Hface. change (2 * 30) with 60 in Hface.
    rewrite isFace_top in Hface. discriminate. }
  rewrite (parent_shape a h) in * by (unfold cell, u64 in *; lia).
  set (Q := a / 2 ^ (2 * h + 3)) in *.
  assert (E3 : 2 ^ (2 * h + 3) = 8 * 2 ^ (2 * h)) by (rewrite Z.pow_add_r by lia; lia).
  assert (E2 : 2 ^ (2 * h + 2) = 4 * 2 ^ (2 * h)) by (rewrite Z.pow_add_r by lia; lia).
  pose proof (pow2_pos (2 * h) ltac:(lia)) as Hd.
  assert (HQ : 0 <= Q) by (apply Z.div_pos; unfold cell in Hc; lia).
  pose proof (Z.div_mod a (2 ^ (2 * h + 3)) ltac:(lia)) as Hdm.
  pose proof (Z.mod_pos_bound a (2 ^ (2 * h + 3)) ltac:(lia)) as Hmod.
  fold Q in Hdm.
  assert (E64 : 2 ^ 64 = 2 ^ (64 - (2 * h + 3)) * 2 ^ (2 * h + 3)) by (apply pow2_split; lia).
  pose proof (pow2_pos (64 - (2 * h + 3)) ltac:(lia)) as Hp64.
  assert (Hb : (8 * Q + 8) * 2 ^ (2 * h) <= 2 ^ 64).
  { unfold cell in Hc. rewrite E64. rewrite E3 in *.
    set (T := 2 ^ (64 - (2 * h + 3))) in *.
    assert (Q < T) by nia. nia. }
  assert (Hb' : (2 * Q + 2) * 2 ^ (2 * h + 2) <= 2 ^ 64) by (rewrite E2; lia).
  rewrite !child_shape in * by lia.
  replace (2 * h + 2 - 2) with (2 * h) in * by lia.
  exists h, Q. repeat split; try lia; assumption.
Qed.

(** The ranges of four siblings tile the block of their parent. *)
Lemma sibling_ranges (h Q pos : Z) :
  0 <= h -> 0 <= Q -> (8 * Q + 8) * 2 ^ (2 * h) <= 2 ^ 64 -> 0 <= pos < 4 ->
  rangeMin ((2 * (4 * Q + pos) + 1) * 2 ^ (2 * h))
  = (8 * Q + 2 * pos) * 2 ^ (2 * h) + 1
  /\ rangeMax ((2 * (4 * Q + pos) + 1) * 2 ^ (2 * h))
     = (8 * Q + 2 * pos + 2) * 2 ^ (2 * h) - 1
  /\ lowestOnBit ((2 * (4 * Q + pos) + 1) * 2 ^ (2 * h)) = 2 ^ (2 * h).
Proof.
  intros Hh HQ Hb Hpos. pose proof (pow2_pos (2 * h) ltac:(lia)) as Hd.
  assert (Hb' : (2 * (4 * Q + pos) + 2) * 2 ^ (2 * h) <= 2 ^ 64) by nia.
  destruct (shape_facts (2 * h) (4 * Q + pos) ltac:(lia) ltac:(lia) Hb')
    as (_ & Hl & R1 & R2).
  rewrite R1, R2, Hl. repeat split; ring.
Qed.

(** A valid identifier that properly contains one of four siblings
    contains all four. *)
Lemma sibling_cover (h Q pos e : Z) :
  0 <= h -> 0 <= Q -> (8 * Q + 8) * 2 ^ (2 * h) <= 2 ^ 64 -> 0 <= pos < 4 ->
  validId e ->
  S2CellId.contains e ((2 * (4 * Q + pos) + 1) * 2 ^ (2 * h)) = true ->
  e <> (2 * (4 * Q + pos) + 1) * 2 ^ (2 * h) ->
  rangeMin e <= (8 * Q) * 2 ^ (2 * h) + 1
  /\ (8 * Q + 8) * 2 ^ (2 * h) - 1 <= rangeMax e.
Proof.
  intros Hh HQ Hb Hpos Hv Hcon Hne.
  pose proof (pow2_pos (2 * h) ltac:(lia)) as Hd.
  destruct (sibling_ranges h Q pos Hh HQ Hb Hpos) as (R1 & R2 & Hl).
  assert (Hbo : (2 * (4 * Q + pos) + 2) * 2 ^ (2 * h) <= 2 ^ 64) by nia.
  destruct (shape_facts (2 * h) (4 * Q + pos) ltac:(lia) ltac:(lia) Hbo) as (Hco & _).
  set (o := (2 * (4 * Q + pos) + 1) * 2 ^ (2 * h)) in *.
  pose proof (valid_cell e Hv) as Hce.
  destruct (valid_shape e Hv) as (g & n & Hg & Hn & Ee & _ & Hle & _).
  assert (Hbe : (2 * n + 2) * 2 ^ (2 * g) <= 2 ^ 64).
  { destruct (cell_shape e Hce) as (k2 & m2 & Hk2 & Hm2 & E2 & Hb2 & Hl2).
    rewrite Hle in Hl2.
    assert (k2 = 2 * g).
    { apply (Z.pow_inj_r 2); try lia. }
    subst k2.
    assert (m2 = n).
    { pose proof (pow2_pos (2 * g) ltac:(lia)). rewrite Ee in E2. nia. }
    subst m2. exact Hb2. }
  destruct (shape_facts (2 * g) n ltac:(lia) ltac:(lia) Hbe) as (_ & _ & Re1 & Re2).
  rewrite <- Ee in Re1, Re2.
  assert (Hr := Hcon). apply (contains_in_range _ _ Hco) in Hr.
  pose proof (in_range_lowestOnBit e o Hce Hco Hr) as Hlsb.
  rewrite Hl, Hle in Hlsb.
  assert (Hhg : h <= g).
  { destruct (Z_le_gt_dec h g); [assumption|].
    assert (2 ^ (2 * g) < 2 ^ (2 * h)) by (apply Z.pow_lt_mono_r; lia). lia. }
  unfold S2CellId.contains in Hcon. apply andb_true_iff in Hcon.
  rewrite !Z.leb_le in Hcon. rewrite R1, R2, Re1, Re2 in Hcon.
  rewrite Re1, Re2.
  destruct (Z.eq_dec h g) as [<- | Hneq].
  - exfalso. apply Hne. rewrite Ee. unfold o.
    assert (2 * n = 8 * Q + 2 * pos) by nia.
    f_equal. lia.
  - assert (Eg : 2 ^ (2 * g) = 2 ^ (2 * g - 2 * h - 2) * 2 ^ 2 * 2 ^ (2 * h)).
    { rewrite <- !Z.pow_add_r by lia. f_equal. lia. }
    change (2 ^ 2) with 4 in Eg.
    pose proof (pow2_pos (2 * g - 2 * h - 2) ltac:(lia)) as Ht.
    rewrite Eg in *.
    set (t := 2 ^ (2 * g - 2 * h - 2)) in *. set (D := 2 ^ (2 * h)) in *.
    assert (H1' : 8 * (n * t) <= 8 * Q + 2 * pos)
      by (apply (Z.mul_le_mono_pos_r _ _ D); lia).
    assert (H2' : 8 * Q + 2 * pos + 2 <= 8 * ((n + 1) * t))
      by (apply (Z.mul_le_mono_pos_r _ _ D); lia).
    assert (H3 : n * t * D <= Q * D) by (apply Z.mul_le_mono_nonneg_r; lia).
    assert (H4 : (Q + 1) * D <= (n + 1) * t * D) by (apply Z.mul_le_mono_nonneg_r; lia).
    split; lia.
Qed.

Lemma noSiblingGroup_nth (l : list Z) :
  Normal.noSiblingGroup l = true ->
  forall i, (i + 3 < length l)%nat ->
  Normal.siblings (nth i l 0) (nth (i + 1) l 0) (nth (i + 2) l 0) (nth (i + 3) l 0)
  = false.
Proof.
  induction l as [| a l IH]; intros Hn i Hi; simpl in Hi; [lia|].
  destruct l as [| b [| c [| d l]]]; simpl in Hi; try lia.
  cbn [Normal.noSiblingGroup] in Hn. apply andb_true_iff in Hn.
  destruct Hn as [Hs Hn]. apply negb_true_iff in Hs.
  destruct i as [| i]; [exact Hs|].
  replace (S i + 1)%nat with (S (i + 1)) by lia.
  replace (S i + 2)%nat with (S (i + 2)) by lia.
  replace (S i + 3)%nat with (S (i + 3)) by lia.
  change (nth (S i) (a :: b :: c :: d :: l) 0) with (nth i (b :: c :: d :: l) 0).
  change (nth (S (i + 1)) (a :: b :: c :: d :: l) 0) with (nth (i + 1) (b :: c :: d :: l) 0).
  change (nth (S (i + 2)) (a :: b :: c :: d :: l) 0) with (nth (i + 2) (b :: c :: d :: l) 0).
  change (nth (S (i + 3)) (a :: b :: c :: d :: l) 0) with (nth (i + 3) (b :: c :: d :: l) 0).
  apply IH; [exact Hn | simpl; lia].
Qed.

Lemma noSiblingGroup_intro (l : list Z) :
  (forall i, (i + 3 < length l)%nat ->
     Normal.siblings (nth i l 0) (nth (i + 1) l 0) (nth (i + 2) l 0) (nth (i + 3) l 0)
     = false) ->
  Normal.noSiblingGroup l = true.
Proof.
  induction l as [| a l IH]; intros H; [reflexivity|].
  destruct l as [| b [| c [| d l]]]; try reflexivity.
  cbn [Normal.noSiblingGroup]. apply andb_true_iff. split.
  - apply negb_true_iff. apply (H O). simpl. lia.
  - apply IH. intros i Hi. specialize (H (S i)).
    replace (S i + 1)%nat with (S (i + 1)) in H by lia.
    replace (S i + 2)%nat with (S (i + 2)) in H by lia.
    replace (S i + 3)%nat with (S (i + 3)) in H by lia.
    apply H. simpl in *. lia.
Qed.

(** In a normal list, a cell whose range starts right after the range of
    another entry is the next entry. *)
Lemma next_index (x : list Z) (ia ib : nat) :
  normalCells x -> (ia < length x)%nat -> (ib < length x)%nat ->
  rangeMax (nth ia x 0) + 2 = rangeMin (nth ib x 0) -> ib = S ia.
Proof.
  intros Hn Hia Hib Hadj. pose proof Hn as (Hs & _ & _).
  pose proof (range_bounds _ (nc_cell x ia Hn Hia)) as Ha.
  pose proof (range_bounds _ (nc_cell x ib Hn Hib)) as Hb.
  assert (Hlt : (ia < ib)%nat).
  { destruct (Nat.lt_trichotomy ia ib) as [H | [H | H]]; [assumption | | ]; exfalso.
    - subst ib. lia.
    - pose proof (sorted_nth x Hs ib ia ltac:(lia)). lia. }
  destruct (Nat.eq_dec ib (S ia)) as [| Hne]; [assumption | exfalso].
  pose proof (nc_apart x ia (S ia) Hn ltac:(lia)).
  pose proof (nc_apart x (S ia) ib Hn ltac:(lia)).
  pose proof (range_bounds _ (nc_cell x (S ia) Hn ltac:(lia))). lia.
Qed.

Section Groups.

Variables x y : list Z.

Hypothesis x_normal : normalCells x.

Hypothesis y_normal : normalCells y.

Hypothesis x_valid : Forall validId x.

Hypothesis y_valid : Forall validId y.

Variables h Q : Z.

Hypothesis h_range : 0 <= h.

Hypothesis Q_range : 0 <= Q.

Hypothesis block_bound : (8 * Q + 8) * 2 ^ (2 * h) <= 2 ^ 64.

(** The sibling at position [pos] is [(2 * (4 * Q + pos) + 1) * 2 ^ (2 * h)]. *)

(** A normal list that holds the four siblings holds them side by side. *)
Lemma group_inside :
  (forall pos, 0 <= pos < 4 -> In ((2 * (4 * Q + pos) + 1) * 2 ^ (2 * h)) x) ->
  exists i, (i + 3 < length x)%nat
            /\ nth i x 0 = (2 * (4 * Q + 0) + 1) * 2 ^ (2 * h) /\ nth (i + 1) x 0 = (2 * (4 * Q + 1) + 1) * 2 ^ (2 * h)
            /\ nth (i + 2) x 0 = (2 * (4 * Q + 2) + 1) * 2 ^ (2 * h) /\ nth (i + 3) x 0 = (2 * (4 * Q + 3) + 1) * 2 ^ (2 * h).
Proof.
  intros Hall.
  destruct (In_nth x ((2 * (4 * Q + 0) + 1) * 2 ^ (2 * h)) 0 (Hall 0 ltac:(lia))) as (i0 & Hi0 & E0).
  destruct (In_nth x ((2 * (4 * Q + 1) + 1) * 2 ^ (2 * h)) 0 (Hall 1 ltac:(lia))) as (i1 & Hi1 & E1).
  destruct (In_nth x ((2 * (4 * Q + 2) + 1) * 2 ^ (2 * h)) 0 (Hall 2 ltac:(lia))) as (i2 & Hi2 & E2).
  destruct (In_nth x ((2 * (4 * Q + 3) + 1) * 2 ^ (2 * h)) 0 (Hall 3 ltac:(lia))) as (i3 & Hi3 & E3).
  destruct (sibling_ranges h Q 0 h_range Q_range block_bound ltac:(lia)) as (L0 & R0 & _).
  destruct (sibling_ranges h Q 1 h_range Q_range block_bound ltac:(lia)) as (L1 & R1 & _).
  destruct (sibling_ranges h Q 2 h_range Q_range block_bound ltac:(lia)) as (L2 & R2 & _).
  destruct (sibling_ranges h Q 3 h_range Q_range block_bound ltac:(lia)) as (L3 & R3 & _).
  assert (i1 = S i0) by (apply (next_index x); auto; rewrite E0, E1, R0, L1; lia).
  assert (i2 = S i1) by (apply (next_index x); auto; rewrite E1, E2, R1, L2; lia).
  assert (i3 = S i2) by (apply (next_index x); auto; rewrite E2, E3, R2, L3; lia).
  exists i0. subst i1 i2 i3.
  replace (i0 + 1)%nat with (S i0) by lia.
  replace (i0 + 2)%nat with (S (S i0)) by lia.
  replace (i0 + 3)%nat with (S (S (S i0))) by lia.
  repeat split; try assumption; lia.
Qed.

(** When an entry of [y] properly contains one sibling, the siblings that
    belong to the intersection are entries of [x]. *)
Lemma covered_side (e pos pos' : Z) :
  0 <= pos < 4 -> 0 <= pos' < 4 ->
  In e y -> S2CellId.contains e ((2 * (4 * Q + pos) + 1) * 2 ^ (2 * h)) = true -> e <> (2 * (4 * Q + pos) + 1) * 2 ^ (2 * h) ->
  inter x y ((2 * (4 * Q + pos') + 1) * 2 ^ (2 * h)) -> In ((2 * (4 * Q + pos') + 1) * 2 ^ (2 * h)) x.
Proof.
  intros Hpos Hpos' He Hcon Hne [(Hin & _) | (Hin & _)]; [exact Hin | exfalso].
  pose proof y_normal as (_ & Hay & _).
  rewrite Forall_forall in y_valid.
  destruct (sibling_cover h Q pos e h_range Q_range block_bound Hpos
              (y_valid e He) Hcon Hne) as [Hlo Hhi].
  destruct (sibling_ranges h Q pos' h_range Q_range block_bound Hpos') as (L & R & _).
  pose proof (pow2_pos (2 * h) ltac:(lia)) as Hd.
  assert (Hc : S2CellId.contains e ((2 * (4 * Q + pos') + 1) * 2 ^ (2 * h)) = true).
  { unfold S2CellId.contains. apply andb_true_iff. rewrite !Z.leb_le, L, R. nia. }
  destruct (Z.eq_dec e ((2 * (4 * Q + pos') + 1) * 2 ^ (2 * h))) as [-> | Hneq].
  - rewrite L in Hlo. rewrite R in Hhi. nia.
  - rewrite (Hay e ((2 * (4 * Q + pos') + 1) * 2 ^ (2 * h)) He Hin Hneq) in Hc. discriminate.
Qed.

End Groups.

End GroupFacts.

(** ** getIntersectionUU *)

Module IntersectionTheorems.

Import S2CellId S2CellUnion ArrayFacts CellFacts SortFacts Inv.
Import NormalFacts HierarchyFacts SearchFacts SweepFacts GroupFacts CanonicalFacts.

Lemma normalized_normalCells (l : list Z) :
  Forall validId l -> Normal.normalized l -> normalCells l.
Proof.
  intros Hv Hn. apply normalized_inv in Hn. destruct Hn as (Hs & Ha & _).
  repeat split; try assumption. apply valid_cells, Hv.
Qed.

Section Intersection.

Variables x y : list Z.

Hypothesis x_valid : Forall validId x.

Hypothesis y_valid : Forall validId y.

Hypothesis x_normalized : Normal.normalized x.

Hypothesis y_normalized : Normal.normalized y.

Lemma inter_valid (c : Z) : inter x y c -> validId c.
Proof.
  rewrite Forall_forall in x_valid, y_valid.
  intros [(Hc & _) | (Hc & _)]; auto.
Qed.

(** Four cells of the intersection are never the four children of one
    parent: they would all be entries of one of the two unions. *)
Lemma inter_no_group (a b c d : Z) :
  inter x y a -> inter x y b -> inter x y c -> inter x y d ->
  Normal.siblings a b c d = false.
Proof.
  intros Ia Ib Ic Id.
  destruct (Normal.siblings a b c d) eqn:Hs; [exfalso | reflexivity].
  pose proof (normalized_normalCells x x_valid x_normalized) as Hnx.
  pose proof (normalized_normalCells y y_valid y_normalized) as Hny.
  destruct (siblings_shape a b c d (inter_valid a Ia) Hs)
    as (h & Q & Hh & HQ & Hb & -> & -> & -> & ->).
  assert (Hinter : forall pos, 0 <= pos < 4 ->
            inter x y ((2 * (4 * Q + pos) + 1) * 2 ^ (2 * h))).
  { intros pos Hpos.
    assert (Hc : pos = 0 \/ pos = 1 \/ pos = 2 \/ pos = 3) by lia.
    destruct Hc as [-> | [-> | [-> | ->]]]; assumption. }
  assert (Hcase : forall pos, 0 <= pos < 4 ->
            (In ((2 * (4 * Q + pos) + 1) * 2 ^ (2 * h)) x
             /\ In ((2 * (4 * Q + pos) + 1) * 2 ^ (2 * h)) y)
            \/ (exists e, In e y
                  /\ S2CellId.contains e ((2 * (4 * Q + pos) + 1) * 2 ^ (2 * h)) = true
                  /\ e <> (2 * (4 * Q + pos) + 1) * 2 ^ (2 * h))
            \/ (exists e, In e x
                  /\ S2CellId.contains e ((2 * (4 * Q + pos) + 1) * 2 ^ (2 * h)) = true
                  /\ e <> (2 * (4 * Q + pos) + 1) * 2 ^ (2 * h))).
  { intros pos Hpos.
    destruct (Hinter pos Hpos) as [(Hin & e & He & Hc) | (Hin & e & He & Hc)];
      destruct (Z.eq_dec e ((2 * (4 * Q + pos) + 1) * 2 ^ (2 * h))) as [-> | Hne];
      [left; auto | right; left; eauto | left; auto | right; right; eauto]. }
  assert (Hside : (forall pos, 0 <= pos < 4 ->
                     In ((2 * (4 * Q + pos) + 1) * 2 ^ (2 * h)) x)
                  \/ (forall pos, 0 <= pos < 4 ->
                        In ((2 * (4 * Q + pos) + 1) * 2 ^ (2 * h)) y)).
  { assert (Hx : forall pos e, 0 <= pos < 4 -> In e y ->
               S2CellId.contains e ((2 * (4 * Q + pos) + 1) * 2 ^ (2 * h)) = true ->
               e <> (2 * (4 * Q + pos) + 1) * 2 ^ (2 * h) ->
               forall pos', 0 <= pos' < 4 ->
                 In ((2 * (4 * Q + pos') + 1) * 2 ^ (2 * h)) x).
    { intros pos e Hpos He Hc Hne pos' Hpos'.
      apply (covered_side x y Hny y_valid h Q ltac:(lia) HQ Hb e pos pos'); auto. }
    assert (Hy : forall pos e, 0 <= pos < 4 -> In e x ->
               S2CellId.contains e ((2 * (4 * Q + pos) + 1) * 2 ^ (2 * h)) = true ->
               e <> (2 * (4 * Q + pos) + 1) * 2 ^ (2 * h) ->
               forall pos', 0 <= pos' < 4 ->
                 In ((2 * (4 * Q + pos') + 1) * 2 ^ (2 * h)) y).
    { intros pos e Hpos He Hc Hne pos' Hpos'.
      apply (covered_side y x Hnx x_valid h Q ltac:(lia) HQ Hb e pos pos'); auto.
      apply inter_sym. auto. }
    destruct (Hcase 0 ltac:(lia)) as [A0 | [(e & He & Hc & Hne) | (e & He & Hc & Hne)]];
      [| left; apply (Hx 0 e); auto; lia | right; apply (Hy 0 e); auto; lia].
    destruct (Hcase 1 ltac:(lia)) as [A1 | [(e & He & Hc & Hne) | (e & He & Hc & Hne)]];
      [| left; apply (Hx 1 e); auto; lia | right; apply (Hy 1 e); auto; lia].
    destruct (Hcase 2 ltac:(lia)) as [A2 | [(e & He & Hc & Hne) | (e & He & Hc & Hne)]];
      [| left; apply (Hx 2 e); auto; lia | right; apply (Hy 2 e); auto; lia].
    destruct (Hcase 3 ltac:(lia)) as [A3 | [(e & He & Hc & Hne) | (e & He & Hc & Hne)]];
      [| left; apply (Hx 3 e); auto; lia | right; apply (Hy 3 e); auto; lia].
    left. intros pos Hpos.
    assert (Hc : pos = 0 \/ pos = 1 \/ pos = 2 \/ pos = 3) by lia.
    destruct Hc as [-> | [-> | [-> | ->]]]; tauto. }
  apply normalized_inv in x_normalized, y_normalized.
  destruct x_normalized as (_ & _ & Hgx). destruct y_normalized as (_ & _ & Hgy).
  destruct Hside as [Hall | Hall].
  - destruct (group_inside x Hnx h Q ltac:(lia) HQ Hb Hall) as (i & Hi & E0 & E1 & E2 & E3).
    pose proof (noSiblingGroup_nth x Hgx i Hi) as Hno.
    rewrite E0, E1, E2, E3 in Hno. congruence.
  - destruct (group_inside y Hny h Q ltac:(lia) HQ Hb Hall) as (i & Hi & E0 & E1 & E2 & E3).
    pose proof (noSiblingGroup_nth y Hgy i Hi) as Hno.
    rewrite E0, E1, E2, E3 in Hno. congruence.
Qed.

(** C2: for normalized unions of valid identifiers getIntersectionUU
    returns a union that contains an identifier (a leaf one in particular)
    exactly when both operands contain it; the output is strictly
    ascending, free of containment and of four-sibling groups, and a
    normalize pass on it reports no reduction and changes nothing. *)
Theorem getIntersectionUU_correct :
  exists out,
    getIntersectionUU x y = Ok out
    /\ (forall id, cell id ->
          S2CellUnion.contains out id = true <->
          S2CellUnion.contains x id = true /\ S2CellUnion.contains y id = true)
    /\ Normal.normalized out
    /\ normalize out = (false, out).
Proof.
  pose proof (normalized_normalCells x x_valid x_normalized) as Hnx.
  pose proof (normalized_normalCells y y_valid y_normalized) as Hny.
  pose proof Hnx as (Hsx & Hax & Hcx). pose proof Hny as (Hsy & Hay & Hcy).
  destruct (sweep_result x y Hnx Hny) as (out & E & Hs & Hin).
  assert (Ha : antichain out).
  { intros a b Ha Hb Hne. apply (inter_antichain x y Hnx Hny); auto; apply Hin; auto. }
  assert (Hc : Forall cell out).
  { apply Forall_forall. intros c Hc. apply (inter_cell x y Hnx Hny), Hin, Hc. }
  assert (Hg : Normal.noSiblingGroup out = true).
  { apply noSiblingGroup_intro. intros i Hi.
    apply inter_no_group; apply Hin, nth_In; lia. }
  exists out. split; [exact E | split; [|split]].
  - intros id Hid. split.
    + intros Hcon.
      destruct (contains_sound out id Hc Hid Hcon) as (o & Ho & Hoid).
      apply Hin in Ho.
      destruct Ho as [(Hox & b & Hb & Hbo) | (Hoy & a & Hax' & Hao)].
      * split; apply contains_complete; auto.
        -- exists o. auto.
        -- exists b. split; [assumption | eapply contains_trans; eassumption].
      * split; apply contains_complete; auto.
        -- exists a. split; [assumption | eapply contains_trans; eassumption].
        -- exists o. auto.
    + intros [Hconx Hcony].
      destruct (contains_sound x id Hcx Hid Hconx) as (a & Hax' & Haid).
      destruct (contains_sound y id Hcy Hid Hcony) as (b & Hby & Hbid).
      rewrite Forall_forall in Hcx, Hcy.
      apply contains_complete; auto.
      destruct (common_nested a b id (Hcx a Hax') (Hcy b Hby) Hid Haid Hbid) as [Hab | Hba].
      * exists b. split; [|assumption]. apply Hin. right. split; [assumption|].
        exists a. auto.
      * exists a. split; [|assumption]. apply Hin. left. split; [assumption|].
        exists b. auto.
  - unfold Normal.normalized, Normal.isNormalized.
    rewrite !andb_true_iff, isSorted_iff, noContained_iff. auto.
  - apply NormalizeTheorems.normalize_keep; auto. apply cell_u64, Hc.
Qed.

End Intersection.

(** [getIntersectionUU_correct] at a concrete input, with its hypotheses evaluated there. *)
Lemma getIntersectionUU_correct_witness :
  let x := [child (fromFace 0) 0; child (fromFace 0) 1; fromFace 2] in
  let y := [child (child (fromFace 0) 0) 3; fromFace 0 + 4; child (fromFace 2) 2] in
  Forall validId x /\ Forall validId y
  /\ Normal.normalized x /\ Normal.normalized y
  /\ exists out,
       getIntersectionUU x y = Ok out
       /\ (forall id, cell id ->
             S2CellUnion.contains out id = true <->
             S2CellUnion.contains x id = true /\ S2CellUnion.contains y id = true)
       /\ Normal.normalized out
       /\ normalize out = (false, out).
Proof.
  intros x y.
  assert (Hx : Forall validId x).
  { repeat constructor; vm_compute; try reflexivity; intro H; discriminate H. }
  assert (Hy : Forall validId y).
  { repeat constructor; vm_compute; try reflexivity; intro H; discriminate H. }
  assert (Hnx : Normal.normalized x) by (vm_compute; reflexivity).
  assert (Hny : Normal.normalized y) by (vm_compute; reflexivity).
  exact (conj Hx (conj Hy (conj Hnx (conj Hny
           (getIntersectionUU_correct x y Hx Hy Hnx Hny))))).
Defined.

End IntersectionTheorems.

(** ** Checking sample data *)

Module Samples.

Import S2CellId S2CellUnion Inv.

Lemma cells_check (l : list Z) :
  forallb (fun x => (0 <? x) && (x <? 2 ^ 64)) l = true -> Forall cell l.
Proof.
  intros H. rewrite forallb_forall in H. apply Forall_forall. intros x Hx.
  specialize (H x Hx). apply andb_true_iff in H. rewrite !Z.ltb_lt in H. exact H.
Qed.

Lemma valid_check (l : list Z) :
  forallb (fun x => (0 <=? x) && (x <? 2 ^ 64) && isValid x) l = true ->
  Forall validId l.
Proof.
  intros H. rewrite forallb_forall in H. apply Forall_forall. intros x Hx.
  specialize (H x Hx). rewrite !andb_true_iff, Z.leb_le, Z.ltb_lt in H.
  destruct H as [[H1 H2] H3]. split; [split; assumption | exact H3].
Qed.

Lemma cell_check (x : Z) : (0 <? x) && (x <? 2 ^ 64) = true -> cell x.
Proof.
  intros H. apply andb_true_iff in H. rewrite !Z.ltb_lt in H. exact H.
Qed.

End Samples.

(** ** The query predicates on normal unions *)

Module PredicateTheorems.

Import S2CellId S2CellUnion ArrayFacts CellFacts SortFacts Inv.
Import NormalFacts SearchFacts SweepFacts Samples.

(** A list of cells that passes the two executable tests is in normal
    order. *)
Lemma normalCells_check (l : list Z) :
  Forall cell l -> Normal.isSorted l = true -> Normal.noContained l = true ->
  normalCells l.
Proof.
  intros Hc Hs Ha. repeat split; try assumption.
  - apply isSorted_iff, Hs.
  - apply noContained_iff, Ha.
Qed.

Lemma intersects_unfold (u : list Z) (id : Z) :
  intersects u id =
  let p := Z.of_nat (insertionPoint u id 0) in
  if (p <? size u) && (rangeMin (u.[p]) <=? rangeMax id) then true
  else negb (p =? 0) && (rangeMin id <=? rangeMax (u.[p - 1])).
Proof.
  unfold intersects. rewrite binarySearch_pos. reflexivity.
Qed.

(** [contains] is the exact test its comment announces: on a union in
    normal order it answers true exactly when an entry contains the
    identifier. *)
Theorem contains_exact (u : list Z) (id : Z) :
  normalCells u -> cell id ->
  (S2CellUnion.contains u id = true <-> Normal.covers u id).
Proof.
  intros (Hs & Ha & Hc) Hid. split.
  - apply contains_sound; assumption.
  - apply contains_complete; assumption.
Qed.

(** [intersects] answers true exactly when an entry of the union and the
    identifier are nested, one inside the other. *)
Theorem intersects_exact (u : list Z) (id : Z) :
  normalCells u -> cell id ->
  (intersects u id = true <->
   exists c, In c u /\ (S2CellId.contains c id = true \/ S2CellId.contains id c = true)).
Proof.
  intros Hn Hid. pose proof Hn as (Hs & Ha & Hc).
  pose proof (range_bounds id Hid) as Hbid.
  rewrite intersects_unfold. cbv zeta.
  destruct (insertionPoint_spec u id 0) as (H1 & _ & H3 & H4).
  set (p := insertionPoint u id 0) in *.
  unfold at_, size. rewrite Nat2Z.id.
  replace (Z.to_nat (Z.of_nat p - 1)) with (p - 1)%nat by lia.
  split.
  - intros H.
    destruct ((Z.of_nat p <? Z.of_nat (length u)) && (rangeMin (nth p u 0) <=? rangeMax id)) eqn:E1.
    + apply andb_true_iff in E1. destruct E1 as [Hlt Hmin].
      apply Z.ltb_lt in Hlt. apply Z.leb_le in Hmin.
      pose proof (nc_cell u p Hn ltac:(lia)) as Hcp.
      pose proof (range_bounds _ Hcp) as Hbp.
      exists (nth p u 0). split; [apply nth_In; lia|].
      specialize (H4 ltac:(lia)).
      destruct (laminar (nth p u 0) id Hcp Hid) as [L | [L | [L | L]]]; auto; lia.
    + apply andb_true_iff in H. destruct H as [Hp Hmax].
      apply negb_true_iff, Z.eqb_neq in Hp. apply Z.leb_le in Hmax.
      pose proof (nc_cell u (p - 1) Hn ltac:(lia)) as Hcp.
      pose proof (range_bounds _ Hcp) as Hbp.
      exists (nth (p - 1) u 0). split; [apply nth_In; lia|].
      specialize (H3 (p - 1)%nat ltac:(lia)).
      destruct (laminar (nth (p - 1) u 0) id Hcp Hid) as [L | [L | [L | L]]]; auto; lia.
  - intros (c & Hin & Hnest).
    destruct (In_nth u c 0 Hin) as (k & Hk & Ek).
    rewrite Forall_forall in Hc.
    pose proof (range_bounds c (Hc c Hin)) as Hbc.
    assert (Hrange : rangeMin c <= rangeMax id /\ rangeMin id <= rangeMax c).
    { destruct Hnest as [L | L].
      - apply (contains_in_range _ _ Hid) in L. lia.
      - apply (contains_in_range _ _ (Hc c Hin)) in L. lia. }
    destruct Hnest as [L | L].
    + (* the entry contains the identifier: the test of [contains] passes *)
      assert (Hcon : S2CellUnion.contains u id = true).
      { apply contains_complete; auto.
        - apply Forall_forall. exact Hc.
        - exists c. auto. }
      rewrite contains_unfold in Hcon. cbv zeta in Hcon. fold p in Hcon.
      unfold at_, size in Hcon. rewrite Nat2Z.id in Hcon.
      replace (Z.to_nat (Z.of_nat p - 1)) with (p - 1)%nat in Hcon by lia.
      destruct (Z.ltb_spec (Z.of_nat p) (Z.of_nat (length u))) as [Hlt | Hge];
        cbn [andb] in *.
      * destruct (Z.leb_spec (rangeMin (nth p u 0)) id) as [Hle | Hgt].
        -- replace (rangeMin (nth p u 0) <=? rangeMax id) with true
             by (symmetry; apply Z.leb_le; lia). reflexivity.
        -- destruct (rangeMin (nth p u 0) <=? rangeMax id); [reflexivity|].
           apply andb_true_iff in Hcon. destruct Hcon as [Hp Hmax].
           rewrite Hp. apply Z.leb_le in Hmax. apply Z.leb_le. lia.
      * apply andb_true_iff in Hcon. destruct Hcon as [Hp Hmax].
        rewrite Hp. apply Z.leb_le in Hmax. apply Z.leb_le. lia.
    + (* the identifier contains the entry *)
      apply (contains_in_range _ _ (Hc c Hin)) in L.
      destruct (Nat.lt_ge_cases k p) as [Hlt | Hge].
      * assert (Hle : c <= nth (p - 1) u 0).
        { rewrite <- Ek. destruct (Nat.eq_dec k (p - 1)) as [-> | Hne]; [lia|].
          pose proof (sorted_nth u Hs k (p - 1)%nat ltac:(lia)). lia. }
        pose proof (range_bounds _ (nc_cell u (p - 1) Hn ltac:(lia))) as Hbp.
        destruct ((Z.of_nat p <? Z.of_nat (length u)) && (rangeMin (nth p u 0) <=? rangeMax id));
          [reflexivity|].
        apply andb_true_iff. split.
        -- apply negb_true_iff, Z.eqb_neq. lia.
        -- apply Z.leb_le. lia.
      * assert (Hle : nth p u 0 <= c).
        { rewrite <- Ek. destruct (Nat.eq_dec k p) as [-> | Hne]; [lia|].
          pose proof (sorted_nth u Hs p k ltac:(lia)). lia. }
        pose proof (range_bounds _ (nc_cell u p Hn ltac:(lia))) as Hbp.
        replace (Z.of_nat p <? Z.of_nat (length u)) with true
          by (symmetry; apply Z.ltb_lt; lia).
        replace (rangeMin (nth p u 0) <=? rangeMax id) with true
          by (symmetry; apply Z.leb_le; lia).
        reflexivity.
Qed.

(** Whatever [contains] accepts, [intersects] accepts, on every array; and
    so for the union forms. *)
Theorem contains_implies_intersects :
  (forall u id, cell id ->
     S2CellUnion.contains u id = true -> intersects u id = true)
  /\ (forall u v, Forall cell v ->
        containsUnion u v = true -> intersectsUnion u v = true).
Proof.
  assert (Hone : forall u id, cell id ->
            S2CellUnion.contains u id = true -> intersects u id = true).
  { intros u id Hid. pose proof (range_bounds id Hid) as Hb.
    rewrite contains_unfold, intersects_unfold. cbv zeta.
    set (p := Z.of_nat (insertionPoint u id 0)).
    destruct (p <? size u); cbn [andb].
    - destruct (Z.leb_spec (rangeMin (u.[p])) id) as [Hle | Hgt].
      + intros _. replace (rangeMin (u.[p]) <=? rangeMax id) with true
          by (symmetry; apply Z.leb_le; lia). reflexivity.
      + intros H. destruct (rangeMin (u.[p]) <=? rangeMax id); [reflexivity|].
        apply andb_true_iff in H. destruct H as [Hp Hmax]. rewrite Hp.
        apply Z.leb_le in Hmax. apply Z.leb_le. lia.
    - intros H. apply andb_true_iff in H. destruct H as [Hp Hmax]. rewrite Hp.
      apply Z.leb_le in Hmax. apply Z.leb_le. lia. }
  split; [exact Hone|].
  intros u v Hv. induction Hv as [| a v Ha Hv IH]; simpl; [reflexivity|].
  destruct (S2CellUnion.contains u a) eqn:Ec; simpl; [|discriminate].
  rewrite (Hone u a Ha Ec). simpl. exact IH.
Qed.

(** [containsUnion] holds of a union in normal order and itself, and when
    it holds every identifier that the other union contains is contained by
    this union. *)
Theorem containsUnion_contains :
  (forall u, normalCells u -> containsUnion u u = true)
  /\ (forall u v id,
        normalCells u -> Forall cell v -> cell id ->
        containsUnion u v = true ->
        S2CellUnion.contains v id = true -> S2CellUnion.contains u id = true).
Proof.
  assert (Hall : forall u v, containsUnion u v = true ->
                   forall c, In c v -> S2CellUnion.contains u c = true).
  { intros u v. induction v as [| a v IH]; simpl; [intros _ c []|].
    destruct (S2CellUnion.contains u a) eqn:Ea; simpl; [|discriminate].
    intros H c [<- | Hin]; auto. }
  assert (Hmk : forall u v, (forall c, In c v -> S2CellUnion.contains u c = true) ->
                  containsUnion u v = true).
  { intros u v. induction v as [| a v IH]; simpl; [reflexivity|]. intros H.
    rewrite (H a) by auto. simpl. apply IH. intros c Hc. apply H. auto. }
  split.
  - intros u Hn. apply Hmk. intros c Hc. pose proof Hn as (_ & _ & Hcells).
    destruct Hn as (Hs & Ha & _).
    apply contains_complete; [assumption | assumption | assumption | |].
    + rewrite Forall_forall in Hcells. auto.
    + exists c. split; [assumption | apply contains_refl].
  - intros u v id Hn Hv Hid Hcu Hcv.
    destruct (contains_sound v id Hv Hid Hcv) as (c & Hc & Hcid).
    rewrite Forall_forall in Hv. destruct Hn as (Hs & Ha & Hcu').
    pose proof (Hall u v Hcu c Hc) as Huc.
    apply contains_sound in Huc; [| assumption | auto].
    destruct Huc as (a & Hain & Hac).
    apply contains_complete; [assumption | assumption | assumption | assumption |].
    exists a. split; [assumption | eapply contains_trans; eassumption].
Qed.

(** [contains_exact] at a union of two level-1 cells and a leaf of the
    first one. *)
Lemma contains_exact_witness :
  let u := [child (fromFace 0) 1; child (fromFace 0) 2] in
  let id := rangeMin (child (fromFace 0) 1) in
  normalCells u /\ cell id
  /\ (S2CellUnion.contains u id = true <-> Normal.covers u id).
Proof.
  intros u id.
  assert (Hn : normalCells u).
  { apply normalCells_check; [apply cells_check | |]; vm_compute; reflexivity. }
  assert (Hid : cell id) by (apply cell_check; vm_compute; reflexivity).
  exact (conj Hn (conj Hid (contains_exact u id Hn Hid))).
Defined.

(** [intersects_exact] at a union of two level-1 cells and the face that
    holds them. *)
Lemma intersects_exact_witness :
  let u := [child (fromFace 0) 1; child (fromFace 0) 2] in
  let id := fromFace 0 in
  normalCells u /\ cell id
  /\ (intersects u id = true <->
      exists c, In c u /\ (S2CellId.contains c id = true
                           \/ S2CellId.contains id c = true)).
Proof.
  intros u id.
  assert (Hn : normalCells u).
  { apply normalCells_check; [apply cells_check | |]; vm_compute; reflexivity. }
  assert (Hid : cell id) by (apply cell_check; vm_compute; reflexivity).
  exact (conj Hn (conj Hid (intersects_exact u id Hn Hid))).
Defined.

(** [contains_implies_intersects] at a union of two level-1 cells and a
    leaf of the first one. *)
Lemma contains_implies_intersects_witness :
  let u := [child (fromFace 0) 1; child (fromFace 0) 2] in
  let id := rangeMin (child (fromFace 0) 1) in
  cell id /\ S2CellUnion.contains u id = true /\ intersects u id = true.
Proof.
  intros u id.
  assert (Hid : cell id) by (apply cell_check; vm_compute; reflexivity).
  assert (Hc : S2CellUnion.contains u id = true) by (vm_compute; reflexivity).
  exact (conj Hid (conj Hc (proj1 contains_implies_intersects u id Hid Hc))).
Defined.

(** [containsUnion_contains] at a union of two level-1 cells, the union of
    the first of them and a leaf of it. *)
Lemma containsUnion_contains_witness :
  let u := [child (fromFace 0) 1; child (fromFace 0) 2] in
  let v := [child (fromFace 0) 1] in
  let id := rangeMin (child (fromFace 0) 1) in
  normalCells u /\ Forall cell v /\ cell id
  /\ containsUnion u v = true /\ S2CellUnion.contains v id = true
  /\ S2CellUnion.contains u id = true.
Proof.
  intros u v id.
  assert (Hn : normalCells u).
  { apply normalCells_check; [apply cells_check | |]; vm_compute; reflexivity. }
  assert (Hv : Forall cell v) by (apply cells_check; vm_compute; reflexivity).
  assert (Hid : cell id) by (apply cell_check; vm_compute; reflexivity).
  assert (Hu : containsUnion u v = true) by (vm_compute; reflexivity).
  assert (Hc : S2CellUnion.contains v id = true) by (vm_compute; reflexivity).
  exact (conj Hn (conj Hv (conj Hid (conj Hu (conj Hc
           (proj2 containsUnion_contains u v id Hn Hv Hid Hu Hc)))))).
Defined.

End PredicateTheorems.

(** ** normalize as a canonical form *)

Module CanonicalTheorems.

Import S2CellId S2CellUnion ArrayFacts CellFacts SortFacts Inv.
Import NormalizeFacts NormalFacts SearchFacts CanonicalFacts SweepFacts.
Import SiblingTheorems ExpandCoverage.

Lemma sort_permutation (l l' : list Z) : Permutation l l' -> sort l = sort l'.
Proof.
  intros Hp. apply sorted_perm_unique; try apply sort_sorted.
  rewrite <- (sort_perm l), <- (sort_perm l'). exact Hp.
Qed.

(** Two strictly ascending lists with the same entries are the same list. *)
Lemma sorted_ext (l1 : list Z) :
  forall l2, StronglySorted Z.lt l1 -> StronglySorted Z.lt l2 ->
             (forall a, In a l1 <-> In a l2) -> l1 = l2.
Proof.
  intros l2 H1 H2 Hin. apply sorted_perm_unique; try (apply lt_sorted_le; assumption).
  apply NoDup_Permutation; try assumption.
  - clear - H1. induction H1 as [| a l Hs IH Ha]; constructor; [|assumption].
    intros Hin. rewrite Forall_forall in Ha. specialize (Ha a Hin). lia.
  - clear - H2. induction H2 as [| a l Hs IH Ha]; constructor; [|assumption].
    intros Hin. rewrite Forall_forall in Ha. specialize (Ha a Hin). lia.
Qed.

Lemma normalize_incl (l : list Z) :
  Forall u64 l -> incl (snd (normalize l)) l.
Proof.
  intros Hu. rewrite normalize_snd by assumption.
  pose proof (fold_incl _ _ (stepPre_start l Hu)) as Hi. simpl in Hi.
  intros a Ha. eapply Permutation_in; [symmetry; apply sort_perm|]. apply Hi, Ha.
Qed.

Lemma normalize_normalCells (l : list Z) :
  Forall cell l -> normalCells (snd (normalize l)).
Proof.
  intros Hc. destruct (normalize_canonical l Hc) as (Hs & Ha & Hcells & _).
  repeat split; assumption.
Qed.

(** The array stored by normalize covers exactly what the input covers. *)
Lemma normalize_covers (l : list Z) (id : Z) :
  Forall cell l ->
  (Normal.covers (snd (normalize l)) id <-> Normal.covers l id).
Proof.
  intros Hc. destruct (normalize_canonical l Hc) as (_ & _ & _ & Hcov). split.
  - intros (c & Hin & Hcid). exists c. split; [|assumption].
    apply (normalize_incl l (cell_u64 l Hc)), Hin.
  - intros (c & Hin & Hcid). eapply covers_trans; [apply Hcov, Hin | exact Hcid].
Qed.

(** A second normalize right after a first one reports no reduction and
    changes nothing, whatever cells the first one was given. *)
Theorem normalize_idempotent (l : list Z) :
  Forall cell l ->
  normalize (snd (normalize l)) = (false, snd (normalize l)).
Proof.
  intros Hc. destruct (normalize_canonical l Hc) as (Hs & Ha & Hcells & _).
  apply NormalizeTheorems.normalize_keep; auto. apply cell_u64, Hcells.
Qed.

(** normalize does not depend on the order of the raw entries: two
    arrays with the same entries in any order give the same flag and the
    same stored array. *)
Theorem normalize_permutation (l l' : list Z) :
  Permutation l l' -> normalize l = normalize l'.
Proof.
  intros Hp. unfold normalize. rewrite (sort_permutation l l' Hp). reflexivity.
Qed.

(** After initSwap the union is strictly ascending and free of
    containment, and [contains] accepts exactly the identifiers that lie
    inside a cell of the raw input. *)
Theorem initSwap_region (l : list Z) (id : Z) :
  Forall cell l -> cell id ->
  normalCells (initSwap l)
  /\ (S2CellUnion.contains (initSwap l) id = true <-> Normal.covers l id).
Proof.
  intros Hc Hid. unfold initSwap.
  pose proof (normalize_normalCells l Hc) as Hn. split; [exact Hn|].
  rewrite <- (normalize_covers l id Hc).
  destruct Hn as (Hs & Ha & Hcells). split.
  - apply contains_sound; assumption.
  - apply contains_complete; assumption.
Qed.

(** [normalize_idempotent] at an unsorted array with a nested entry. *)
Lemma normalize_idempotent_witness :
  let l := [child (fromFace 0) 2; child (fromFace 0) 1;
            rangeMin (child (fromFace 0) 1)] in
  Forall cell l
  /\ normalize (snd (normalize l)) = (false, snd (normalize l)).
Proof.
  intros l.
  assert (Hc : Forall cell l) by (apply Samples.cells_check; vm_compute; reflexivity).
  exact (conj Hc (normalize_idempotent l Hc)).
Defined.

(** [normalize_permutation] at two cells in either order. *)
Lemma normalize_permutation_witness :
  let l := [child (fromFace 0) 2; child (fromFace 0) 1] in
  let l' := [child (fromFace 0) 1; child (fromFace 0) 2] in
  Permutation l l' /\ normalize l = normalize l'.
Proof.
  intros l l'.
  assert (Hp : Permutation l l') by apply perm_swap.
  exact (conj Hp (normalize_permutation l l' Hp)).
Defined.

(** [initSwap_region] at an unsorted array with a nested entry. *)
Lemma initSwap_region_witness :
  let l := [child (fromFace 0) 2; child (fromFace 0) 1;
            rangeMin (child (fromFace 0) 1)] in
  let id := rangeMax (child (fromFace 0) 2) in
  Forall cell l /\ cell id
  /\ normalCells (initSwap l)
  /\ (S2CellUnion.contains (initSwap l) id = true <-> Normal.covers l id).
Proof.
  intros l id.
  assert (Hc : Forall cell l) by (apply Samples.cells_check; vm_compute; reflexivity).
  assert (Hid : cell id) by (apply Samples.cell_check; vm_compute; reflexivity).
  exact (conj Hc (conj Hid (initSwap_region l id Hc Hid))).
Defined.

End CanonicalTheorems.

(** ** getUnion *)

Module UnionTheorems.

Import S2CellId S2CellUnion ArrayFacts CellFacts SortFacts Inv.
Import NormalizeFacts NormalFacts SearchFacts CanonicalFacts SweepFacts.
Import ExpandCoverage CanonicalTheorems.

Lemma covers_app (l1 l2 : list Z) (id : Z) :
  Normal.covers (l1 ++ l2) id <-> Normal.covers l1 id \/ Normal.covers l2 id.
Proof.
  unfold Normal.covers. split.
  - intros (c & Hin & H). apply in_app_or in Hin. destruct Hin; eauto.
  - intros [(c & Hin & H) | (c & Hin & H)]; exists c; split; auto;
      apply in_or_app; auto.
Qed.

Lemma containsUnion_covers (x y : list Z) :
  Forall cell x -> Forall cell y -> containsUnion x y = true ->
  forall c, In c y -> Normal.covers x c.
Proof.
  intros Hx Hy. induction y as [| a y IH]; simpl; [intros _ c []|].
  inversion Hy as [| ? ? Ha Hy']; subst.
  destruct (S2CellUnion.contains x a) eqn:Ea; simpl; [|discriminate].
  intros H c [<- | Hin]; [|auto].
  apply contains_sound; assumption.
Qed.

(** getUnion does not depend on the order of its operands. *)
Theorem getUnion_commutative (x y : list Z) : getUnion x y = getUnion y x.
Proof.
  unfold getUnion, normalize.
  rewrite (sort_permutation (x ++ y) (y ++ x)) by apply Permutation_app_comm.
  reflexivity.
Qed.

(** The union of two unions in normal order contains an identifier exactly
    when one of them does. *)
Theorem getUnion_contains (x y : list Z) (id : Z) :
  normalCells x -> normalCells y -> cell id ->
  (S2CellUnion.contains (getUnion x y) id = true <->
   S2CellUnion.contains x id = true \/ S2CellUnion.contains y id = true).
Proof.
  intros (Hsx & Hax & Hcx) (Hsy & Hay & Hcy) Hid. unfold getUnion.
  assert (Hc : Forall cell (x ++ y)) by (apply Forall_app; auto).
  destruct (normalize_normalCells (x ++ y) Hc) as (Hs & Ha & Hcells).
  split.
  - intros H. apply contains_sound in H; auto.
    apply (normalize_covers _ _ Hc), covers_app in H.
    destruct H; [left | right]; apply contains_complete; auto.
  - intros H. apply contains_complete; auto.
    apply (normalize_covers _ _ Hc), covers_app.
    destruct H as [H | H]; [left | right]; apply contains_sound in H; auto.
Qed.

(** Absorption: when [x.containsUnion(y)] holds for a union [x] in normal
    order, getUnion of the two stores exactly [x]; so does getUnion of [x]
    with the empty union and with itself. *)
Theorem getUnion_absorbs (x y : list Z) :
  normalCells x -> Forall cell y -> containsUnion x y = true ->
  getUnion x y = x.
Proof.
  intros (Hsx & Hax & Hcx) Hcy Hsub. unfold getUnion.
  assert (Hc : Forall cell (x ++ y)) by (apply Forall_app; auto).
  destruct (normalize_canonical (x ++ y) Hc) as (Hs & Ha & Hcells & Hcov).
  pose proof (normalize_incl (x ++ y) (cell_u64 _ Hc)) as Hincl.
  pose proof (containsUnion_covers x y Hcx Hcy Hsub) as Hyx.
  rewrite Forall_forall in Hcx, Hcy, Hcells.
  assert (Hin_x : forall r, In r (snd (normalize (x ++ y))) -> In r x).
  { intros r Hr. pose proof (Hincl r Hr) as Hxy. apply in_app_or in Hxy.
    destruct Hxy as [Hrx | Hry]; [assumption|].
    destruct (Hyx r Hry) as (a & Hax' & Har).
    destruct (Hcov a) as (r' & Hr' & Hra); [apply in_or_app; auto|].
    destruct (Z.eq_dec r' r) as [-> | Hne].
    - assert (a = r) by (apply contains_antisym; auto).
      subst a. assumption.
    - pose proof (contains_trans _ _ _ Hra Har) as Hrr.
      rewrite (Ha r' r Hr' Hr Hne) in Hrr. discriminate. }
  apply sorted_ext; try assumption.
  intros a. split; [apply Hin_x|]. intros Hax'.
  destruct (Hcov a) as (r & Hr & Hra); [apply in_or_app; auto|].
  pose proof (Hin_x r Hr) as Hrx.
  destruct (Z.eq_dec r a) as [-> | Hne]; [assumption|].
  rewrite (Hax r a Hrx Hax' Hne) in Hra. discriminate.
Qed.

(** [getUnion_contains] at two one-cell unions and a leaf of the second. *)
Lemma getUnion_contains_witness :
  let x := [child (fromFace 0) 1] in
  let y := [child (fromFace 0) 2] in
  let id := rangeMin (child (fromFace 0) 2) in
  normalCells x /\ normalCells y /\ cell id
  /\ (S2CellUnion.contains (getUnion x y) id = true <->
      S2CellUnion.contains x id = true \/ S2CellUnion.contains y id = true).
Proof.
  intros x y id.
  assert (Hx : normalCells x).
  { apply PredicateTheorems.normalCells_check; [apply Samples.cells_check | |];
      vm_compute; reflexivity. }
  assert (Hy : normalCells y).
  { apply PredicateTheorems.normalCells_check; [apply Samples.cells_check | |];
      vm_compute; reflexivity. }
  assert (Hid : cell id) by (apply Samples.cell_check; vm_compute; reflexivity).
  exact (conj Hx (conj Hy (conj Hid (getUnion_contains x y id Hx Hy Hid)))).
Defined.

(** [getUnion_absorbs] at a union of two cells and a leaf of the first. *)
Lemma getUnion_absorbs_witness :
  let x := [child (fromFace 0) 1; child (fromFace 0) 2] in
  let y := [rangeMin (child (fromFace 0) 1)] in
  normalCells x /\ Forall cell y /\ containsUnion x y = true
  /\ getUnion x y = x.
Proof.
  intros x y.
  assert (Hx : normalCells x).
  { apply PredicateTheorems.normalCells_check; [apply Samples.cells_check | |];
      vm_compute; reflexivity. }
  assert (Hy : Forall cell y) by (apply Samples.cells_check; vm_compute; reflexivity).
  assert (Hs : containsUnion x y = true) by (vm_compute; reflexivity).
  exact (conj Hx (conj Hy (conj Hs (getUnion_absorbs x y Hx Hy Hs)))).
Defined.

End UnionTheorems.

(** ** expand against its description *)

Module ExpandRefinement.

Import S2CellId S2CellUnion ArrayFacts CellFacts SortFacts Inv.
Import NormalFacts HierarchyFacts ExpandTermination ExpandCoverage ExpandSpec.
Import CanonicalFacts CanonicalTheorems.



(** *** The stored array as the description has it *)








Section Refinement.

Variable getAllNeighbors : Z -> Z -> list Z.

Variable u : list Z.

Variable level : Z.

Hypothesis u_valid : Forall validId u.

Hypothesis level_valid : 0 <= level <= 30.




End Refinement.



End ExpandRefinement.

(** ** The two intersections *)

Module IntersectionAlgebra.

Import S2CellId S2CellUnion ArrayFacts CellFacts SortFacts Inv.
Import NormalFacts SearchFacts CanonicalFacts SweepFacts.
Import ExpandCoverage CanonicalTheorems UnionTheorems.

(** The loop of getIntersectionUU ends on every pair of arrays: each turn
    moves a cursor forward, and the entry read at [j - 1] after a search
    exists. *)
Lemma loop_total (x y : list Z) (f : nat) :
  forall i j out,
    ((length x - i) + (length y - j) < f)%nat ->
    exists r, intersectionLoop f x y (Z.of_nat i) (Z.of_nat j) out = Ok r.
Proof.
  induction f as [| f IH]; intros i j out Hf; [lia|].
  destruct (Nat.lt_ge_cases i (length x)) as [Hi | Hi];
    [destruct (Nat.lt_ge_cases j (length y)) as [Hj | Hj]|].
  2, 3: exists out; apply loop_exit; lia.
  rewrite loop_turn by assumption. cbv zeta.
  destruct (insertionPoint_spec y (rangeMin (nth i x 0)) (S j)) as (Hy1 & Hy2 & _).
  destruct (insertionPoint_spec x (rangeMin (nth j y 0)) (S i)) as (Hx1 & Hx2 & _).
  specialize (Hy2 ltac:(lia)). specialize (Hx2 ltac:(lia)).
  set (py := insertionPoint y (rangeMin (nth i x 0)) (S j)) in *.
  set (px := insertionPoint x (rangeMin (nth j y 0)) (S i)) in *.
  destruct (rangeMin (nth j y 0) <? rangeMin (nth i x 0)).
  - destruct (Z.leb_spec (nth i x 0) (rangeMax (nth j y 0))) as [Hin | Hout].
    + apply IH. lia.
    + destruct (Z.leb_spec (nth i x 0) (rangeMax (nth (py - 1) y 0))) as [Ht | Ht].
      * assert ((py - 1)%nat <> j) by (intros E; rewrite E in Ht; lia).
        apply IH. lia.
      * apply IH. lia.
  - destruct (rangeMin (nth i x 0) <? rangeMin (nth j y 0)).
    + destruct (Z.leb_spec (nth j y 0) (rangeMax (nth i x 0))) as [Hin | Hout].
      * apply IH. lia.
      * destruct (Z.leb_spec (nth j y 0) (rangeMax (nth (px - 1) x 0))) as [Ht | Ht].
        -- assert ((px - 1)%nat <> i) by (intros E; rewrite E in Ht; lia).
           apply IH. lia.
        -- apply IH. lia.
    + destruct (nth i x 0 <? nth j y 0); apply IH; lia.
Qed.

(** getIntersectionUU returns on every pair of arrays, normalized or not:
    no entry is read outside its array and the loop takes at most as many
    turns as the two arrays have entries; with an empty operand the result
    is empty. *)
Theorem getIntersectionUU_returns :
  (forall x y, exists r, getIntersectionUU x y = Ok r)
  /\ (forall x, getIntersectionUU x [] = Ok [])
  /\ (forall y, getIntersectionUU [] y = Ok []).
Proof.
  split; [|split].
  - intros x y. unfold getIntersectionUU.
    apply (loop_total x y (length x + length y + 1) 0 0 []). lia.
  - intros x. unfold getIntersectionUU.
    replace (length x + length [] + 1)%nat with (S (length x)) by (simpl; lia).
    apply (loop_exit x [] (length x) 0 0 []). simpl. lia.
  - intros y. unfold getIntersectionUU.
    replace (length [] + length y + 1)%nat with (S (length y)) by (simpl; lia).
    apply (loop_exit [] y (length y) 0 0 []). simpl. lia.
Qed.

(** The result of the sweep is determined by the cells of the
    intersection. *)
Lemma sweep_unique (x y r : list Z) :
  normalCells x -> normalCells y ->
  StronglySorted Z.lt r -> (forall c, In c r <-> inter x y c) ->
  getIntersectionUU x y = Ok r.
Proof.
  intros Hx Hy Hs Hin.
  destruct (sweep_result x y Hx Hy) as (r' & E & Hs' & Hin').
  rewrite E. f_equal. apply sorted_ext; auto.
  intros a. rewrite Hin, Hin'. tauto.
Qed.

(** getIntersectionUU does not depend on the order of its operands. *)
Theorem getIntersectionUU_commutative (x y : list Z) :
  normalCells x -> normalCells y ->
  getIntersectionUU x y = getIntersectionUU y x.
Proof.
  intros Hx Hy.
  destruct (sweep_result y x Hy Hx) as (r & E & Hs & Hin).
  rewrite E. apply sweep_unique; auto.
  intros c. rewrite Hin. split; apply inter_sym.
Qed.

(** Absorption: the intersection of a union with a union that contains it
    is the union itself; in particular the intersection of a union with
    itself. *)
Theorem getIntersectionUU_absorbs :
  (forall x y, normalCells x -> normalCells y -> containsUnion y x = true ->
               getIntersectionUU x y = Ok x)
  /\ (forall x, normalCells x -> getIntersectionUU x x = Ok x).
Proof.
  split.
  - intros x y Hx Hy Hsub. pose proof Hx as (Hsx & Hax & Hcx).
    pose proof Hy as (Hsy & Hay & Hcy).
    pose proof (containsUnion_covers y x Hcy Hcx Hsub) as Hxy.
    apply sweep_unique; auto.
    rewrite Forall_forall in Hcx, Hcy.
    intros c. split.
    + intros Hc. left. auto.
    + intros [(Hc & _) | (Hc & a & Ha & Hac)]; [assumption|].
      destruct (Hxy a Ha) as (b & Hb & Hba).
      pose proof (contains_trans _ _ _ Hba Hac) as Hbc.
      destruct (Z.eq_dec b c) as [-> | Hne].
      * assert (a = c) by (apply contains_antisym; auto). subst a. assumption.
      * rewrite (Hay b c Hb Hc Hne) in Hbc. discriminate.
  - intros x Hx. apply sweep_unique; auto; [apply Hx|].
    intros c. split.
    + intros Hc. left. split; [assumption|].
      exists c. split; [assumption | apply contains_refl].
    + intros [(Hc & _) | (Hc & _)]; assumption.
Qed.

(** *** getIntersection with a cell *)

Lemma takeUpTo_In (m : Z) (rest : list Z) (e : Z) :
  StronglySorted Z.lt rest ->
  (In e (takeUpTo m rest) <-> In e rest /\ e <= m).
Proof.
  induction 1 as [| c rest Hs IH Hc]; simpl; [tauto|].
  rewrite Forall_forall in Hc.
  destruct (Z.leb_spec c m) as [Hle | Hgt]; simpl.
  - rewrite IH. split.
    + intros [<- | [H1 H2]]; auto.
    + intros [[<- | H1] H2]; auto.
  - split; [intros [] |]. intros [[<- | H1] H2]; [lia|].
    specialize (Hc e H1). lia.
Qed.

Lemma takeUpTo_sorted (m : Z) (rest : list Z) :
  StronglySorted Z.lt rest -> StronglySorted Z.lt (takeUpTo m rest).
Proof.
  induction 1 as [| c rest Hs IH Hc]; simpl; [constructor|].
  destruct (c <=? m); [|constructor].
  constructor; [assumption|].
  apply Forall_forall. intros e He.
  apply (takeUpTo_In m rest e Hs) in He. destruct He as [He _].
  rewrite Forall_forall in Hc. auto.
Qed.

Lemma skipn_sorted (p : nat) (l : list Z) :
  StronglySorted Z.lt l -> StronglySorted Z.lt (skipn p l).
Proof.
  intros Hs. rewrite <- (firstn_skipn p l) in Hs. apply ss_app in Hs. tauto.
Qed.

(** The entries from the insertion point of a key on are the entries not
    below the key. *)
Lemma skipn_insertionPoint (l : list Z) (key e : Z) :
  StronglySorted Z.lt l ->
  (In e (skipn (insertionPoint l key 0) l) <-> In e l /\ key <= e).
Proof.
  induction 1 as [| c l Hs IH Hc]; simpl; [tauto|].
  rewrite Forall_forall in Hc.
  destruct (Z.ltb_spec c key) as [Hlt | Hge]; simpl.
  - rewrite IH. split; [tauto|]. intros [[<- | H1] H2]; [lia | auto].
  - split.
    + intros [<- | H1]; [auto|]. specialize (Hc e H1). split; [auto | lia].
    + tauto.
Qed.

(** The entries that getIntersection stores when the union does not
    contain the cell: the entries of the union inside the cell. *)
Lemma getIntersection_entries (x : list Z) (id e : Z) :
  normalCells x -> cell id -> S2CellUnion.contains x id = false ->
  StronglySorted Z.lt (getIntersection x id)
  /\ (In e (getIntersection x id) <-> In e x /\ S2CellId.contains id e = true).
Proof.
  intros (Hs & Ha & Hc) Hid Hno. unfold getIntersection. rewrite Hno.
  rewrite binarySearch_pos, Nat2Z.id. cbv zeta. split.
  - apply takeUpTo_sorted, skipn_sorted, Hs.
  - rewrite takeUpTo_In by (apply skipn_sorted, Hs).
    rewrite skipn_insertionPoint by exact Hs.
    rewrite Forall_forall in Hc. split.
    + intros [[Hin Hlo] Hhi]. split; [assumption|].
      apply in_range_contains; auto.
    + intros [Hin Hcon]. apply (contains_in_range _ _ (Hc e Hin)) in Hcon. tauto.
Qed.

Lemma single_normalCells (id : Z) : cell id -> normalCells [id].
Proof.
  intros Hid. split; [|split].
  - repeat constructor.
  - intros a b [<- | []] [<- | []] Hne. contradiction.
  - constructor; [assumption | constructor].
Qed.

(** getIntersection with a cell stores what getIntersectionUU stores for
    the one-cell union of that cell. *)
Theorem getIntersection_agrees (x : list Z) (id : Z) :
  normalCells x -> cell id ->
  getIntersectionUU x [id] = Ok (getIntersection x id).
Proof.
  intros Hx Hid. pose proof Hx as (Hs & Ha & Hc).
  pose proof (single_normalCells id Hid) as Hone.
  destruct (S2CellUnion.contains x id) eqn:Econ.
  - (* an entry contains the cell: the result is the cell *)
    assert (Eg : getIntersection x id = [id]) by (unfold getIntersection; rewrite Econ; reflexivity).
    rewrite Eg. apply sweep_unique; auto; [repeat constructor|].
    destruct (contains_sound x id Hc Hid Econ) as (a & Hain & Haid).
    rewrite Forall_forall in Hc.
    intros c. split.
    + intros [<- | []]. right. split; [simpl; auto|]. exists a. auto.
    + intros [(Hcx & b & [<- | []] & Hbc) | ([<- | []] & _)]; [|simpl; auto].
      left. destruct (Z.eq_dec a c) as [-> | Hne].
      * apply contains_antisym; auto.
      * pose proof (contains_trans _ _ _ Haid Hbc) as Hac.
        rewrite (Ha a c Hain Hcx Hne) in Hac. discriminate.
  - destruct (getIntersection_entries x id id Hx Hid Econ) as [Hsorted _].
    apply sweep_unique; auto.
    intros c. destruct (getIntersection_entries x id c Hx Hid Econ) as [_ Hin].
    rewrite Hin. split.
    + intros [Hcx Hcon]. left. split; [assumption|]. exists id. simpl. auto.
    + intros [(Hcx & b & [<- | []] & Hbc) | ([<- | []] & Hcov)]; [auto|].
      exfalso. apply contains_complete in Hcov; auto. congruence.
Qed.

(** getIntersection with a cell contains an identifier exactly when the
    union contains it and it lies inside the cell. *)
Theorem getIntersection_contains (x : list Z) (id id' : Z) :
  normalCells x -> cell id -> cell id' ->
  (S2CellUnion.contains (getIntersection x id) id' = true <->
   S2CellUnion.contains x id' = true /\ S2CellId.contains id id' = true).
Proof.
  intros Hx Hid Hid'. pose proof Hx as (Hs & Ha & Hc).
  destruct (S2CellUnion.contains x id) eqn:Econ.
  - assert (Eg : getIntersection x id = [id]) by (unfold getIntersection; rewrite Econ; reflexivity).
    rewrite Eg.
    destruct (contains_sound x id Hc Hid Econ) as (a & Hain & Haid).
    destruct (single_normalCells id Hid) as (Hs1 & Ha1 & Hc1).
    split.
    + intros H. apply (contains_sound [id] id' Hc1 Hid') in H.
      destruct H as (c & [<- | []] & Hcid). split; [|assumption].
      apply (contains_complete x id' Hs Ha Hc Hid').
      exists a. split; [assumption | eapply contains_trans; eassumption].
    + intros [_ Hcon]. apply (contains_complete [id] id' Hs1 Ha1 Hc1 Hid').
      exists id. simpl. auto.
  - assert (Hsorted := proj1 (getIntersection_entries x id id Hx Hid Econ)).
    assert (Hin : forall e, In e (getIntersection x id) <->
                            In e x /\ S2CellId.contains id e = true)
      by (intros e; apply (getIntersection_entries x id e Hx Hid Econ)).
    rewrite Forall_forall in Hc.
    assert (Hcells : Forall cell (getIntersection x id)).
    { apply Forall_forall. intros e He. apply Hin in He. apply Hc, He. }
    assert (Hanti : antichain (getIntersection x id)).
    { intros p q Hp Hq Hne. apply Hin in Hp, Hq. apply Ha; tauto. }
    split.
    + intros H. apply contains_sound in H; auto.
      destruct H as (e & He & Hcon). apply Hin in He. destruct He as [Hex Hide].
      split; [|eapply contains_trans; eassumption].
      apply contains_complete; auto; [apply Forall_forall; exact Hc|].
      exists e. auto.
    + intros [Hx' Hcon]. apply contains_sound in Hx'; auto;
        [|apply Forall_forall; exact Hc].
      destruct Hx' as (e & He & Hee).
      apply contains_complete; auto.
      exists e. split; [|assumption]. apply Hin. split; [assumption|].
      destruct (common_nested e id id' (Hc e He) Hid Hid' Hee Hcon) as [H | H];
        [|assumption].
      exfalso. assert (Hcov : Normal.covers x id) by (exists e; auto).
      apply contains_complete in Hcov; auto; [congruence|].
      apply Forall_forall. exact Hc.
Qed.

(** [getIntersectionUU_commutative] at two overlapping unions. *)
Lemma getIntersectionUU_commutative_witness :
  let x := [child (fromFace 0) 1; child (fromFace 0) 2] in
  let y := [rangeMin (child (fromFace 0) 1); child (fromFace 0) 2] in
  normalCells x /\ normalCells y
  /\ getIntersectionUU x y = getIntersectionUU y x.
Proof.
  intros x y.
  assert (Hx : normalCells x).
  { apply PredicateTheorems.normalCells_check; [apply Samples.cells_check | |];
      vm_compute; reflexivity. }
  assert (Hy : normalCells y).
  { apply PredicateTheorems.normalCells_check; [apply Samples.cells_check | |];
      vm_compute; reflexivity. }
  exact (conj Hx (conj Hy (getIntersectionUU_commutative x y Hx Hy))).
Defined.

(** [getIntersectionUU_absorbs] at a leaf and a union that contains it. *)
Lemma getIntersectionUU_absorbs_witness :
  let x := [rangeMin (child (fromFace 0) 1)] in
  let y := [child (fromFace 0) 1; child (fromFace 0) 2] in
  normalCells x /\ normalCells y /\ containsUnion y x = true
  /\ getIntersectionUU x y = Ok x.
Proof.
  intros x y.
  assert (Hx : normalCells x).
  { apply PredicateTheorems.normalCells_check; [apply Samples.cells_check | |];
      vm_compute; reflexivity. }
  assert (Hy : normalCells y).
  { apply PredicateTheorems.normalCells_check; [apply Samples.cells_check | |];
      vm_compute; reflexivity. }
  assert (Hs : containsUnion y x = true) by (vm_compute; reflexivity).
  exact (conj Hx (conj Hy (conj Hs
           (proj1 getIntersectionUU_absorbs x y Hx Hy Hs)))).
Defined.

(** [getIntersection_agrees] at a union of two leaves and the cell that
    holds the first. *)
Lemma getIntersection_agrees_witness :
  let x := [rangeMin (child (fromFace 0) 1); rangeMin (child (fromFace 0) 2)] in
  let id := child (fromFace 0) 1 in
  normalCells x /\ cell id
  /\ getIntersectionUU x [id] = Ok (getIntersection x id).
Proof.
  intros x id.
  assert (Hx : normalCells x).
  { apply PredicateTheorems.normalCells_check; [apply Samples.cells_check | |];
      vm_compute; reflexivity. }
  assert (Hid : cell id) by (apply Samples.cell_check; vm_compute; reflexivity).
  exact (conj Hx (conj Hid (getIntersection_agrees x id Hx Hid))).
Defined.

(** [getIntersection_contains] at a union of two leaves, the cell that
    holds the first, and that leaf. *)
Lemma getIntersection_contains_witness :
  let x := [rangeMin (child (fromFace 0) 1); rangeMin (child (fromFace 0) 2)] in
  let id := child (fromFace 0) 1 in
  let id' := rangeMin (child (fromFace 0) 1) in
  normalCells x /\ cell id /\ cell id'
  /\ (S2CellUnion.contains (getIntersection x id) id' = true <->
      S2CellUnion.contains x id' = true /\ S2CellId.contains id id' = true).
Proof.
  intros x id id'.
  assert (Hx : normalCells x).
  { apply PredicateTheorems.normalCells_check; [apply Samples.cells_check | |];
      vm_compute; reflexivity. }
  assert (Hid : cell id) by (apply Samples.cell_check; vm_compute; reflexivity).
  assert (Hid' : cell id') by (apply Samples.cell_check; vm_compute; reflexivity).
  exact (conj Hx (conj Hid (conj Hid'
           (getIntersection_contains x id id' Hx Hid Hid')))).
Defined.

End IntersectionAlgebra.

(** ** The region stored by expand *)

Module ExpandRegion.

Import S2CellId S2CellUnion ArrayFacts CellFacts SortFacts Inv Region.
Import NormalFacts HierarchyFacts SearchFacts CanonicalFacts SweepFacts.
Import ExpandTermination ExpandCoverage CanonicalTheorems.

(** A cell inside another one that is not finer is that cell. *)
Lemma contained_coarser (P c : Z) :
  cell P -> cell c -> S2CellId.contains P c = true ->
  lowestOnBit P <= lowestOnBit c -> c = P.
Proof.
  intros HP Hc Hcon Hl.
  apply contains_antisym; auto.
  apply (contains_in_range _ _ Hc) in Hcon.
  pose proof (range_bounds P HP). pose proof (range_bounds c Hc).
  unfold S2CellId.contains. apply andb_true_iff. rewrite !Z.leb_le.
  destruct (blocks_laminar c P Hc HP Hl) as [H1 | [H1 | H1]]; lia.
Qed.

(** The cell pushed for an entry is a cell that contains the entry and is
    not finer than the level. *)
Lemma atLevel_spec (lvl c : Z) :
  cell c -> 0 <= lvl <= 30 ->
  cell (atLevel lvl c)
  /\ S2CellId.contains (atLevel lvl c) c = true
  /\ lowestOnBitForLevel lvl <= lowestOnBit (atLevel lvl c)
  /\ (lowestOnBit c < lowestOnBitForLevel lvl ->
      lowestOnBit (atLevel lvl c) = lowestOnBitForLevel lvl).
Proof.
  intros Hc Hlvl. unfold atLevel.
  destruct (Z.ltb_spec (lowestOnBit c) (lowestOnBitForLevel lvl)) as [Hlt | Hge].
  - destruct (parentL_ancestor c lvl Hc Hlvl Hlt) as (H1 & H2 & H3).
    split; [assumption | split; [assumption | split; [lia | intros _; exact H3]]].
  - split; [assumption | split; [apply contains_refl | split; [assumption | lia]]].
Qed.

(** Every entry inside an ancestor at the level has that ancestor pushed
    for it: the entries that the inner loop skips contribute nothing
    else. *)
Lemma atLevel_inside (lvl P c : Z) :
  cell P -> cell c -> 0 <= lvl <= 30 ->
  lowestOnBit P = lowestOnBitForLevel lvl ->
  S2CellId.contains P c = true -> atLevel lvl c = P.
Proof.
  intros HP Hc Hlvl HlP Hcon.
  destruct (atLevel_spec lvl c Hc Hlvl) as (Ha & Hac & Hal & Hal').
  destruct (Z_lt_le_dec (lowestOnBit c) (lowestOnBitForLevel lvl)) as [Hlt | Hge].
  - specialize (Hal' Hlt).
    destruct (common_nested (atLevel lvl c) P c Ha HP Hc Hac Hcon) as [H | H].
    + symmetry. apply contained_coarser; auto. lia.
    + apply contained_coarser; auto. lia.
  - unfold atLevel. destruct (Z.ltb_spec (lowestOnBit c) (lowestOnBitForLevel lvl)); [lia|].
    apply contained_coarser; auto. lia.
Qed.

Section Entries.

Variable getAllNeighbors : Z -> Z -> list Z.

Variable u : list Z.

Variable level : Z.

Hypothesis u_cells : Forall cell u.

Hypothesis level_valid : 0 <= level <= 30.

(** The array that the loop of expand builds holds, beside what it held
    before, what is pushed for the entries up to the cursor. *)
Lemma expandLoop_entries (f : nat) :
  forall i out r,
    0 <= i < size u ->
    expandLoop getAllNeighbors f u level (lowestOnBitForLevel level) i out = Ok r ->
    forall e, In e r <->
              In e out
              \/ exists k, 0 <= k <= i /\ In e (pushed getAllNeighbors level (u.[k])).
Proof.
  induction f as [| f IH]; intros i out r Hi Hrun e; [discriminate|].
  simpl in Hrun. rewrite cellId_in_range in Hrun by lia. simpl in Hrun.
  assert (Hcell : forall k, 0 <= k < size u -> cell (u.[k])).
  { intros k Hk. rewrite Forall_forall in u_cells. apply u_cells, at_In. lia. }
  pose proof (Hcell i Hi) as Hci.
  assert (Hturn : forall i' r',
            0 <= i' <= i ->
            (forall k, i' <= k < i ->
                       atLevel level (u.[k]) = atLevel level (u.[i])) ->
            (if 0 <=? i' - 1
             then expandLoop getAllNeighbors f u level (lowestOnBitForLevel level) (i' - 1)
                    ((out ++ [atLevel level (u.[i])])
                       ++ getAllNeighbors (atLevel level (u.[i])) level)
             else Ok ((out ++ [atLevel level (u.[i])])
                        ++ getAllNeighbors (atLevel level (u.[i])) level)) = Ok r' ->
            In e r' <->
            In e out
            \/ exists k, 0 <= k <= i /\ In e (pushed getAllNeighbors level (u.[k]))).
  { intros i' r' Hi' Hsame Hrun'.
    assert (Hout : In e ((out ++ [atLevel level (u.[i])])
                           ++ getAllNeighbors (atLevel level (u.[i])) level)
                   <-> In e out \/ In e (pushed getAllNeighbors level (u.[i]))).
    { unfold pushed. rewrite !in_app_iff. simpl. tauto. }
    assert (Hskip : forall k, i' <= k <= i ->
              pushed getAllNeighbors level (u.[k])
              = pushed getAllNeighbors level (u.[i])).
    { intros k Hk. destruct (Z.eq_dec k i) as [-> | Hne]; [reflexivity|].
      unfold pushed. rewrite (Hsame k) by lia. reflexivity. }
    destruct (Z.leb_spec 0 (i' - 1)).
    - rewrite (IH (i' - 1) _ r' ltac:(lia) Hrun' e), Hout. split.
      + intros [[H1 | H1] | (k & Hk & H1)]; auto.
        * right. exists i. split; [lia | assumption].
        * right. exists k. split; [lia | assumption].
      + intros [H1 | (k & Hk & H1)]; auto.
        destruct (Z_lt_le_dec k i') as [Hlt | Hge].
        * right. exists k. split; [lia | assumption].
        * left. right. rewrite <- (Hskip k) by lia. assumption.
    - injection Hrun' as <-. rewrite Hout. split.
      + intros [H1 | H1]; auto. right. exists i. split; [lia | assumption].
      + intros [H1 | (k & Hk & H1)]; auto.
        right. rewrite <- (Hskip k) by lia. assumption. }
  destruct (Z.ltb_spec (lowestOnBit (u.[i])) (lowestOnBitForLevel level)) as [Hfine | Hcoarse].
  - destruct (parentL_ancestor (u.[i]) level Hci level_valid Hfine) as (Hca & Hcon & Hlsb).
    destruct (skipContained_spec u (parentL (u.[i]) level) (length u) i)
      as (i' & E & Hb & Hin & _); [lia | unfold size in Hi; lia |].
    rewrite E in Hrun. simpl in Hrun.
    assert (Ea : atLevel level (u.[i]) = parentL (u.[i]) level).
    { unfold atLevel.
      destruct (Z.ltb_spec (lowestOnBit (u.[i])) (lowestOnBitForLevel level)); [reflexivity | lia]. }
    rewrite <- Ea in *.
    apply (Hturn i' r); [lia | | exact Hrun].
    intros k Hk. apply atLevel_inside; auto. apply Hcell. lia.
  - simpl in Hrun.
    assert (Ea : atLevel level (u.[i]) = u.[i]).
    { unfold atLevel.
      destruct (Z.ltb_spec (lowestOnBit (u.[i])) (lowestOnBitForLevel level)); [lia | reflexivity]. }
    rewrite Ea in Hturn.
    apply (Hturn i r); [lia | | exact Hrun].
    intros k Hk. lia.
Qed.

(** The array that expand hands to initSwap. *)
Lemma expandOutput_entries :
  u <> [] ->
  exists o, expandOutput getAllNeighbors u level = Ok o
            /\ forall e, In e o <->
                         exists c, In c u /\ In e (pushed getAllNeighbors level c).
Proof.
  intros Hne.
  assert (Hsz : 0 < size u).
  { unfold size. destruct u; [contradiction | simpl length; lia]. }
  destruct (expandLoop_total getAllNeighbors u level (lowestOnBitForLevel level)
              (length u + 1) (size u - 1) []) as (o & Eo);
    [lia | unfold size; lia |].
  exists o. split; [exact Eo|].
  intros e.
  rewrite (expandLoop_entries (length u + 1) (size u - 1) [] o ltac:(lia) Eo e). split.
  - intros [[] | (k & Hk & H)]. exists (u.[k]). split; [apply at_In; lia | exact H].
  - intros (c & Hc & H). right.
    destruct (In_nth u c 0 Hc) as (k & Hk & Ek).
    exists (Z.of_nat k). split; [unfold size; lia|].
    unfold at_. rewrite Nat2Z.id, Ek. exact H.
Qed.

End Entries.

(** expand stores a sorted array of cells none of which contains another,
    and the region it stores is exactly the region of the cells pushed in
    the loop: for each entry its ancestor at the level (or the entry itself
    when it is not finer than the level) and the neighbours of that
    cell. *)
Theorem expand_region
  (getAllNeighbors : Z -> Z -> list Z) (u : list Z) (level : Z) :
  (forall c lvl, Forall cell (getAllNeighbors c lvl)) ->
  Forall validId u -> u <> [] -> 0 <= level <= 30 ->
  exists r, expand getAllNeighbors u level = Ok r
            /\ normalCells r
            /\ forall id, Normal.covers r id <->
                          exists c, In c u
                                    /\ Normal.covers (pushed getAllNeighbors level c) id.
Proof.
  intros Hnb Hv Hne Hlevel.
  pose proof (valid_cells u Hv) as Hc.
  destruct (expandOutput_entries getAllNeighbors u level Hc Hlevel Hne) as (o & Eo & Hin).
  assert (Hoc : Forall cell o).
  { apply Forall_forall. intros e He. apply Hin in He.
    destruct He as (c & Hcu & [<- | Hn]).
    - rewrite Forall_forall in Hc. apply atLevel_spec; auto.
    - specialize (Hnb (atLevel level c) level). rewrite Forall_forall in Hnb. auto. }
  exists (initSwap o). unfold expand. rewrite Eo. simpl.
  split; [reflexivity | split].
  - apply normalize_normalCells, Hoc.
  - intros id. unfold initSwap. rewrite (normalize_covers o id Hoc). split.
    + intros (e & He & Hcon). apply Hin in He. destruct He as (c & Hcu & He).
      exists c. split; [assumption|]. exists e. auto.
    + intros (c & Hcu & e & He & Hcon). exists e. split; [|assumption].
      apply Hin. exists c. auto.
Qed.

(** Comparing the lowest set bit of a cell with that of a level compares
    the levels. *)
Lemma level_le (e lvl : Z) :
  cell e -> 0 <= lvl <= 30 ->
  (lowestOnBitForLevel lvl <= lowestOnBit e <-> S2CellId.level e <= lvl).
Proof.
  intros He Hlvl. destruct (cell_shape e He) as (k & m & Hk & _ & _ & _ & Hl).
  unfold S2CellId.level, MAX_LEVEL. rewrite Hl, lowestOnBitForLevel_pow2 by assumption.
  rewrite Z.log2_pow2 by lia.
  pose proof (Z.div_mod k 2 ltac:(lia)) as Hdm.
  pose proof (Z.mod_pos_bound k 2 ltac:(lia)) as Hmod.
  split.
  - intros H. apply Z.pow_le_mono_r_iff in H; lia.
  - intros H. apply Z.pow_le_mono_r; lia.
Qed.

(** When the neighbours enumerated at the level are not finer than the
    level, no cell that expand stores is finer than the level. *)
Theorem expand_levels
  (getAllNeighbors : Z -> Z -> list Z) (u : list Z) (level : Z) :
  (forall c, Forall (fun n => cell n /\ S2CellId.level n <= level)
                    (getAllNeighbors c level)) ->
  Forall validId u -> u <> [] -> 0 <= level <= 30 ->
  exists r, expand getAllNeighbors u level = Ok r
            /\ Forall (fun e => S2CellId.level e <= level) r.
Proof.
  intros Hnb Hv Hne Hlevel.
  pose proof (valid_cells u Hv) as Hc.
  destruct (expandOutput_entries getAllNeighbors u level Hc Hlevel Hne) as (o & Eo & Hin).
  assert (Ho : Forall (fun e => cell e /\ S2CellId.level e <= level) o).
  { apply Forall_forall. intros e He. apply Hin in He.
    destruct He as (c & Hcu & [<- | Hn]).
    - rewrite Forall_forall in Hc.
      destruct (atLevel_spec level c (Hc c Hcu) Hlevel) as (H1 & _ & H2 & _).
      split; [assumption | apply level_le; assumption].
    - specialize (Hnb (atLevel level c)). rewrite Forall_forall in Hnb. auto. }
  exists (initSwap o). unfold expand. rewrite Eo. simpl.
  split; [reflexivity|].
  apply Forall_forall. intros e He.
  assert (Hu : Forall u64 o).
  { eapply Forall_impl; [|exact Ho]. intros a [Ha _]. unfold cell, u64 in *. lia. }
  apply (normalize_incl o Hu) in He.
  rewrite Forall_forall in Ho. apply Ho, He.
Qed.

(** [expand_region] at a level-1 cell expanded at level 0, with a
    neighbour enumeration that yields the next face. *)
Lemma expand_region_witness :
  let nb := fun _ _ : Z => [fromFace 1] in
  let u := [child (fromFace 0) 1] in
  (forall c lvl, Forall cell (nb c lvl)) /\ Forall validId u /\ u <> []
  /\ 0 <= 0 <= 30
  /\ exists r, expand nb u 0 = Ok r
               /\ normalCells r
               /\ forall id, Normal.covers r id <->
                             exists c, In c u /\ Normal.covers (pushed nb 0 c) id.
Proof.
  intros nb u.
  assert (Hnb : forall c lvl, Forall cell (nb c lvl)).
  { intros c lvl. apply Samples.cells_check. vm_compute. reflexivity. }
  assert (Hu : Forall validId u) by (apply Samples.valid_check; vm_compute; reflexivity).
  assert (Hne : u <> []) by discriminate.
  assert (Hl : 0 <= 0 <= 30) by lia.
  exact (conj Hnb (conj Hu (conj Hne (conj Hl (expand_region nb u 0 Hnb Hu Hne Hl))))).
Defined.

(** [expand_levels] at a level-1 cell expanded at level 0, with a
    neighbour enumeration that yields the next face. *)
Lemma expand_levels_witness :
  let nb := fun _ _ : Z => [fromFace 1] in
  let u := [child (fromFace 0) 1] in
  (forall c, Forall (fun n => cell n /\ S2CellId.level n <= 0) (nb c 0))
  /\ Forall validId u /\ u <> [] /\ 0 <= 0 <= 30
  /\ exists r, expand nb u 0 = Ok r
               /\ Forall (fun e => S2CellId.level e <= 0) r.
Proof.
  intros nb u.
  assert (Hnb : forall c, Forall (fun n => cell n /\ S2CellId.level n <= 0) (nb c 0)).
  { intros c. constructor; [|constructor]. split.
    - apply Samples.cell_check. vm_compute. reflexivity.
    - vm_compute. discriminate. }
  assert (Hu : Forall validId u) by (apply Samples.valid_check; vm_compute; reflexivity).
  assert (Hne : u <> []) by discriminate.
  assert (Hl : 0 <= 0 <= 30) by lia.
  exact (conj Hnb (conj Hu (conj Hne (conj Hl (expand_levels nb u 0 Hnb Hu Hne Hl))))).
Defined.

End ExpandRegion.

(** ** expand and expandA on valid identifiers *)

Module ExpandValidity.

Import S2CellId S2CellUnion ArrayFacts CellFacts SortFacts Inv Region.
Import NormalFacts HierarchyFacts SearchFacts CanonicalFacts SweepFacts.
Import ExpandTermination ExpandCoverage CanonicalTheorems ExpandRegion.

(** A cell below the end of face 5 whose lowest set bit sits at an even
    position up to 60 is a valid identifier. *)
Lemma valid_intro (p h : Z) :
  cell p -> 0 <= h <= 30 -> lowestOnBit p = 2 ^ (2 * h) -> p < 6 * 2 ^ 61 ->
  validId p.
Proof.
  intros Hc Hh Hl Hp. split; [unfold cell, u64 in *; lia|].
  unfold isValid. apply andb_true_iff. split.
  - apply Z.ltb_lt. unfold face, NUM_FACES. rewrite Z.shiftr_div_pow2 by lia.
    apply Z.div_lt_upper_bound; lia.
  - rewrite Hl.
    assert (Hall : forallb
              (fun n => negb (Z.land (2 ^ (2 * Z.of_nat n)) 0x1555555555555555 =? 0))
              (seq 0 31) = true) by (vm_compute; reflexivity).
    rewrite forallb_forall in Hall.
    specialize (Hall (Z.to_nat h) ltac:(apply in_seq; lia)).
    rewrite Z2Nat.id in Hall by lia. exact Hall.
Qed.

(** The ancestor at a coarser level of a valid identifier is valid. *)
Lemma parentL_valid (x lvl : Z) :
  validId x -> 0 <= lvl <= 30 -> lowestOnBit x < lowestOnBitForLevel lvl ->
  validId (parentL x lvl).
Proof.
  intros Hv Hlvl Hlt. pose proof (valid_cell x Hv) as Hc.
  destruct (parentL_ancestor x lvl Hc Hlvl Hlt) as (Hpc & Hcon & Hl).
  rewrite lowestOnBitForLevel_pow2 in Hl by assumption.
  apply (valid_intro _ (30 - lvl)); [assumption | lia | exact Hl |].
  destruct (valid_shape x Hv) as (h & m & Hh & Hm & E & Hb & _ & _).
  unfold parentL. rewrite lowestOnBitForLevel_pow2 by assumption.
  set (K := 2 * (30 - lvl)) in *.
  rewrite ancestor_at by (unfold cell, u64 in *; lia).
  pose proof (pow2_pos (2 * h) ltac:(lia)) as Hp2h.
  pose proof (pow2_pos K ltac:(unfold K; lia)) as HpK.
  assert (Hx : x < 6 * 2 ^ 61) by (rewrite E; lia).
  assert (E61 : 2 ^ 61 = 2 ^ (60 - K) * 2 ^ (K + 1)).
  { rewrite <- Z.pow_add_r by (unfold K; lia). f_equal. lia. }
  assert (EK1 : 2 ^ (K + 1) = 2 * 2 ^ K) by (rewrite Z.pow_add_r by (unfold K; lia); lia).
  pose proof (pow2_pos (60 - K) ltac:(unfold K; lia)) as HpJ.
  assert (HQ : x / 2 ^ (K + 1) < 6 * 2 ^ (60 - K)).
  { apply Z.div_lt_upper_bound; [lia|]. rewrite E61 in Hx. lia. }
  set (Q := x / 2 ^ (K + 1)) in *.
  rewrite E61, EK1.
  set (J := 2 ^ (60 - K)) in *. set (T := 2 ^ K) in *.
  assert (H1 : (2 * Q + 1) * T <= (2 * (6 * J - 1) + 1) * T)
    by (apply Z.mul_le_mono_nonneg_r; lia).
  lia.
Qed.

Lemma atLevel_valid (lvl c : Z) :
  validId c -> 0 <= lvl <= 30 -> validId (atLevel lvl c).
Proof.
  intros Hv Hlvl. unfold atLevel.
  destruct (Z.ltb_spec (lowestOnBit c) (lowestOnBitForLevel lvl)); [|assumption].
  apply parentL_valid; assumption.
Qed.

(** What expand does to a union of valid identifiers. *)
Lemma expand_summary
  (getAllNeighbors : Z -> Z -> list Z) (u : list Z) (level : Z) :
  (forall c lvl, Forall validId (getAllNeighbors c lvl)) ->
  Forall validId u -> u <> [] -> 0 <= level <= 30 ->
  exists r, expand getAllNeighbors u level = Ok r
            /\ normalCells r /\ Forall validId r /\ r <> []
            /\ (forall id, Normal.covers u id -> Normal.covers r id)
            /\ ((forall c, Forall (fun n => S2CellId.level n <= level)
                                  (getAllNeighbors c level)) ->
                Forall (fun e => S2CellId.level e <= level) r).
Proof.
  intros Hnb Hv Hne Hlevel.
  pose proof (valid_cells u Hv) as Hc.
  destruct (expandOutput_entries getAllNeighbors u level Hc Hlevel Hne) as (o & Eo & Hin).
  assert (Hov : Forall validId o).
  { apply Forall_forall. intros e He. apply Hin in He.
    destruct He as (c & Hcu & [<- | Hn]).
    - rewrite Forall_forall in Hv. apply atLevel_valid; auto.
    - specialize (Hnb (atLevel level c) level). rewrite Forall_forall in Hnb. auto. }
  pose proof (valid_cells o Hov) as Hoc.
  pose proof (cell_u64 o Hoc) as Hou.
  assert (Hcov : forall id, Normal.covers u id -> Normal.covers (initSwap o) id).
  { intros id (c & Hcu & Hcid). unfold initSwap. apply normalize_covers; [assumption|].
    rewrite Forall_forall in Hc.
    destruct (atLevel_spec level c (Hc c Hcu) Hlevel) as (_ & Hac & _).
    exists (atLevel level c). split.
    - apply Hin. exists c. split; [assumption | left; reflexivity].
    - eapply contains_trans; eassumption. }
  exists (initSwap o). unfold expand. rewrite Eo. simpl.
  split; [reflexivity | split; [|split; [|split; [|split]]]].
  - apply normalize_normalCells, Hoc.
  - apply Forall_forall. intros e He. apply (normalize_incl o Hou) in He.
    rewrite Forall_forall in Hov. auto.
  - destruct u as [| c u']; [contradiction|].
    destruct (Hcov c) as (a & Ha & _).
    + exists c. split; [left; reflexivity | apply contains_refl].
    + intros E. rewrite E in Ha. destruct Ha.
  - exact Hcov.
  - intros Hlv. apply Forall_forall. intros e He. apply (normalize_incl o Hou) in He.
    apply Hin in He. destruct He as (c & Hcu & [<- | Hn]).
    + rewrite Forall_forall in Hc.
      destruct (atLevel_spec level c (Hc c Hcu) Hlevel) as (H1 & _ & H2 & _).
      apply level_le; assumption.
    + specialize (Hlv (atLevel level c)). rewrite Forall_forall in Hlv. auto.
Qed.

(** expand keeps identifiers valid: when the neighbour enumeration yields
    valid identifiers, so is every entry that expand stores, and at least
    one is stored. *)
Theorem expand_valid
  (getAllNeighbors : Z -> Z -> list Z) (u : list Z) (level : Z) :
  (forall c lvl, Forall validId (getAllNeighbors c lvl)) ->
  Forall validId u -> u <> [] -> 0 <= level <= 30 ->
  exists r, expand getAllNeighbors u level = Ok r
            /\ Forall validId r /\ r <> [].
Proof.
  intros Hnb Hv Hne Hlevel.
  destruct (expand_summary getAllNeighbors u level Hnb Hv Hne Hlevel)
    as (r & E & _ & Hr & Hn & _).
  exists r. auto.
Qed.

(** The level found by the first loop of expandA: a level, not above the
    level of any entry. *)
Lemma coarsestLevel_spec (u : list Z) :
  Forall validId u ->
  0 <= coarsestLevel u <= 30
  /\ forall c, In c u -> coarsestLevel u <= S2CellId.level c.
Proof.
  intros Hv. unfold coarsestLevel.
  assert (G : forall acc, 0 <= acc <= 30 ->
            0 <= fold_left (fun minLevel id => Z.min minLevel (S2CellId.level id)) u acc <= acc
            /\ forall c, In c u ->
                 fold_left (fun minLevel id => Z.min minLevel (S2CellId.level id)) u acc
                 <= S2CellId.level c).
  { induction Hv as [| a u Ha Hu IH]; intros acc Hacc; simpl.
    - split; [lia | intros c []].
    - destruct (valid_shape a Ha) as (h & m & Hh & _ & _ & _ & _ & Hlev).
      destruct (IH (Z.min acc (S2CellId.level a)) ltac:(lia)) as [H1 H2].
      split; [lia|]. intros c [<- | Hc]; [lia | auto]. }
  destruct (G MAX_LEVEL) as [H1 H2]; [unfold MAX_LEVEL; lia|].
  unfold MAX_LEVEL in *. split; [lia | assumption].
Qed.

(** expandA fails on the empty union, in the call of expand; on a
    non-empty union of valid identifiers, with a level of the radius
    between 0 and 30 and a non-negative level difference, it returns, and
    every identifier covered before is covered by the sorted,
    containment-free array of valid identifiers stored afterwards. *)
Theorem expandA_contains_original
  (getAllNeighbors : Z -> Z -> list Z) (radiusLevel : Z) (widerThanFace : bool)
  (maxLevelDiff : Z) :
  expandA getAllNeighbors radiusLevel widerThanFace [] maxLevelDiff = TypeError
  /\ forall u,
       (forall c lvl, Forall validId (getAllNeighbors c lvl)) ->
       Forall validId u -> u <> [] ->
       0 <= radiusLevel <= 30 -> 0 <= maxLevelDiff ->
       exists r, expandA getAllNeighbors radiusLevel widerThanFace u maxLevelDiff = Ok r
                 /\ normalCells r /\ Forall validId r
                 /\ forall id, Normal.covers u id -> Normal.covers r id.
Proof.
  split.
  - unfold expandA. destruct ((radiusLevel =? 0) && widerThanFace); reflexivity.
  - intros u Hnb Hv Hne Hrl Hd.
    destruct (coarsestLevel_spec u Hv) as [Hml _].
    unfold expandA. cbv zeta.
    set (lvl := Z.min (coarsestLevel u + maxLevelDiff) radiusLevel).
    assert (Hlvl : 0 <= lvl <= 30) by (unfold lvl; lia).
    destruct ((radiusLevel =? 0) && widerThanFace).
    + destruct (expand_summary getAllNeighbors u 0 Hnb Hv Hne ltac:(lia))
        as (r0 & E0 & _ & Hv0 & Hne0 & Hcov0 & _).
      rewrite E0. cbn [bind].
      destruct (expand_summary getAllNeighbors r0 lvl Hnb Hv0 Hne0 Hlvl)
        as (r & E & Hn & Hvr & _ & Hcov & _).
      exists r. repeat split; try assumption; try apply Hn. auto.
    + cbn [bind].
      destruct (expand_summary getAllNeighbors u lvl Hnb Hv Hne Hlvl)
        as (r & E & Hn & Hvr & _ & Hcov & _).
      exists r. repeat split; try assumption; apply Hn.
Qed.

(** expandA uses no cell more than [maxLevelDiff] levels finer than the
    coarsest entry of the input, nor finer than the level of the radius,
    when the neighbours enumerated at a level are not finer than it. *)
Theorem expandA_levels
  (getAllNeighbors : Z -> Z -> list Z) (radiusLevel : Z) (widerThanFace : bool)
  (u : list Z) (maxLevelDiff : Z) :
  (forall c lvl, Forall validId (getAllNeighbors c lvl)) ->
  (forall c lvl, 0 <= lvl <= 30 ->
                 Forall (fun n => S2CellId.level n <= lvl) (getAllNeighbors c lvl)) ->
  Forall validId u -> u <> [] ->
  0 <= radiusLevel <= 30 -> 0 <= maxLevelDiff ->
  exists r, expandA getAllNeighbors radiusLevel widerThanFace u maxLevelDiff = Ok r
            /\ forall e c, In e r -> In c u ->
                           S2CellId.level e <= S2CellId.level c + maxLevelDiff
                           /\ S2CellId.level e <= radiusLevel.
Proof.
  intros Hnb Hnl Hv Hne Hrl Hd.
  destruct (coarsestLevel_spec u Hv) as [Hml Hmin].
  unfold expandA. cbv zeta.
  set (lvl := Z.min (coarsestLevel u + maxLevelDiff) radiusLevel).
  assert (Hlvl : 0 <= lvl <= 30) by (unfold lvl; lia).
  assert (Hend : forall r, Forall (fun e => S2CellId.level e <= lvl) r ->
            forall e c, In e r -> In c u ->
                        S2CellId.level e <= S2CellId.level c + maxLevelDiff
                        /\ S2CellId.level e <= radiusLevel).
  { intros r Hr e c He Hc. rewrite Forall_forall in Hr.
    specialize (Hr e He). specialize (Hmin c Hc). unfold lvl in Hr. lia. }
  destruct ((radiusLevel =? 0) && widerThanFace).
  - destruct (expand_summary getAllNeighbors u 0 Hnb Hv Hne ltac:(lia))
      as (r0 & E0 & _ & Hv0 & Hne0 & _).
    rewrite E0. cbn [bind].
    destruct (expand_summary getAllNeighbors r0 lvl Hnb Hv0 Hne0 Hlvl)
      as (r & E & _ & _ & _ & _ & Hlev).
    exists r. split; [exact E|]. apply Hend, Hlev. intros c. apply Hnl, Hlvl.
  - cbn [bind].
    destruct (expand_summary getAllNeighbors u lvl Hnb Hv Hne Hlvl)
      as (r & E & _ & _ & _ & _ & Hlev).
    exists r. split; [exact E|]. apply Hend, Hlev. intros c. apply Hnl, Hlvl.
Qed.

(** The sample enumeration: the next face, whatever the cell. *)
Lemma sample_neighbors :
  (forall c lvl : Z, Forall validId [fromFace 1])
  /\ (forall c lvl : Z, 0 <= lvl <= 30 ->
        Forall (fun n => S2CellId.level n <= lvl) [fromFace 1]).
Proof.
  split.
  - intros _ _. apply Samples.valid_check. vm_compute. reflexivity.
  - intros _ lvl Hlvl. constructor; [|constructor].
    replace (S2CellId.level (fromFace 1)) with 0 by (vm_compute; reflexivity).
    apply Hlvl.
Qed.

(** [expand_valid] at a level-1 cell expanded at level 0, with a
    neighbour enumeration that yields the next face. *)
Lemma expand_valid_witness :
  let nb := fun _ _ : Z => [fromFace 1] in
  let u := [child (fromFace 0) 1] in
  (forall c lvl, Forall validId (nb c lvl)) /\ Forall validId u /\ u <> []
  /\ 0 <= 0 <= 30
  /\ exists r, expand nb u 0 = Ok r /\ Forall validId r /\ r <> [].
Proof.
  intros nb u.
  assert (Hnb : forall c lvl, Forall validId (nb c lvl)) by exact (proj1 sample_neighbors).
  assert (Hu : Forall validId u) by (apply Samples.valid_check; vm_compute; reflexivity).
  assert (Hne : u <> []) by discriminate.
  assert (Hl : 0 <= 0 <= 30) by lia.
  exact (conj Hnb (conj Hu (conj Hne (conj Hl (expand_valid nb u 0 Hnb Hu Hne Hl))))).
Defined.

(** [expandA_contains_original] at a level-1 cell, a radius of level 0
    wider than a face, and no level difference. *)
Lemma expandA_contains_original_witness :
  let nb := fun _ _ : Z => [fromFace 1] in
  let u := [child (fromFace 0) 1] in
  (forall c lvl, Forall validId (nb c lvl)) /\ Forall validId u /\ u <> []
  /\ 0 <= 0 <= 30 /\ 0 <= 0
  /\ exists r, expandA nb 0 true u 0 = Ok r
               /\ normalCells r /\ Forall validId r
               /\ forall id, Normal.covers u id -> Normal.covers r id.
Proof.
  intros nb u.
  assert (Hnb : forall c lvl, Forall validId (nb c lvl)) by exact (proj1 sample_neighbors).
  assert (Hu : Forall validId u) by (apply Samples.valid_check; vm_compute; reflexivity).
  assert (Hne : u <> []) by discriminate.
  assert (Hl : 0 <= 0 <= 30) by lia.
  assert (Hd : 0 <= 0) by lia.
  exact (conj Hnb (conj Hu (conj Hne (conj Hl (conj Hd
           (proj2 (expandA_contains_original nb 0 true 0) u Hnb Hu Hne Hl Hd)))))).
Defined.

(** [expandA_levels] at a level-2 cell, a radius of level 5 and a level
    difference of 1. *)
Lemma expandA_levels_witness :
  let nb := fun _ _ : Z => [fromFace 1] in
  let u := [child (child (fromFace 0) 1) 2] in
  (forall c lvl, Forall validId (nb c lvl))
  /\ (forall c lvl, 0 <= lvl <= 30 ->
                    Forall (fun n => S2CellId.level n <= lvl) (nb c lvl))
  /\ Forall validId u /\ u <> [] /\ 0 <= 5 <= 30 /\ 0 <= 1
  /\ exists r, expandA nb 5 false u 1 = Ok r
               /\ forall e c, In e r -> In c u ->
                              S2CellId.level e <= S2CellId.level c + 1
                              /\ S2CellId.level e <= 5.
Proof.
  intros nb u.
  assert (Hnb : forall c lvl, Forall validId (nb c lvl)) by exact (proj1 sample_neighbors).
  assert (Hnl : forall c lvl, 0 <= lvl <= 30 ->
                  Forall (fun n => S2CellId.level n <= lvl) (nb c lvl))
    by exact (proj2 sample_neighbors).
  assert (Hu : Forall validId u) by (apply Samples.valid_check; vm_compute; reflexivity).
  assert (Hne : u <> []) by discriminate.
  assert (Hl : 0 <= 5 <= 30) by lia.
  assert (Hd : 0 <= 1) by lia.
  exact (conj Hnb (conj Hnl (conj Hu (conj Hne (conj Hl (conj Hd
           (expandA_levels nb 5 false u 1 Hnb Hnl Hu Hne Hl Hd))))))).
Defined.

End ExpandValidity.

(** ** leafCellsCovered on raw arrays *)

Module LeafCount.

Import S2CellId S2CellUnion ArrayFacts CellFacts Inv.
Import NormalFacts HierarchyFacts LeafTheorems.

Lemma leaf_fold_wrap (l : list Z) :
  forall acc, u64 acc -> Forall validId l ->
  fold_left addLeaves l acc = (acc + Normal.leafSum l) mod 2 ^ 64.
Proof.
  induction l as [| a l IH]; intros acc Hacc Hv.
  - simpl. rewrite Z.add_0_r. symmetry. apply Z.mod_small. exact Hacc.
  - rewrite leafSum_cons. cbn [fold_left].
    inversion Hv as [| ? ? Hva Hvl]; subst.
    destruct (leaf_term a Hva) as [E1 _]. unfold addLeaves at 2. cbv zeta. rewrite E1.
    unfold Long.add, Long.wrap.
    rewrite IH; [| apply Z.mod_pos_bound; lia | assumption].
    rewrite Zplus_mod_idemp_l. f_equal. lia.
Qed.

Lemma leafSum_app (x y : list Z) :
  Normal.leafSum (x ++ y) = Normal.leafSum x + Normal.leafSum y.
Proof.
  induction x as [| a x IH]; [reflexivity|].
  simpl app. rewrite !leafSum_cons, IH. lia.
Qed.

(** On any array of valid identifiers, normalized or not, leafCellsCovered
    is the sum of the leaf counts of the entries reduced modulo 2^64: an
    entry stored twice is counted twice; consequently the count of an
    array put together from two is the wrapped sum of their counts. *)
Theorem leafCellsCovered_wraps (x y : list Z) :
  Forall validId x -> Forall validId y ->
  leafCellsCovered x = Normal.leafSum x mod 2 ^ 64
  /\ leafCellsCovered (x ++ y)
     = Long.add (leafCellsCovered x) (leafCellsCovered y).
Proof.
  intros Hx Hy.
  assert (H0 : u64 0) by (unfold u64; lia).
  pose proof (leafSum_app x y) as Happ.
  unfold leafCellsCovered. split.
  - rewrite leaf_fold_wrap by assumption. reflexivity.
  - rewrite !leaf_fold_wrap by (try apply Forall_app; auto).
    rewrite Happ. unfold Long.add, Long.wrap. simpl Z.add.
    rewrite <- Zplus_mod. reflexivity.
Qed.

(** [leafCellsCovered_wraps] at two arrays that share an entry. *)
Lemma leafCellsCovered_wraps_witness :
  let x := [child (fromFace 0) 1; child (fromFace 0) 1] in
  let y := [fromFace 0] in
  Forall validId x /\ Forall validId y
  /\ leafCellsCovered x = Normal.leafSum x mod 2 ^ 64
  /\ leafCellsCovered (x ++ y)
     = Long.add (leafCellsCovered x) (leafCellsCovered y).
Proof.
  intros x y.
  assert (Hx : Forall validId x) by (apply Samples.valid_check; vm_compute; reflexivity).
  assert (Hy : Forall validId y) by (apply Samples.valid_check; vm_compute; reflexivity).
  exact (conj Hx (conj Hy (leafCellsCovered_wraps x y Hx Hy))).
Defined.

End LeafCount.

(** ** denormalize *)

Module DenormalizeTheorems.

Import S2CellId S2CellUnion ArrayFacts CellFacts SortFacts Inv Region.
Import NormalFacts HierarchyFacts SearchFacts CanonicalFacts SweepFacts.
Import LeafTheorems LeafCount ExpandRegion ExpandValidity.

Lemma range_In (n : nat) (x : Z) :
  0 <= x < Z.of_nat n -> In x (map Z.of_nat (seq 0 n)).
Proof.
  intros H. apply in_map_iff. exists (Z.to_nat x).
  split; [lia | apply in_seq; lia].
Qed.

Lemma denormalizeLevel_spec (minLevel levelMod level : Z) :
  0 <= minLevel <= 30 -> 1 <= levelMod <= 3 -> 0 <= level <= 30 ->
  let newLevel := denormalizeLevel minLevel levelMod level in
  level <= newLevel <= 30 /\ minLevel <= newLevel
  /\ ((newLevel - minLevel) mod levelMod = 0 \/ newLevel = 30)
  /\ forall l, level <= l <= 30 -> minLevel <= l ->
               ((l - minLevel) mod levelMod = 0 \/ l = 30) -> newLevel <= l.
Proof.
  intros Hmin Hmod Hlevel.
  assert (Hall :
    forallb (fun m =>
      forallb (fun ml =>
        forallb (fun lv =>
          let nl := denormalizeLevel ml m lv in
          (lv <=? nl) && (nl <=? 30) && (ml <=? nl)
          && (((nl - ml) mod m =? 0) || (nl =? 30))
          && forallb (fun l =>
               negb ((lv <=? l) && (ml <=? l)
                     && (((l - ml) mod m =? 0) || (l =? 30)))
               || (nl <=? l))
               (map Z.of_nat (seq 0 31)))
          (map Z.of_nat (seq 0 31)))
        (map Z.of_nat (seq 0 31)))
      (map Z.of_nat (seq 1 3)) = true) by (vm_compute; reflexivity).
  rewrite forallb_forall in Hall.
  assert (Hm : In levelMod (map Z.of_nat (seq 1 3))).
  { apply in_map_iff. exists (Z.to_nat levelMod). split; [lia | apply in_seq; lia]. }
  specialize (Hall levelMod Hm). rewrite forallb_forall in Hall.
  specialize (Hall minLevel (range_In 31 minLevel ltac:(lia))).
  rewrite forallb_forall in Hall.
  specialize (Hall level (range_In 31 level ltac:(lia))).
  cbv zeta in Hall. cbv zeta.
  set (nl := denormalizeLevel minLevel levelMod level) in *.
  rewrite !andb_true_iff in Hall.
  destruct Hall as ((((H1 & H2) & H3) & H4) & H5).
  apply Z.leb_le in H1, H2, H3.
  split; [lia | split; [lia | split]].
  - apply orb_true_iff in H4. rewrite !Z.eqb_eq in H4. exact H4.
  - intros l Hl Hml Hc. rewrite forallb_forall in H5.
    specialize (H5 l (range_In 31 l ltac:(lia))).
    apply orb_true_iff in H5. destruct H5 as [H5 | H5]; [|apply Z.leb_le; exact H5].
    exfalso. apply negb_true_iff in H5.
    rewrite !andb_false_iff, orb_false_iff, !Z.leb_gt, !Z.eqb_neq in H5.
    destruct H5 as [[H5 | H5] | [H5 H6]]; [lia | lia |].
    destruct Hc; contradiction.
Qed.





(** The level an entry is brought to is the least level that is not
    coarser than the entry nor than [minLevel] and that differs from
    [minLevel] by a multiple of [levelMod], the leaf level counting as
    such. *)
Theorem denormalizeLevel_least (minLevel levelMod level : Z) :
  0 <= minLevel <= 30 -> 1 <= levelMod <= 3 -> 0 <= level <= 30 ->
  let newLevel := denormalizeLevel minLevel levelMod level in
  level <= newLevel <= 30 /\ minLevel <= newLevel
  /\ ((newLevel - minLevel) mod levelMod = 0 \/ newLevel = 30)
  /\ forall l, level <= l <= 30 -> minLevel <= l ->
               ((l - minLevel) mod levelMod = 0 \/ l = 30) -> newLevel <= l.
Proof.
  exact (denormalizeLevel_spec minLevel levelMod level).
Qed.












(** [denormalizeLevel_least] at an entry of level 2 with levels counted
    from 1 in steps of 3. *)
Lemma denormalizeLevel_least_witness :
  0 <= 1 <= 30 /\ 1 <= 3 <= 3 /\ 0 <= 2 <= 30
  /\ let newLevel := denormalizeLevel 1 3 2 in
     2 <= newLevel <= 30 /\ 1 <= newLevel
     /\ ((newLevel - 1) mod 3 = 0 \/ newLevel = 30)
     /\ forall l, 2 <= l <= 30 -> 1 <= l ->
                  ((l - 1) mod 3 = 0 \/ l = 30) -> newLevel <= l.
Proof.
  assert (H1 : 0 <= 1 <= 30) by lia.
  assert (H2 : 1 <= 3 <= 3) by lia.
  assert (H3 : 0 <= 2 <= 30) by lia.
  exact (conj H1 (conj H2 (conj H3 (denormalizeLevel_least 1 3 2 H1 H2 H3)))).
Defined.





End DenormalizeTheorems.
